(** * Source Structure Index: a shallow embedding of [codeIndexer.ts] and
    of the definition digest of [tree-sitter/index.ts].

    The development follows the TypeScript sources function by function.
    JavaScript strings are modelled as Rocq strings over ASCII characters,
    JavaScript numbers that hold rows, columns and line numbers as [N] and
    [Z], relevance scores as rationals ([Q]): every score the code computes
    is a small multiple of 1/8 and is therefore represented exactly by the
    floating point numbers of the source.  A [Map] is modelled as an
    association list in insertion order, which is the order [Map.values()]
    iterates in. *)

From Stdlib Require Import Ascii QArith Lqa DecimalString DecimalPos DecimalN.
From stdpp Require Import base decidable option list strings sorting.

#[local] Open Scope Z_scope.

(** ** JavaScript string primitives *)

Module JS.

(** [String.prototype.toLowerCase], on ASCII letters. *)
Definition lower_char (c : ascii) : ascii :=
  let n := nat_of_ascii c in
  if ((65 <=? n)%nat && (n <=? 90)%nat)%bool then ascii_of_nat (n + 32) else c.

Fixpoint toLowerCase (s : string) : string :=
  match s with
  | EmptyString => EmptyString
  | String c s' => String (lower_char c) (toLowerCase s')
  end.

(** [s.includes(t)]: [t] occurs in [s] as a contiguous substring. *)
Fixpoint includes (s t : string) : bool :=
  String.prefix t s ||
  match s with
  | EmptyString => false
  | String _ s' => includes s' t
  end.

(** The characters matched by [\s] and removed by [trim], in ASCII:
    tab, line feed, vertical tab, form feed, carriage return, space. *)
Definition is_ws (c : ascii) : bool :=
  let n := nat_of_ascii c in
  (((9 <=? n)%nat && (n <=? 13)%nat) || (n =? 32)%nat)%bool.

Fixpoint trimStart (s : string) : string :=
  match s with
  | EmptyString => EmptyString
  | String c s' => if is_ws c then trimStart s' else s
  end.

(** [trimEnd] keeps a character unless it is white space with only white
    space behind it. *)
Fixpoint trimEnd (s : string) : string :=
  match s with
  | EmptyString => EmptyString
  | String c s' =>
      match trimEnd s' with
      | EmptyString => if is_ws c then EmptyString else String c EmptyString
      | rest => String c rest
      end
  end.

Definition trim (s : string) : string := trimEnd (trimStart s).

(** [s.split(/\s+/)]: the pieces between maximal runs of white space.
    [cur] is the piece being read and [insep] tells that the previous
    character belonged to a separator.  A separator at either end leaves
    an empty piece there, and the empty string splits into one empty
    piece. *)
Fixpoint split_ws_go (cur : string) (insep : bool) (s : string) : list string :=
  match s with
  | EmptyString => [cur]
  | String c s' =>
      if is_ws c then
        if insep then split_ws_go cur true s'
        else cur :: split_ws_go EmptyString true s'
      else split_ws_go (cur +:+ String c EmptyString) false s'
  end.

Definition split_ws (s : string) : list string :=
  split_ws_go EmptyString false s.

(** [s.split("\n")] *)
Fixpoint split_lines_go (cur : string) (s : string) : list string :=
  match s with
  | EmptyString => [cur]
  | String c s' =>
      if Ascii.eqb c "010"%char then cur :: split_lines_go EmptyString s'
      else split_lines_go (cur +:+ String c EmptyString) s'
  end.

Definition split_lines (s : string) : list string :=
  split_lines_go EmptyString s.

(** [s.slice(1)] *)
Definition slice1 (s : string) : string :=
  match s with
  | EmptyString => EmptyString
  | String _ s' => s'
  end.

(** Template-literal rendering of a non-negative integer. *)
Definition num_to_string (n : N) : string :=
  NilZero.string_of_uint (N.to_uint n).

(** Truthiness of a string: the empty string is falsy. *)
Definition truthy (s : string) : bool :=
  match s with
  | EmptyString => false
  | String _ _ => true
  end.

(** [Array.prototype.sort(compare)], which is stable: [after x y] holds
    when [compare(x, y) > 0], that is when [x] has to be placed behind
    [y].  The elements are inserted from the right so that an element
    stays in front of the later elements it ties with. *)
Section Sort.
Context {A : Type} (after : A → A → bool).

Fixpoint insert_by (x : A) (l : list A) : list A :=
  match l with
  | [] => [x]
  | y :: l' => if after x y then y :: insert_by x l' else x :: l
  end.

Definition sort_by (l : list A) : list A := foldr insert_by [] l.
End Sort.

End JS.

(** ** [Map<string, V>] with JavaScript's iteration order *)

Module JSMap.

Definition t (V : Type) : Type := list (string * V).

Definition empty {V} : t V := [].

Fixpoint get {V} (k : string) (m : t V) : option V :=
  match m with
  | [] => None
  | (k', v) :: m' => if decide (k = k') then Some v else get k m'
  end.

(** [set] keeps the position of a key that is present and appends a new
    key at the end. *)
Fixpoint set {V} (k : string) (v : V) (m : t V) : t V :=
  match m with
  | [] => [(k, v)]
  | (k', v') :: m' =>
      if decide (k = k') then (k, v) :: m' else (k', v') :: set k v m'
  end.

Fixpoint delete {V} (k : string) (m : t V) : t V :=
  match m with
  | [] => []
  | (k', v') :: m' =>
      if decide (k = k') then delete k m' else (k', v') :: delete k m'
  end.

Definition has {V} (k : string) (m : t V) : bool :=
  match get k m with Some _ => true | None => false end.

Definition keys {V} (m : t V) : list string := m.*1.
Definition values {V} (m : t V) : list V := m.*2.
Definition size {V} (m : t V) : nat := length m.

End JSMap.

(** ** Data model *)

#[local] Unset Elimination Schemes.

(** [interface CodeNode].  The [parent] back reference is left out: no
    operation of the indexer reads it. *)
Inductive CodeNode : Type := mkCodeNode {
  id : string;
  type : string;
  name : option string;
  text : string;
  startLine : Z;
  endLine : Z;
  startCol : Z;
  endCol : Z;
  filePath : string;
  children : list CodeNode
}.

(** The syntax node handed over by the external parser.  [ts_nameField] is
    the text of [childForFieldName("name")] when there is such a child;
    [ts_children] are the non-null [child(i)]. *)
Inductive TSNode : Type := mkTSNode {
  ts_type : string;
  ts_text : string;
  ts_startRow : N;
  ts_startCol : N;
  ts_endRow : N;
  ts_endCol : N;
  ts_nameField : option string;
  ts_children : list TSNode
}.

#[local] Set Elimination Schemes.

Record QueryResult : Type := mkQueryResult {
  node : CodeNode;
  score : Q;
  matches : list string
}.

(** Structural induction over trees whose children sit in a list. *)
Section NodeInduction.
Variable P : CodeNode → Prop.
Hypothesis Hnode : ∀ i ty nm tx sl el sc ec fp cs,
  Forall P cs → P (mkCodeNode i ty nm tx sl el sc ec fp cs).

Fixpoint CodeNode_ind (n : CodeNode) : P n :=
  match n with
  | mkCodeNode i ty nm tx sl el sc ec fp cs =>
      Hnode i ty nm tx sl el sc ec fp cs
        ((fix all (l : list CodeNode) : Forall P l :=
            match l with
            | [] => Forall_nil_2 P
            | c :: l' => Forall_cons_2 P c l' (CodeNode_ind c) (all l')
            end) cs)
  end.
End NodeInduction.

Section TSInduction.
Variable P : TSNode → Prop.
Hypothesis Hnode : ∀ ty tx sr sc er ec nf cs,
  Forall P cs → P (mkTSNode ty tx sr sc er ec nf cs).

Fixpoint TSNode_ind (n : TSNode) : P n :=
  match n with
  | mkTSNode ty tx sr sc er ec nf cs =>
      Hnode ty tx sr sc er ec nf cs
        ((fix all (l : list TSNode) : Forall P l :=
            match l with
            | [] => Forall_nil_2 P
            | c :: l' => Forall_cons_2 P c l' (TSNode_ind c) (all l')
            end) cs)
  end.
End TSInduction.

(** ** Node Materializer: [convertToCodeNode] *)

Definition nameBearingTypes : list string :=
  [ "function_declaration"; "method_definition"; "class_declaration";
    "variable_declaration"; "interface_declaration"; "type_alias";
    "property_signature" ].

(** [[...].includes(s)] *)
Definition includes_str (l : list string) (s : string) : bool :=
  bool_decide (s ∈ l).

(** The fallback loop of the name extraction: the text of the first child
    that is a property or a type identifier. *)
Fixpoint fallbackName (cs : list TSNode) : option string :=
  match cs with
  | [] => None
  | c :: cs' =>
      if bool_decide (ts_type c = "property_identifier")
         || bool_decide (ts_type c = "type_identifier")
      then Some (ts_text c)
      else fallbackName cs'
  end.

Definition extractName (n : TSNode) : option string :=
  if includes_str nameBearingTypes (ts_type n) then
    match ts_nameField n with
    | Some t => Some t
    | None => fallbackName (ts_children n)
    end
  else None.

Definition makeId (filePath : string) (row col : N) : string :=
  filePath +:+ ":" +:+ JS.num_to_string row +:+ ":" +:+ JS.num_to_string col.

Fixpoint convertToCodeNode (n : TSNode) (filePath : string) : CodeNode :=
  {| id := makeId filePath (ts_startRow n) (ts_startCol n);
     type := ts_type n;
     name := extractName n;
     text := ts_text n;
     startLine := Z.of_N (ts_startRow n);
     endLine := Z.of_N (ts_endRow n);
     startCol := Z.of_N (ts_startCol n);
     endCol := Z.of_N (ts_endCol n);
     filePath := filePath;
     children :=
       (fix convertChildren (cs : list TSNode) : list CodeNode :=
          match cs with
          | [] => []
          | c :: cs' =>
              if bool_decide (ts_type c = "comment") then convertChildren cs'
              else convertToCodeNode c filePath :: convertChildren cs'
          end) (ts_children n) |}.

(** ** Structure Index *)

(** A parser registered for a file extension; [None] stands for a parse
    that throws. *)
Definition Parser : Type := string → option TSNode.

(** [class CodeIndexer]: [parsers] is [None] until [initialize] has loaded
    the language parsers; the table is looked up by lower-cased extension. *)
Record CodeIndexer : Type := mkCodeIndexer {
  parsers : option (string → option Parser);
  fileIndex : JSMap.t CodeNode;
  nodeIndex : JSMap.t CodeNode
}.

Definition newCodeIndexer : CodeIndexer :=
  {| parsers := None; fileIndex := JSMap.empty; nodeIndex := JSMap.empty |}.

(** What the indexer reads from its surroundings: [path.extname], the
    file system ([None]: the read throws), the directory scan of
    [getAllFiles] and [loadRequiredLanguageParsers] ([None]: it throws). *)
Record Env : Type := mkEnv {
  extname : string → string;
  readFileSync : string → option string;
  getAllFiles : list string → list string;
  loadRequiredLanguageParsers : list string → option (string → option Parser)
}.

(** How a method call ends. *)
Inductive completion (A : Type) : Type :=
| Returned (a : A)
| Thrown (e : string).
Arguments Returned {A} a.
Arguments Thrown {A} e.

(** A method of the indexer: it ends in a completion and a new state. *)
Definition Method (A : Type) : Type := CodeIndexer → completion A * CodeIndexer.

Definition ret {A} (a : A) : Method A := λ st, (Returned a, st).
Definition throw {A} (e : string) : Method A := λ st, (Thrown e, st).
Definition bind {A B} (m : Method A) (k : A → Method B) : Method B :=
  λ st, match m st with
        | (Returned a, st') => k a st'
        | (Thrown e, st') => (Thrown e, st')
        end.
Definition getState : Method CodeIndexer := λ st, (Returned st, st).
Definition putState (st : CodeIndexer) : Method unit := λ _, (Returned tt, st).

Notation "'let*' x ':=' m 'in' k" := (bind m (λ x, k))
  (at level 10, x name, m at level 100, k at level 200, only parsing).
Notation "m >>> k" := (bind m (λ _, k))
  (at level 100, k at level 200, right associativity, only parsing).

Fixpoint indexNode (n : CodeNode) (idx : JSMap.t CodeNode) : JSMap.t CodeNode :=
  fold_left (λ acc child, indexNode child acc) (children n)
            (JSMap.set (id n) n idx).

Fixpoint removeNodeFromIndex (n : CodeNode) (idx : JSMap.t CodeNode)
  : JSMap.t CodeNode :=
  fold_left (λ acc child, removeNodeFromIndex child acc) (children n)
            (JSMap.delete (id n) idx).

Definition fileExtension (env : Env) (filePath : string) : string :=
  JS.slice1 (JS.toLowerCase (extname env filePath)).

Definition indexFile (env : Env) (filePath : string) : Method unit :=
  let* st := getState in
  match parsers st with
  | None => throw "Indexer not initialized"
  | Some table =>
      match table (fileExtension env filePath) with
      | None => ret tt
      | Some parser =>
          match readFileSync env filePath with
          | None => throw "read failed"
          | Some fileContent =>
              match parser fileContent with
              | None => throw "parse failed"
              | Some tree =>
                  let rootNode := convertToCodeNode tree filePath in
                  putState
                    {| parsers := parsers st;
                       fileIndex := JSMap.set filePath rootNode (fileIndex st);
                       nodeIndex := indexNode rootNode (nodeIndex st) |}
              end
          end
      end
  end.

Definition updateFile (env : Env) (filePath : string) : Method unit :=
  let* st := getState in
  (match JSMap.get filePath (fileIndex st) with
   | Some oldRootNode =>
       putState
         {| parsers := parsers st;
            fileIndex := fileIndex st;
            nodeIndex := removeNodeFromIndex oldRootNode (nodeIndex st) |}
   | None => ret tt
   end) >>>
  indexFile env filePath.

(** The loop of [initialize]: a failure of [indexFile] is logged and thrown
    again, which leaves the loop. *)
Fixpoint indexAll (env : Env) (files : list string) : Method unit :=
  match files with
  | [] => ret tt
  | file :: rest => indexFile env file >>> indexAll env rest
  end.

(** [this.parsers = await loadRequiredLanguageParsers(allFiles)] *)
Definition withParsers (table : string → option Parser) (st : CodeIndexer)
  : CodeIndexer :=
  {| parsers := Some table;
     fileIndex := fileIndex st;
     nodeIndex := nodeIndex st |}.

Definition initialize (env : Env) (workspaceFolders : list string) : Method unit :=
  let allFiles := getAllFiles env workspaceFolders in
  match loadRequiredLanguageParsers env allFiles with
  | None => throw "Failed to load language parsers"
  | Some table =>
      let* st := getState in
      putState (withParsers table st) >>>
      indexAll env allFiles
  end.

(** ** Search Engine *)

(** [score > 0] on the scores of the source. *)
Definition Qpositive (q : Q) : bool := negb (Qle_bool q 0).

Definition definitionTypes : list string :=
  [ "function_declaration"; "method_definition"; "class_declaration" ].

(** [matchingTerms.some(term => node.name?.toLowerCase().includes(term))]
    under the guard [if (node.name)], which an absent and an empty name
    both fail. *)
Definition matchesName (n : CodeNode) (terms : list string) : bool :=
  match name n with
  | Some nm =>
      JS.truthy nm && existsb (λ term, JS.includes (JS.toLowerCase nm) term) terms
  | None => false
  end.

Definition lineCount (n : CodeNode) : Z := endLine n - startLine n + 1.

Definition calculateScore (n : CodeNode) (matchingTerms : list string) : Q :=
  let score := inject_Z (Z.of_nat (length matchingTerms)) in
  let score :=
    if includes_str definitionTypes (type n) then (score * 2)%Q else score in
  let lines := lineCount n in
  let score :=
    if (lines <=? 30) && (lines >=? 3) then (score * (3 # 2))%Q else score in
  let score := if matchesName n matchingTerms then (score * 3)%Q else score in
  score.

Definition calculateSpecialTypeScore (n : CodeNode) (queryTerms : list string) : Q :=
  let score := 1%Q in
  let nodeText := JS.toLowerCase (text n) in
  let matchingTerms := filter (λ term, Is_true (JS.includes nodeText term)) queryTerms in
  let score := (score + inject_Z (Z.of_nat (length matchingTerms)) * (1 # 2))%Q in
  let score := if matchesName n queryTerms then (score * 2)%Q else score in
  let propertyMatches :=
    length (filter (λ child,
                      Is_true (bool_decide (type child = "property_signature")
                               && matchesName child queryTerms))
                   (children n)) in
  (score + inject_Z (Z.of_nat propertyMatches) * (3 # 4))%Q.

(** [node.name?.toLowerCase() || ""] *)
Definition lowerNameOrEmpty (n : CodeNode) : string :=
  match name n with
  | Some nm => JS.toLowerCase nm
  | None => ""
  end.

(** The two accumulators of [search]. *)
Record SearchAcc : Type := mkSearchAcc {
  results : list QueryResult;
  addedNodes : JSMap.t bool
}.

(** First pass: the whole query occurs in the text, the type or the name. *)
Definition exactPassStep (searchQueryLower : string) (queryTerms : list string)
    (acc : SearchAcc) (n : CodeNode) : SearchAcc :=
  let nodeText := JS.toLowerCase (text n) in
  let nodeType := JS.toLowerCase (type n) in
  let nodeName := lowerNameOrEmpty n in
  if JS.includes nodeText searchQueryLower
     || JS.includes nodeType searchQueryLower
     || JS.includes nodeName searchQueryLower
  then
    let score := calculateScore n queryTerms in
    if Qpositive score && negb (JSMap.has (id n) (addedNodes acc)) then
      {| results := results acc ++ [mkQueryResult n (score * 2)%Q [searchQueryLower]];
         addedNodes := JSMap.set (id n) true (addedNodes acc) |}
    else acc
  else acc.

(** Second pass: some term occurs in the text, the type or the name. *)
Definition termPassStep (queryTerms : list string)
    (acc : SearchAcc) (n : CodeNode) : SearchAcc :=
  if JSMap.has (id n) (addedNodes acc) then acc
  else
    let nodeText := JS.toLowerCase (text n) in
    let nodeType := JS.toLowerCase (type n) in
    let nodeName := lowerNameOrEmpty n in
    let matchingTerms :=
      filter (λ term, Is_true (JS.includes nodeText term
                               || JS.includes nodeType term
                               || JS.includes nodeName term)) queryTerms in
    if (0 <? length matchingTerms)%nat then
      let score := calculateScore n matchingTerms in
      if Qpositive score then
        {| results := results acc ++ [mkQueryResult n score matchingTerms];
           addedNodes := addedNodes acc |}
      else acc
    else acc.

(** Third pass: interfaces and type aliases, for a query that asks for them. *)
Definition typePassStep (queryTerms : list string)
    (acc : SearchAcc) (n : CodeNode) : SearchAcc :=
  if JSMap.has (id n) (addedNodes acc) then acc
  else if bool_decide (type n = "interface_declaration")
          || bool_decide (type n = "type_alias")
  then
    let score := calculateSpecialTypeScore n queryTerms in
    if Qpositive score then
      {| results := results acc ++ [mkQueryResult n (score * (3 # 2))%Q ["interface"]];
         addedNodes := addedNodes acc |}
    else acc
  else acc.

(** [(a, b) => b.score - a.score] is positive when [a] goes behind [b]. *)
Definition byScoreDescending (a b : QueryResult) : bool :=
  Qpositive (score b - score a).

(** The results of the three passes, in the order they were pushed. *)
Definition searchCandidates (query : string) (st : CodeIndexer) : list QueryResult :=
  let searchQueryLower := JS.trim (JS.toLowerCase query) in
  let queryTerms := JS.split_ws searchQueryLower in
  let nodes := JSMap.values (nodeIndex st) in
  let acc := {| results := []; addedNodes := JSMap.empty |} in
  let acc := fold_left (exactPassStep searchQueryLower queryTerms) nodes acc in
  let acc := fold_left (termPassStep queryTerms) nodes acc in
  let acc :=
    if JS.includes searchQueryLower "interface" || JS.includes searchQueryLower "type"
    then fold_left (typePassStep queryTerms) nodes acc
    else acc in
  results acc.

Definition search (query : string) (st : CodeIndexer) : list QueryResult :=
  JS.sort_by byScoreDescending (searchCandidates query st).

(** The single-pass [search] of the earlier variants of the indexer, which
    skips nodes of fewer than ten characters and matches the text only. *)
Module SinglePass.

Definition searchStep (queryTerms : list string)
    (results : list QueryResult) (n : CodeNode) : list QueryResult :=
  if (String.length (text n) <? 10)%nat then results
  else
    let nodeText := JS.toLowerCase (text n) in
    let matchingTerms :=
      filter (λ term, Is_true (JS.includes nodeText term)) queryTerms in
    if (0 <? length matchingTerms)%nat then
      let score := calculateScore n matchingTerms in
      if Qpositive score then results ++ [mkQueryResult n score matchingTerms]
      else results
    else results.

Definition searchCandidates (query : string) (st : CodeIndexer) : list QueryResult :=
  let queryTerms := JS.split_ws (JS.toLowerCase query) in
  fold_left (searchStep queryTerms) (JSMap.values (nodeIndex st)) [].

Definition search (query : string) (st : CodeIndexer) : list QueryResult :=
  JS.sort_by byScoreDescending (searchCandidates query st).

End SinglePass.

(** ** Position Resolver *)

Definition outsideRange (n : CodeNode) (line column : Z) : bool :=
  (line <? startLine n)
  || ((line =? startLine n) && (column <? startCol n))
  || (line >? endLine n)
  || ((line =? endLine n) && (column >? endCol n)).

Fixpoint findNodeAtPosition (n : CodeNode) (line column : Z) : option CodeNode :=
  if outsideRange n line column then None
  else
    match
      (fix firstChild (cs : list CodeNode) : option CodeNode :=
         match cs with
         | [] => None
         | child :: cs' =>
             match findNodeAtPosition child line column with
             | Some childResult => Some childResult
             | None => firstChild cs'
             end
         end) (children n)
    with
    | Some childResult => Some childResult
    | None => Some n
    end.

Definition getNodeAtPosition (st : CodeIndexer) (filePath : string)
    (line column : Z) : option CodeNode :=
  match JSMap.get filePath (fileIndex st) with
  | None => None
  | Some rootNode => findNodeAtPosition rootNode line column
  end.

(** ** Lookups by node id *)

Definition getNodeText (st : CodeIndexer) (nodeId : string) : option string :=
  match JSMap.get nodeId (nodeIndex st) with
  | Some n => Some (text n)
  | None => None
  end.

Record NodePosition : Type := mkNodePosition {
  pos_filePath : string;
  pos_startLine : Z;
  pos_startCol : Z;
  pos_endLine : Z;
  pos_endCol : Z
}.

Definition getNodePosition (st : CodeIndexer) (nodeId : string) : option NodePosition :=
  match JSMap.get nodeId (nodeIndex st) with
  | None => None
  | Some n =>
      Some {| pos_filePath := filePath n;
              pos_startLine := startLine n;
              pos_startCol := startCol n;
              pos_endLine := endLine n;
              pos_endCol := endCol n |}
  end.

(** ** Capture Normalizer: the definition digest of [parseFile] *)

Module Digest.

(** A capture of the query engine: its label and the rows of its node. *)
Record Capture : Type := mkCapture {
  cap_name : string;
  cap_startRow : N;
  cap_endRow : N
}.

(** What one iteration appends to [formattedOutput]. *)
Inductive Chunk : Type :=
| Separator
| DefinitionLine (c : Capture).

(** [(a, b) => a.node.startPosition.row - b.node.startPosition.row] *)
Definition byStartRow (a b : Capture) : bool :=
  (0 <? Z.of_N (cap_startRow a) - Z.of_N (cap_startRow b)).

(** [lines[startLine]] is printed when it is a non-empty string. *)
Definition lineShown (lines : list string) (c : Capture) : bool :=
  match lines !! N.to_nat (cap_startRow c) with
  | Some l => JS.truthy l
  | None => false
  end.

Definition isNameCapture (c : Capture) : bool :=
  JS.includes (cap_name c) "name".

(** The body of the loop over the sorted captures; the state is
    [formattedOutput], as the chunks appended so far, and [lastLine]. *)
Definition digestStep (lines : list string)
    (acc : list Chunk * Z) (c : Capture) : list Chunk * Z :=
  let '(formattedOutput, lastLine) := acc in
  let startLine := Z.of_N (cap_startRow c) in
  if negb (isNameCapture c) then acc
  else
    let formattedOutput :=
      if negb (lastLine =? -1) && (startLine >? lastLine + 1)
      then formattedOutput ++ [Separator]
      else formattedOutput in
    if lineShown lines c
    then (formattedOutput ++ [DefinitionLine c], Z.of_N (cap_endRow c))
    else (formattedOutput, lastLine).

Definition digestChunks (captures : list Capture) (lines : list string)
  : list Chunk :=
  (fold_left (digestStep lines) (JS.sort_by byStartRow captures) ([], -1)).1.

Definition separatorText : string := "|----" +:+ String "010"%char "".
(** The characters in front of a printed line, as the bytes the source
    file has between the backquote and [${]. *)
Definition linePrefix : string :=
  String "195"%char (String "162"%char
  (String "226"%char (String "128"%char (String "157"%char
  (String "226"%char (String "128"%char (String "154"%char ""))))))).

Definition renderChunk (lines : list string) (ch : Chunk) : string :=
  match ch with
  | Separator => separatorText
  | DefinitionLine c =>
      linePrefix +:+ default "" (lines !! N.to_nat (cap_startRow c))
                 +:+ String "010"%char ""
  end.

(** The text returned for one file once its captures are known: [None]
    when there is no capture or nothing was printed. *)
Definition formatDefinitions (captures : list Capture) (lines : list string)
  : option string :=
  match captures with
  | [] => None
  | _ =>
      let formattedOutput :=
        foldr (λ ch out, renderChunk lines ch +:+ out) ""
              (digestChunks captures lines) in
      if (0 <? String.length formattedOutput)%nat
      then Some (separatorText +:+ formattedOutput +:+ separatorText)
      else None
  end.


(** *** Vocabulary of the digest properties *)

(** The test in front of the separator: the capture starts more than one
    row below [lastLine]. *)
Definition gapBefore (lastLine : Z) (c : Capture) : bool :=
  negb (lastLine =? -1) && (Z.of_N (cap_startRow c) >? lastLine + 1).

(** The chunks the loop appends for the captures [cs] when it reaches them
    with [lastLine]. *)
Fixpoint chunksFrom (lines : list string) (lastLine : Z) (cs : list Capture)
  : list Chunk :=
  match cs with
  | [] => []
  | c :: cs' =>
      if negb (isNameCapture c) then chunksFrom lines lastLine cs'
      else
        (if gapBefore lastLine c then [Separator] else []) ++
        (if lineShown lines c
         then DefinitionLine c :: chunksFrom lines (Z.of_N (cap_endRow c)) cs'
         else chunksFrom lines lastLine cs')
  end.




End Digest.

(** ** Sample files *)

Module Examples.

Definition leaf (ty tx : string) (row col endCol : N) : TSNode :=
  mkTSNode ty tx row col row endCol None [].

(** [function add(a, b) { return a + b; }] *)
Definition addSource : string := "function add(a, b) { return a + b; }".

Definition addDeclaration : TSNode :=
  mkTSNode "function_declaration" addSource 0 0 0 36 (Some "add")
    [ leaf "identifier" "add" 0 9 12;
      leaf "formal_parameters" "(a, b)" 0 12 18;
      leaf "statement_block" "{ return a + b; }" 0 19 36 ].

Definition addTree : TSNode :=
  mkTSNode "program" addSource 0 0 0 36 None [addDeclaration].

(** [interface Bar { x: number }] *)
Definition barSource : string := "interface Bar { x: number }".

(** The tree with the keyword and punctuation tokens, which [child(i)]
    returns like every other child. *)
Definition barBody : TSNode :=
  mkTSNode "interface_body" "{ x: number }" 0 14 0 27 None
    [ leaf "{" "{" 0 14 15;
      mkTSNode "property_signature" "x: number" 0 16 0 25 (Some "x")
        [ leaf "property_identifier" "x" 0 16 17;
          mkTSNode "type_annotation" ": number" 0 17 0 25 None
            [ leaf ":" ":" 0 17 18;
              mkTSNode "predefined_type" "number" 0 19 0 25 None
                [ leaf "number" "number" 0 19 25 ] ] ];
      leaf "}" "}" 0 26 27 ].

Definition barDeclaration : TSNode :=
  mkTSNode "interface_declaration" barSource 0 0 0 27 (Some "Bar")
    [ leaf "interface" "interface" 0 0 9;
      leaf "type_identifier" "Bar" 0 10 13;
      barBody ].

Definition barTree : TSNode :=
  mkTSNode "program" barSource 0 0 0 27 None [barDeclaration].

(** Two statements that tie on every query they both match. *)
Definition pairSource : string :=
  "const total = 1;" +:+ String "010"%char "" +:+ "const tally = 2;".

Definition pairTree : TSNode :=
  mkTSNode "program" pairSource 0 0 1 16 None
    [ leaf "lexical_declaration" "const total = 1;" 0 0 16;
      leaf "lexical_declaration" "const tally = 2;" 1 0 16 ].

(** A TypeScript parser that knows the three sources and throws on any
    other text. *)
Definition tsParser : Parser := λ fileContent,
  if bool_decide (fileContent = addSource) then Some addTree
  else if bool_decide (fileContent = barSource) then Some barTree
  else if bool_decide (fileContent = pairSource) then Some pairTree
  else None.

Definition tsOnly : string → option Parser := λ ext,
  if bool_decide (ext = "ts") then Some tsParser else None.

(** The extension is what follows the last dot of these sample paths. *)
Definition sampleExtname (p : string) : string :=
  if bool_decide (p = "notes.md") then ".md" else ".ts".

Definition files (contents : list (string * string)) : string → option string :=
  λ p, JSMap.get p contents.

Definition envWith (contents : list (string * string)) : Env :=
  {| extname := sampleExtname;
     readFileSync := files contents;
     getAllFiles := λ _, contents.*1;
     loadRequiredLanguageParsers := λ _, Some tsOnly |}.

(** An indexer whose parsers are loaded and whose indexes are empty. *)
Definition ready : CodeIndexer :=
  {| parsers := Some tsOnly; fileIndex := JSMap.empty; nodeIndex := JSMap.empty |}.

Definition after {A} (m : Method A) (st : CodeIndexer) : CodeIndexer := (m st).2.

Definition addIndexed : CodeIndexer :=
  after (indexFile (envWith [("add.ts", addSource)]) "add.ts") ready.

Definition barIndexed : CodeIndexer :=
  after (indexFile (envWith [("bar.ts", barSource)]) "bar.ts") ready.

Definition pairIndexed : CodeIndexer :=
  after (indexFile (envWith [("pair.ts", pairSource)]) "pair.ts") ready.

(** A root on rows 0 to 10 with one child on rows 2 to 4. *)
Definition nestedTree : TSNode :=
  mkTSNode "program" "eleven lines" 0 0 10 1 None
    [ mkTSNode "function_declaration" "three lines" 2 0 4 1 (Some "inner") [] ].

Definition nestedRoot : CodeNode := convertToCodeNode nestedTree "nested.ts".

Definition nestedChild : CodeNode :=
  convertToCodeNode
    (mkTSNode "function_declaration" "three lines" 2 0 4 1 (Some "inner") [])
    "nested.ts".

Definition nestedIndexed : CodeIndexer :=
  {| parsers := Some tsOnly;
     fileIndex := JSMap.set "nested.ts" nestedRoot JSMap.empty;
     nodeIndex := indexNode nestedRoot JSMap.empty |}.

(** Two one-line functions, of which only the first is called [add]. *)
Definition addFunction : CodeNode :=
  convertToCodeNode
    (mkTSNode "function_declaration" addSource 0 0 0 36 (Some "add") [])
    "add.ts".

Definition sumFunction : CodeNode :=
  convertToCodeNode
    (mkTSNode "function_declaration" "function sum(a, b) { return add(a, b); }"
       0 0 0 40 (Some "sum") [])
    "sum.ts".

(** A run over a file the parser rejects and a file it accepts. *)
Definition brokenThenAdd : Env :=
  envWith [("broken.ts", "function add("); ("add.ts", addSource)].

(** [add.ts] after an edit that the parser rejects, and after the file was
    deleted. *)
Definition addBroken : Env := envWith [("add.ts", "function add(")].
Definition addDeleted : Env := envWith [].

(** A later [initialize] over a workspace without TypeScript files: the
    parser table it loads has no entry for [ts]. *)
Definition noParsers : Env :=
  {| extname := sampleExtname;
     readFileSync := files [("add.ts", addSource)];
     getAllFiles := λ _, [];
     loadRequiredLanguageParsers := λ _, Some (λ _, None) |}.


Definition nameOfF : Digest.Capture := Digest.mkCapture "name.definition.function" 0 0.
Definition nameOfG : Digest.Capture := Digest.mkCapture "name.definition.function" 6 6.
Definition nameOfH : Digest.Capture := Digest.mkCapture "name.definition.function" 7 7.

Definition spacedCaptures : list Digest.Capture :=
  [ Digest.mkCapture "definition.function" 6 6; nameOfG;
    Digest.mkCapture "definition.function" 7 7; nameOfH;
    Digest.mkCapture "definition.function" 0 0; nameOfF ].

(** [add.ts] after its content was replaced by the interface. *)
Definition addReplaced : Env := envWith [("add.ts", barSource)].

End Examples.

(** ** Vocabulary of the properties *)

(** All nodes of a tree, the root first. *)
Fixpoint subnodes (n : CodeNode) : list CodeNode :=
  n :: flat_map subnodes (children n).

Definition node_ids (n : CodeNode) : list string := id <$> subnodes n.

(** The ids reachable from the roots of FileIndex, and the invariant of the
    Structure Index: the keys of NodeIndex are exactly these ids. *)
Definition reachableIds (st : CodeIndexer) : list string :=
  flat_map node_ids (JSMap.values (fileIndex st)).

Definition index_consistent (st : CodeIndexer) : Prop :=
  ∀ i, i ∈ JSMap.keys (nodeIndex st) ↔ i ∈ reachableIds st.

(** The search of [findNodeAtPosition] through the children, in order. *)
Fixpoint firstChildAt (cs : list CodeNode) (line column : Z) : option CodeNode :=
  match cs with
  | [] => None
  | child :: cs' =>
      match findNodeAtPosition child line column with
      | Some childResult => Some childResult
      | None => firstChildAt cs' line column
      end
  end.

(** The three boosts of [calculateScore], each as a factor. *)
Definition kindBoost (n : CodeNode) : Q :=
  if includes_str definitionTypes (type n) then 2 else 1.

Definition sizeBoost (n : CodeNode) : Q :=
  if (lineCount n <=? 30) && (lineCount n >=? 3) then 3 # 2 else 1.

Definition nameBoost (n : CodeNode) (terms : list string) : Q :=
  if matchesName n terms then 3 else 1.

(** [x] may stand in front of [y] in an array sorted with the comparison
    [after]. *)
Definition mayPrecede {A} (after : A → A → bool) (x y : A) : Prop :=
  after x y = false.

(** A search function never returns a node of fewer than ten characters. *)
Definition rejects_short_nodes
    (searchFn : string → CodeIndexer → list QueryResult) : Prop :=
  ∀ query st r, r ∈ searchFn query st → (10 ≤ String.length (text (node r)))%nat.

(** A file of the run can be indexed on its own: it has a parser, its
    content can be read and the parser accepts the content. *)
Definition parses (env : Env) (table : string → option Parser) (f : string) : Prop :=
  ∃ parser fileContent tree,
    table (fileExtension env f) = Some parser ∧
    readFileSync env f = Some fileContent ∧
    parser fileContent = Some tree.

(** A parse failure stays local to its file: after [initialize] every file
    of the run that can be indexed on its own has a root in FileIndex. *)
Definition parse_failure_is_local : Prop :=
  ∀ env folders table st g,
    loadRequiredLanguageParsers env (getAllFiles env folders) = Some table →
    g ∈ getAllFiles env folders →
    parses env table g →
    is_Some (JSMap.get g (fileIndex (initialize env folders st).2)).

(** The terms [search] derives from a query. *)
Definition queryTermsOf (query : string) : list string :=
  JS.split_ws (JS.trim (JS.toLowerCase query)).

(** The ids of the nodes of a result list, in order. *)
Definition resultIds (rs : list QueryResult) : list string :=
  (λ r, id (node r)) <$> rs.

(** The number of colons of a string: an id ends in two colon-separated
    numbers, and this tells where the file path stops. *)
Fixpoint colons (s : string) : nat :=
  match s with
  | EmptyString => 0%nat
  | String c s' => ((if Ascii.eqb c ":"%char then 1 else 0) + colons s')%nat
  end.

(** The part of an id behind the file path. *)
Definition idTail (row col : N) : string :=
  ":" +:+ JS.num_to_string row +:+ ":" +:+ JS.num_to_string col.

(** The ids of the nodes under a root of FileIndex are ids of its file. *)
Definition rootsOwnIds (st : CodeIndexer) : Prop :=
  ∀ f root i,
    JSMap.get f (fileIndex st) = Some root → i ∈ node_ids root →
    ∃ row col, i = makeId f row col.

(** The invariant together with what its preservation rests on. *)
Definition indexes_wf (st : CodeIndexer) : Prop :=
  NoDup (JSMap.keys (fileIndex st)) ∧ rootsOwnIds st ∧ index_consistent st.

(** The keys of NodeIndex are the ids reachable from the roots of the files
    other than [f]: the state between the two steps of [updateFile]. *)
Definition consistent_except (f : string) (st : CodeIndexer) : Prop :=
  ∀ i, i ∈ JSMap.keys (nodeIndex st) ↔
       ∃ g root, g ≠ f ∧ JSMap.get g (fileIndex st) = Some root ∧
                 i ∈ node_ids root.

(** The mutating calls of the index, each with the surroundings it runs in. *)
Inductive Call : Type :=
| IndexFile (env : Env) (filePath : string)
| UpdateFile (env : Env) (filePath : string).

Definition runCall (c : Call) (st : CodeIndexer) : CodeIndexer :=
  match c with
  | IndexFile env f => (indexFile env f st).2
  | UpdateFile env f => (updateFile env f st).2
  end.

Definition runCalls (cs : list Call) (st : CodeIndexer) : CodeIndexer :=
  fold_left (λ st c, runCall c st) cs st.

(** The calls under which the invariant is kept: [indexFile] on a file
    that has no root yet, and [updateFile] on a file that has no root yet
    or whose new content has a parser, can be read and is accepted. *)
Definition keepsIndexes (c : Call) (st : CodeIndexer) : Prop :=
  match c with
  | IndexFile env f => JSMap.get f (fileIndex st) = None
  | UpdateFile env f =>
      JSMap.get f (fileIndex st) = None ∨
      ∃ table, parsers st = Some table ∧ parses env table f
  end.

Fixpoint allKeepIndexes (cs : list Call) (st : CodeIndexer) : Prop :=
  match cs with
  | [] => True
  | c :: cs' => keepsIndexes c st ∧ allKeepIndexes cs' (runCall c st)
  end.

(** The last character of a string, if there is one, is no white space. *)
Fixpoint endsClean (s : string) : bool :=
  match s with
  | EmptyString => true
  | String c EmptyString => negb (JS.is_ws c)
  | String _ s' => endsClean s'
  end.

(** The first character of a string is no white space. *)
Definition startsClean (s : string) : bool :=
  match s with
  | EmptyString => false
  | String c _ => negb (JS.is_ws c)
  end.

(** Having a given score is decidable. *)
#[local] Instance score_eq_dec (s : Q) (r : QueryResult) :
  Decision (score r == s)%Q := Qeq_dec (score r) s.

(** ** Further parts of the code *)

(** *** What a digest prints *)

(** The captures whose line the loop of [parseFile] prints. *)
Definition printable (lines : list string) (c : Digest.Capture) : bool :=
  Digest.isNameCapture c && Digest.lineShown lines c.

Definition printedCaptures (out : list Digest.Chunk) : list Digest.Capture :=
  flat_map (λ ch, match ch with
                  | Digest.DefinitionLine c => [c]
                  | Digest.Separator => []
                  end) out.

(** *** The digest of the earlier [parseFile] *)

Module LegacyDigest.
Import Digest.

Definition linePrefix : string :=
  String "226"%char (String "148"%char (String "130"%char "")).

(** The body of [captures.forEach]: the separator is tried for every
    capture and [lastLine] moves with every capture. *)
Definition digestStep (lines : list string)
    (acc : list Chunk * Z) (c : Capture) : list Chunk * Z :=
  let '(formattedOutput, lastLine) := acc in
  let startLine := Z.of_N (cap_startRow c) in
  let endLine := Z.of_N (cap_endRow c) in
  let formattedOutput :=
    if negb (lastLine =? -1) && (startLine >? lastLine + 1)
    then formattedOutput ++ [Separator]
    else formattedOutput in
  let formattedOutput :=
    if isNameCapture c && lineShown lines c
    then formattedOutput ++ [DefinitionLine c]
    else formattedOutput in
  (formattedOutput, endLine).

Definition digestChunks (captures : list Capture) (lines : list string)
  : list Chunk :=
  (fold_left (digestStep lines) (JS.sort_by byStartRow captures) ([], -1)).1.

Definition renderChunk (lines : list string) (ch : Chunk) : string :=
  match ch with
  | Separator => separatorText
  | DefinitionLine c =>
      linePrefix +:+ default "" (lines !! N.to_nat (cap_startRow c))
                 +:+ String "010"%char ""
  end.

Definition formatDefinitions (captures : list Capture) (lines : list string)
  : option string :=
  let formattedOutput :=
    foldr (λ ch out, renderChunk lines ch +:+ out) ""
          (digestChunks captures lines) in
  if (0 <? String.length formattedOutput)%nat
  then Some (separatorText +:+ formattedOutput +:+ separatorText)
  else None.

(** The chunks the loop appends for the captures [cs] when it reaches them
    with [lastLine]. *)
Fixpoint chunksFrom (lines : list string) (lastLine : Z) (cs : list Capture)
  : list Chunk :=
  match cs with
  | [] => []
  | c :: cs' =>
      (if gapBefore lastLine c then [Separator] else []) ++
      (if isNameCapture c && lineShown lines c then [DefinitionLine c] else []) ++
      chunksFrom lines (Z.of_N (cap_endRow c)) cs'
  end.

End LegacyDigest.

(** *** The test of the single-pass [search] *)

(** A node passes when its text has ten characters and holds a term. *)
Definition singlePassMatch (queryTerms : list string) (n : CodeNode) : bool :=
  negb (String.length (text n) <? 10)%nat
  && existsb (JS.includes (JS.toLowerCase (text n))) queryTerms.

(** *** The folder scan: [getAllFiles] and [isSupportedFileType] *)

Module Scan.

#[local] Unset Elimination Schemes.

(** What [readdirSync] and [statSync] tell of the items of a folder: a
    file, a folder with its own items ([readable] is off when reading it
    throws), an item that is neither, and an item on which [statSync]
    throws. *)
Inductive Entry : Type :=
| FileEntry (name : string)
| DirEntry (name : string) (readable : bool) (items : list Entry)
| OtherEntry (name : string)
| BrokenEntry (name : string).

#[local] Set Elimination Schemes.

Section EntryInduction.
Variable P : Entry → Prop.
Hypothesis Hfile : ∀ name, P (FileEntry name).
Hypothesis Hdir : ∀ name readable items,
  Forall P items → P (DirEntry name readable items).
Hypothesis Hother : ∀ name, P (OtherEntry name).
Hypothesis Hbroken : ∀ name, P (BrokenEntry name).

Fixpoint Entry_ind (item : Entry) : P item :=
  match item with
  | FileEntry name => Hfile name
  | DirEntry name readable items =>
      Hdir name readable items
        ((fix all (l : list Entry) : Forall P l :=
            match l with
            | [] => Forall_nil_2 P
            | i :: l' => Forall_cons_2 P i l' (Entry_ind i) (all l')
            end) items)
  | OtherEntry name => Hother name
  | BrokenEntry name => Hbroken name
  end.
End EntryInduction.

Definition entryName (item : Entry) : string :=
  match item with
  | FileEntry name | DirEntry name _ _ | OtherEntry name | BrokenEntry name =>
      name
  end.

Definition supportedExtensions : list string :=
  [ "js"; "jsx"; "ts"; "tsx"; "go" ].

Definition isSupportedFileType (env : Env) (filePath : string) : bool :=
  bool_decide (fileExtension env filePath ∈ supportedExtensions).

(** [!item.startsWith(".") && item !== "node_modules"] *)
Definition entered (item : string) : bool :=
  negb (String.prefix "." item) && negb (bool_decide (item = "node_modules")).

(** The [for] loop in the [try] block of [processFolder]: [visit] handles
    one item and tells whether it threw, which ends the loop. *)
Definition forItems (visit : Entry → list string → list string * bool)
  : list Entry → list string → list string :=
  fix loop (items : list Entry) (files : list string) : list string :=
    match items with
    | [] => files
    | item :: rest =>
        let '(files', thrown) := visit item files in
        if thrown then files' else loop rest files'
    end.

Section Walk.
Variable env : Env.
(** [path.join] *)
Variable join : string → string → string.

(** One turn of the loop on an item of [folder]; [files] is the array
    shared by all calls of [processFolder]. *)
Fixpoint visit (folder : string) (item : Entry) (files : list string)
  : list string * bool :=
  let itemPath := join folder (entryName item) in
  match item with
  | BrokenEntry _ => (files, true)
  | DirEntry name readable items =>
      if entered name
      then (if readable then forItems (visit itemPath) items files else files,
            false)
      else (files, false)
  | FileEntry _ =>
      if isSupportedFileType env itemPath
      then (files ++ [itemPath], false)
      else (files, false)
  | OtherEntry _ => (files, false)
  end.

(** [processFolder] on a workspace folder; [readdirSync] gives its items
    or throws. *)
Definition processFolder (readdirSync : string → option (list Entry))
    (folder : string) (files : list string) : list string :=
  match readdirSync folder with
  | None => files
  | Some items => forItems (visit folder) items files
  end.

Definition getAllFiles (readdirSync : string → option (list Entry))
    (folders : list string) : list string :=
  fold_left (λ files folder, processFolder readdirSync folder files)
            folders [].

End Walk.

(** The items of a folder up to the first on which [statSync] throws. *)
Fixpoint untilBroken (items : list Entry) : list Entry :=
  match items with
  | [] => []
  | BrokenEntry _ :: _ => []
  | item :: rest => item :: untilBroken rest
  end.

End Scan.

(** *** The parser loader with the [switch] over four extensions *)

Module Loader.

Inductive QuerySource : Type :=
| javascriptQuery
| typescriptQuery.

(** [case "js": case "jsx": ... default: throw] *)
Definition grammarOf (ext : string) : option (string * QuerySource) :=
  if bool_decide (ext = "js") || bool_decide (ext = "jsx")
  then Some ("javascript", javascriptQuery)
  else if bool_decide (ext = "ts") then Some ("typescript", typescriptQuery)
  else if bool_decide (ext = "tsx") then Some ("tsx", typescriptQuery)
  else None.

(** [new Set(...)]: the values in the order of their first occurrence. *)
Definition setOf (values : list string) : list string :=
  fold_left (λ s v, if bool_decide (v ∈ s) then s else s ++ [v]) values [].

Section Loader.
Variable env : Env.
(** [initializeParser()], and for a grammar and a query [loadLanguage],
    [language.query] and the parser set to the language: what they give,
    or the error they throw. *)
Variable initializeParser : completion unit.
Variable parserOf : string → QuerySource → completion Parser.

Fixpoint loadEach (exts : list string) (parsers : JSMap.t Parser)
  : completion (JSMap.t Parser) :=
  match exts with
  | [] => Returned parsers
  | ext :: rest =>
      match grammarOf ext with
      | None => Thrown ("Unsupported language: " +:+ ext)
      | Some (langName, query) =>
          match parserOf langName query with
          | Thrown e => Thrown e
          | Returned parser => loadEach rest (JSMap.set ext parser parsers)
          end
      end
  end.

Definition loadRequiredLanguageParsers (filesToParse : list string)
  : completion (JSMap.t Parser) :=
  match initializeParser with
  | Thrown e => Thrown e
  | Returned _ =>
      loadEach (setOf (fileExtension env <$> filesToParse)) JSMap.empty
  end.

End Loader.

End Loader.

(** *** The listing of one directory: [listFilesNonRecursive] *)

Module ListFiles.

(** A [Dirent] of [readdir] with [withFileTypes]. *)
Record Dirent : Type := mkDirent {
  dirent_name : string;
  dirent_isDirectory : bool
}.

Section NonRecursive.
(** [path.join] *)
Variable join : string → string → string.

Definition listed (dir : string) (entry : Dirent) : string :=
  let fullPath := join dir (dirent_name entry) in
  if dirent_isDirectory entry then fullPath +:+ "/" else fullPath.

(** The loop over the entries with its return from inside. *)
Fixpoint forEntries (dir : string) (limit : Z) (entries : list Dirent)
    (results : list string) : list string * bool :=
  match entries with
  | [] => (results, bool_decide (limit ≤ Z.of_nat (length results)))
  | entry :: rest =>
      if bool_decide (limit ≤ Z.of_nat (length results))
      then (results, true)
      else forEntries dir limit rest (results ++ [listed dir entry])
  end.

Definition listFilesNonRecursive (readdir : string → option (list Dirent))
    (dir : string) (limit : Z) : list string * bool :=
  match readdir dir with
  | None => ([], false)
  | Some entries => forEntries dir limit entries []
  end.

End NonRecursive.

End ListFiles.

(** *** Sample folders and loaders *)

Module Samples.

Definition joinPosix (folder item : string) : string :=
  folder +:+ "/" +:+ item.

(** A workspace folder with a dangling link between two sources. *)
Definition workspace : list Scan.Entry :=
  [ Scan.FileEntry "add.ts";
    Scan.DirEntry "lib" true [ Scan.FileEntry "bar.ts" ];
    Scan.BrokenEntry "dangling";
    Scan.FileEntry "pair.ts" ].

Definition readWorkspace (items : list Scan.Entry)
  : string → option (list Scan.Entry) :=
  λ folder, if bool_decide (folder = "ws") then Some items else None.

(** The extension of the sample paths of a project with one Go file. *)
Definition goExtname (p : string) : string :=
  if bool_decide (p = "ws/main.go") then ".go" else ".ts".

Definition goEnv : Env :=
  {| extname := goExtname;
     readFileSync := λ _, None;
     getAllFiles := λ _, [ "ws/add.ts"; "ws/main.go" ];
     loadRequiredLanguageParsers := λ _, None |}.

(** Every grammar loads. *)
Definition loadsAll : string → Loader.QuerySource → completion Parser :=
  λ _ _, Returned Examples.tsParser.

(** The file of [Examples.spacedLines], and a parser with a query that
    gives the name captures of its first two functions. *)
Definition spacedSource : string :=
  "function f() {}" +:+ String "010"%char "" +:+ String "010"%char ""
  +:+ String "010"%char "" +:+ String "010"%char "" +:+ String "010"%char ""
  +:+ String "010"%char "" +:+ "function g() {}" +:+ String "010"%char ""
  +:+ "function h() {}".




Definition someEntries : list ListFiles.Dirent :=
  [ ListFiles.mkDirent "src" true;
    ListFiles.mkDirent "package.json" false ].

End Samples.

(** ** Vocabulary of the further properties *)

(** The id that the file and the start position of a node spell out. *)
Definition positionId (n : CodeNode) : string :=
  makeId (filePath n) (Z.to_N (startLine n)) (Z.to_N (startCol n)).

(** Every entry of NodeIndex is stored under the id of its node, and this
    id is the one its position spells out. *)
Definition keyedById (idx : JSMap.t CodeNode) : Prop :=
  NoDup (JSMap.keys idx) ∧
  ∀ k n, JSMap.get k idx = Some n → k = id n ∧ id n = positionId n.

(** The last node with a given id, in document order. *)
Definition lastWithId (k : string) (nodes : list CodeNode) : option CodeNode :=
  last (filter (λ m, id m = k) nodes).

(** The position record [getNodePosition] builds for a node. *)
Definition positionOf (n : CodeNode) : NodePosition :=
  {| pos_filePath := filePath n;
     pos_startLine := startLine n;
     pos_startCol := startCol n;
     pos_endLine := endLine n;
     pos_endCol := endCol n |}.

(** The accumulators of [search] after the first, the second and the
    third loop. *)
Definition afterExactPass (query : string) (st : CodeIndexer) : SearchAcc :=
  let searchQueryLower := JS.trim (JS.toLowerCase query) in
  fold_left (exactPassStep searchQueryLower (JS.split_ws searchQueryLower))
            (JSMap.values (nodeIndex st))
            {| results := []; addedNodes := JSMap.empty |}.

Definition afterTermPass (query : string) (st : CodeIndexer) : SearchAcc :=
  let searchQueryLower := JS.trim (JS.toLowerCase query) in
  fold_left (termPassStep (JS.split_ws searchQueryLower))
            (JSMap.values (nodeIndex st)) (afterExactPass query st).

(** The query asks for interfaces or types: the third loop runs. *)
Definition asksForTypes (query : string) : bool :=
  let searchQueryLower := JS.trim (JS.toLowerCase query) in
  JS.includes searchQueryLower "interface" || JS.includes searchQueryLower "type".

Definition isTypeDeclaration (n : CodeNode) : bool :=
  bool_decide (type n = "interface_declaration")
  || bool_decide (type n = "type_alias").

(** Every root of FileIndex is the tree that [indexFile] would store for
    its file in the surroundings [env]. *)
Definition storedFrom (env : Env) (st : CodeIndexer) : Prop :=
  ∀ f root,
    JSMap.get f (fileIndex st) = Some root →
    ∃ table parser fileContent tree,
      parsers st = Some table ∧
      table (fileExtension env f) = Some parser ∧
      readFileSync env f = Some fileContent ∧
      parser fileContent = Some tree ∧
      root = convertToCodeNode tree f.

(** *** The digest as text *)

Definition newline : string := String "010"%char "".

(** A string without a line feed. *)
Fixpoint oneLine (s : string) : bool :=
  match s with
  | EmptyString => true
  | String c s' => negb (Ascii.eqb c "010"%char) && oneLine s'
  end.

(** The source line of a capture, as [parseFile] prints it. *)
Definition sourceLine (lines : list string) (c : Digest.Capture) : string :=
  default "" (lines !! N.to_nat (Digest.cap_startRow c)).

(** The text appended for a list of chunks. *)
Definition renderAll (render : Digest.Chunk → string)
    (out : list Digest.Chunk) : string :=
  foldr (λ ch s, render ch +:+ s) "" out.

(** The row of a chunk: its text without the line feed at its end. *)
Definition rowOf (prefix : string) (lines : list string) (ch : Digest.Chunk)
  : string :=
  match ch with
  | Digest.Separator => "|----"
  | Digest.DefinitionLine c => prefix +:+ sourceLine lines c
  end.

(** The rows of a digest that carry a source line: the pieces between its
    line feeds that begin with the line prefix. *)
Definition definitionRows (prefix text : string) : list string :=
  filter (λ row, Is_true (String.prefix prefix row)) (JS.split_lines text).

Definition definitionRowsOf (prefix : string) (digest : option string)
  : list string :=
  match digest with
  | Some text => definitionRows prefix text
  | None => []
  end.

(** *** Declarations behind their first token *)

(** A syntax tree in which every [interface_declaration] and every
    [type_alias] has a child that is no comment and starts where the node
    itself starts, as the keyword token of a declaration does. *)
Fixpoint tokenHeaded (t : TSNode) : bool :=
  (negb (bool_decide (ts_type t = "interface_declaration")
         || bool_decide (ts_type t = "type_alias"))
   || existsb (λ c, negb (bool_decide (ts_type c = "comment"))
                    && (ts_startRow c =? ts_startRow t)%N
                    && (ts_startCol c =? ts_startCol t)%N)
              (ts_children t))
  && forallb tokenHeaded (ts_children t).

(** Every tree that a parser of the table returns has this shape. *)
Definition tokenHeadedParsers (table : string → option Parser) : Prop :=
  ∀ ext parser fileContent tree,
    table ext = Some parser → parser fileContent = Some tree →
    tokenHeaded tree = true.

(** No entry of the index is an interface declaration or a type alias. *)
Definition holdsNoDeclaration (idx : JSMap.t CodeNode) : Prop :=
  ∀ k n, JSMap.get k idx = Some n → isTypeDeclaration n = false.

(** In a list of nodes every declaration has a node with its id behind
    it. *)
Fixpoint followed (l : list CodeNode) : Prop :=
  match l with
  | [] => True
  | d :: l' =>
      (isTypeDeclaration d = true → ∃ c, c ∈ l' ∧ id c = id d) ∧ followed l'
  end.

(** * Properties *)

(** ** The map model *)

Module JSMapFacts.
Import JSMap.

Section Facts.
Context {V : Type}.
Implicit Types (m : t V) (k : string) (v : V).

Lemma get_set_eq k v m : get k (set k v m) = Some v.
Proof.
  induction m as [|[k' v'] m IH]; simpl.
  - by rewrite decide_True.
  - destruct (decide (k = k')) as [->|Hne]; simpl.
    + by rewrite decide_True.
    + by rewrite decide_False.
Qed.

Lemma get_set_ne k k' v m : k ≠ k' → get k' (set k v m) = get k' m.
Proof.
  intros Hne. induction m as [|[k0 v0] m IH]; simpl.
  - by rewrite decide_False.
  - destruct (decide (k = k0)) as [->|Hne0]; simpl.
    + by rewrite !decide_False.
    + by rewrite IH.
Qed.

Lemma get_delete_eq k m : get k (delete k m) = None.
Proof.
  induction m as [|[k' v'] m IH]; simpl; [done|].
  destruct (decide (k = k')); simpl; [done|]. by rewrite decide_False.
Qed.

Lemma get_delete_ne k k' m : k ≠ k' → get k' (delete k m) = get k' m.
Proof.
  intros Hne. induction m as [|[k0 v0] m IH]; simpl; [done|].
  destruct (decide (k = k0)) as [->|Hne0]; simpl.
  - by rewrite decide_False.
  - by rewrite IH.
Qed.

Lemma elem_of_keys k m : k ∈ keys m ↔ is_Some (get k m).
Proof.
  unfold keys. induction m as [|[k' v'] m IH]; simpl.
  - split; [by intros ?%elem_of_nil | by intros [? ?]].
  - rewrite elem_of_cons, IH.
    destruct (decide (k = k')); [split; eauto | tauto].
Qed.

Lemma not_elem_of_keys k m : k ∉ keys m ↔ get k m = None.
Proof. rewrite elem_of_keys, eq_None_not_Some. done. Qed.

Lemma elem_of_keys_set k k' v m :
  k' ∈ keys (set k v m) ↔ k' = k ∨ k' ∈ keys m.
Proof.
  rewrite !elem_of_keys. destruct (decide (k = k')) as [->|Hne].
  - rewrite get_set_eq. split; eauto.
  - rewrite get_set_ne by done. split; [eauto|]. by intros [->|?].
Qed.

Lemma elem_of_keys_delete k k' m :
  k' ∈ keys (delete k m) ↔ k' ≠ k ∧ k' ∈ keys m.
Proof.
  rewrite !elem_of_keys. destruct (decide (k = k')) as [->|Hne].
  - rewrite get_delete_eq. split; [by intros [? ?] | by intros [? _]].
  - rewrite get_delete_ne by done. split; [|tauto].
    intros ?. split; [by intros ->|done].
Qed.

Lemma has_true k m : has k m = true ↔ k ∈ keys m.
Proof.
  unfold has. rewrite elem_of_keys.
  destruct (get k m); (split; [intros ?|intros [? ?]]); by eauto.
Qed.

Lemma elem_of_values_get k v m : get k m = Some v → v ∈ values m.
Proof.
  unfold values. induction m as [|[k' v'] m IH]; simpl; [done|].
  destruct (decide (k = k')).
  - intros [= ->]. apply elem_of_cons. by left.
  - intros H. apply elem_of_cons. right. by apply IH.
Qed.
End Facts.

End JSMapFacts.

(** ** Trees and their ids *)

Lemma elem_of_flat_map {A B} (f : A → list B) (l : list A) (y : B) :
  y ∈ flat_map f l ↔ ∃ x, x ∈ l ∧ y ∈ f x.
Proof.
  rewrite list_elem_of_In, in_flat_map.
  split; intros (x & H1 & H2); exists x; by rewrite ?list_elem_of_In in *.
Qed.

Lemma elem_of_node_ids (n : CodeNode) (i : string) :
  i ∈ node_ids n ↔ i = id n ∨ ∃ c, c ∈ children n ∧ i ∈ node_ids c.
Proof.
  unfold node_ids. destruct n as [i0 ty nm tx sl el sc ec fp cs]; simpl.
  rewrite elem_of_cons, list_elem_of_fmap.
  split.
  - intros [->|(m & -> & Hm)]; [by left|right].
    apply elem_of_flat_map in Hm as (c & Hc & Hm).
    exists c. split; [done|]. apply list_elem_of_fmap. eauto.
  - intros [->|(c & Hc & Hi)]; [by left|right].
    apply list_elem_of_fmap in Hi as (m & -> & Hm).
    exists m. split; [done|]. apply elem_of_flat_map. eauto.
Qed.

Lemma root_in_subnodes (n : CodeNode) : n ∈ subnodes n.
Proof. destruct n; simpl. apply elem_of_cons. by left. Qed.

Lemma child_subnodes (n c m : CodeNode) :
  c ∈ children n → m ∈ subnodes c → m ∈ subnodes n.
Proof.
  intros Hc Hm. destruct n; simpl in *. apply elem_of_cons. right.
  apply elem_of_flat_map. eauto.
Qed.

Section IndexFolds.
Import JSMap JSMapFacts.

Lemma indexNode_unfold n idx :
  indexNode n idx =
  fold_left (λ acc child, indexNode child acc) (children n) (set (id n) n idx).
Proof. by destruct n. Qed.

Lemma removeNodeFromIndex_unfold n idx :
  removeNodeFromIndex n idx =
  fold_left (λ acc child, removeNodeFromIndex child acc) (children n)
            (delete (id n) idx).
Proof. by destruct n. Qed.

(** The keys after [indexNode]: the ids of the tree are added. *)
Lemma elem_of_keys_indexNode n : ∀ idx i,
  i ∈ keys (indexNode n idx) ↔ i ∈ node_ids n ∨ i ∈ keys idx.
Proof.
  induction n as [i0 ty nm tx sl el sc ec fp cs IH] using CodeNode_ind.
  intros idx i. rewrite indexNode_unfold, elem_of_node_ids. simpl.
  set (idx0 := set i0 _ idx).
  assert (Hfold : ∀ acc,
    i ∈ keys (fold_left (λ acc child, indexNode child acc) cs acc) ↔
    (∃ c, c ∈ cs ∧ i ∈ node_ids c) ∨ i ∈ keys acc).
  { induction IH as [|c cs' Hc _ IHcs]; intros acc; simpl.
    - split; [by right|]. intros [(c & Hc & _)|H]; [|done].
      by apply elem_of_nil in Hc.
    - rewrite IHcs, Hc. split.
      + intros [(c' & Hc' & Hi)|[Hi|Hi]]; [left|left|by right].
        * exists c'. split; [|done]. apply elem_of_cons. by right.
        * exists c. split; [|done]. apply elem_of_cons. by left.
      + intros [(c' & Hc' & Hi)|Hi]; [|by right; right].
        apply elem_of_cons in Hc' as [->|Hc']; [by right; left|].
        left. eauto. }
  rewrite Hfold. unfold idx0. rewrite elem_of_keys_set. tauto.
Qed.

(** The keys after [removeNodeFromIndex]: the ids of the tree are gone. *)
Lemma elem_of_keys_removeNodeFromIndex n : ∀ idx i,
  i ∈ keys (removeNodeFromIndex n idx) ↔ (i ∉ node_ids n) ∧ i ∈ keys idx.
Proof.
  induction n as [i0 ty nm tx sl el sc ec fp cs IH] using CodeNode_ind.
  intros idx i. rewrite removeNodeFromIndex_unfold, elem_of_node_ids. simpl.
  set (idx0 := delete i0 idx).
  assert (Hfold : ∀ acc,
    i ∈ keys (fold_left (λ acc child, removeNodeFromIndex child acc) cs acc) ↔
    (¬ ∃ c, c ∈ cs ∧ i ∈ node_ids c) ∧ i ∈ keys acc).
  { induction IH as [|c cs' Hc _ IHcs]; intros acc; simpl.
    - split; [|by intros [_ ?]]. intros H. split; [|done].
      intros (c & Hc & _). by apply elem_of_nil in Hc.
    - rewrite IHcs, Hc. split.
      + intros (Hno & Hni & Hacc). split; [|done].
        intros (c' & Hc' & Hi).
        apply elem_of_cons in Hc' as [->|Hc']; [done|]. apply Hno. eauto.
      + intros (Hno & Hacc). split; [|split; [|done]].
        * intros (c' & Hc' & Hi). apply Hno. exists c'. split; [|done].
          apply elem_of_cons. by right.
        * intros Hi. apply Hno. exists c. split; [|done].
          apply elem_of_cons. by left. }
  rewrite Hfold. unfold idx0. rewrite elem_of_keys_delete. tauto.
Qed.

End IndexFolds.

(** ** Lookups on missing index state *)

Section MissingState.
Import JSMap JSMapFacts.

Lemma getNodeText_absent st nodeId :
  get nodeId (nodeIndex st) = None → getNodeText st nodeId = None.
Proof. unfold getNodeText. by intros ->. Qed.

Lemma getNodePosition_absent st nodeId :
  get nodeId (nodeIndex st) = None → getNodePosition st nodeId = None.
Proof. unfold getNodePosition. by intros ->. Qed.

Lemma getNodeAtPosition_unindexed st f line column :
  get f (fileIndex st) = None → getNodeAtPosition st f line column = None.
Proof. unfold getNodeAtPosition. by intros ->. Qed.

Lemma get_removeNodeFromIndex root idx i :
  i ∈ node_ids root → get i (removeNodeFromIndex root idx) = None.
Proof.
  intros Hi. apply not_elem_of_keys.
  rewrite elem_of_keys_removeNodeFromIndex. tauto.
Qed.

(** C8.  A lookup on index state that is not there returns the null
    result: [getNodeText] and [getNodePosition] give [None] for an id that
    is not a key of NodeIndex, in particular for every id of a tree whose
    nodes were removed from the index, and [getNodeAtPosition] gives
    [None] for a file that is not a key of FileIndex.  The three
    operations are total functions: no input makes them throw. *)
Theorem missing_state_lookups_return_null :
  (∀ st nodeId,
     get nodeId (nodeIndex st) = None →
     getNodeText st nodeId = None ∧ getNodePosition st nodeId = None) ∧
  (∀ st root nodeId,
     nodeId ∈ node_ids root →
     let st' := {| parsers := parsers st;
                   fileIndex := fileIndex st;
                   nodeIndex := removeNodeFromIndex root (nodeIndex st) |} in
     getNodeText st' nodeId = None ∧ getNodePosition st' nodeId = None) ∧
  (∀ st f line column,
     get f (fileIndex st) = None →
     getNodeAtPosition st f line column = None).
Proof.
  split; [|split].
  - intros st nodeId H. split.
    + by apply getNodeText_absent.
    + by apply getNodePosition_absent.
  - intros st root nodeId Hi st'. split.
    + apply getNodeText_absent. simpl. by apply get_removeNodeFromIndex.
    + apply getNodePosition_absent. simpl. by apply get_removeNodeFromIndex.
  - intros st f line column H. by apply getNodeAtPosition_unindexed.
Qed.

Lemma missing_state_lookups_return_null_witness :
  (getNodeText Examples.addIndexed "add.ts:7:7" = None ∧
   getNodePosition Examples.addIndexed "add.ts:7:7" = None) ∧
  (let st' := {| parsers := parsers Examples.addIndexed;
                 fileIndex := fileIndex Examples.addIndexed;
                 nodeIndex := removeNodeFromIndex
                                (convertToCodeNode Examples.addTree "add.ts")
                                (nodeIndex Examples.addIndexed) |} in
   getNodeText st' "add.ts:0:9" = None ∧
   getNodePosition st' "add.ts:0:9" = None) ∧
  getNodeAtPosition Examples.addIndexed "sum.ts" 0 0 = None.
Proof.
  destruct missing_state_lookups_return_null as (Hid & Hgone & Hfile).
  split; [|split].
  - apply (Hid Examples.addIndexed "add.ts:7:7"). reflexivity.
  - apply (Hgone Examples.addIndexed
             (convertToCodeNode Examples.addTree "add.ts") "add.ts:0:9").
    vm_compute. apply list_elem_of_further, list_elem_of_further,
      list_elem_of_here.
  - apply (Hfile Examples.addIndexed "sum.ts" 0 0). reflexivity.
Defined.

End MissingState.

(** ** Position resolution *)

Section PositionResolver.

Lemma findNodeAtPosition_unfold n line column :
  findNodeAtPosition n line column =
  if outsideRange n line column then None
  else match firstChildAt (children n) line column with
       | Some childResult => Some childResult
       | None => Some n
       end.
Proof.
  destruct n as [i ty nm tx sl el sc ec fp cs]; simpl.
  destruct (outsideRange _ _ _); [done|].
  match goal with
  | |- match ?a with _ => _ end = match ?b with _ => _ end =>
      replace a with b; [done|]
  end.
  induction cs as [|c cs IH]; simpl; [done|].
  by destruct (findNodeAtPosition c line column).
Qed.

(** A node is found in a subtree exactly when the root of the subtree
    contains the position. *)
Lemma findNodeAtPosition_None n line column :
  findNodeAtPosition n line column = None ↔ outsideRange n line column = true.
Proof.
  rewrite findNodeAtPosition_unfold.
  destruct (outsideRange n line column); [done|].
  destruct (firstChildAt _ _ _); split; intros; discriminate.
Qed.

Lemma firstChildAt_None cs line column :
  firstChildAt cs line column = None ↔
  Forall (λ c, outsideRange c line column = true) cs.
Proof.
  induction cs as [|c cs IH]; simpl.
  - split; [constructor | done].
  - rewrite Forall_cons, <- IH, <- findNodeAtPosition_None.
    destruct (findNodeAtPosition c line column); split; try done.
    + intros [? _]. discriminate.
    + by intros [_ ?].
Qed.

Lemma firstChildAt_first pre c post line column :
  Forall (λ c, outsideRange c line column = true) pre →
  outsideRange c line column = false →
  firstChildAt (pre ++ c :: post) line column = findNodeAtPosition c line column.
Proof.
  intros Hpre Hc. induction Hpre as [|p pre Hp _ IH]; simpl.
  - destruct (findNodeAtPosition c line column) eqn:E; [done|].
    apply findNodeAtPosition_None in E. congruence.
  - apply findNodeAtPosition_None in Hp. by rewrite Hp.
Qed.

Lemma firstChildAt_Some cs line column r :
  firstChildAt cs line column = Some r →
  ∃ c, c ∈ cs ∧ findNodeAtPosition c line column = Some r.
Proof.
  induction cs as [|c cs IH]; simpl; [done|].
  destruct (findNodeAtPosition c line column) eqn:E.
  - intros [= ->]. exists c. split; [apply list_elem_of_here|done].
  - intros H. destruct (IH H) as (c' & Hc' & H'). exists c'.
    split; [by apply list_elem_of_further|done].
Qed.

(** The node returned contains the position, belongs to the tree and has
    no child that contains the position. *)
Lemma findNodeAtPosition_deepest n : ∀ line column r,
  findNodeAtPosition n line column = Some r →
  r ∈ subnodes n ∧ outsideRange r line column = false ∧
  Forall (λ c, outsideRange c line column = true) (children r).
Proof.
  induction n as [i ty nm tx sl el sc ec fp cs IH] using CodeNode_ind.
  intros line column r. rewrite findNodeAtPosition_unfold.
  set (n := mkCodeNode i ty nm tx sl el sc ec fp cs).
  destruct (outsideRange n line column) eqn:Hout; [done|].
  change (children n) with cs.
  destruct (firstChildAt cs line column) as [r'|] eqn:Hfirst.
  - intros [= ->].
    destruct (firstChildAt_Some cs line column r Hfirst) as (c & Hc & Hfind).
    rewrite Forall_forall in IH.
    destruct (IH c Hc line column r Hfind) as (Hsub & Hin & Hdeep).
    split; [|done]. by apply (child_subnodes n c r).
  - intros [= <-]. split; [apply root_in_subnodes|]. split; [done|].
    by apply firstChildAt_None.
Qed.

(** C3.  [getNodeAtPosition] returns [None] when the file has no root in
    FileIndex or when the position is outside the range of the root, where
    outside means: row before the start row, or on the start row and
    column before the start column, or row after the end row, or on the
    end row and column after the end column.  Otherwise it returns a node
    of the tree that contains the position and none of whose children
    contains it; the descent takes the first child, in order, that
    contains the position and returns the current node only when no child
    contains it.  With a root on rows 0 to 10 and a child on rows 2 to 4
    a position on row 3 resolves to a node under a child of the root, not
    to the root; when this child is the only one and has no children it is
    the node returned. *)
Theorem getNodeAtPosition_deepest :
  (∀ n line column,
     outsideRange n line column = true ↔
     (line < startLine n ∨ (line = startLine n ∧ column < startCol n) ∨
      line > endLine n ∨ (line = endLine n ∧ column > endCol n))) ∧
  (∀ st f line column,
     JSMap.get f (fileIndex st) = None →
     getNodeAtPosition st f line column = None) ∧
  (∀ st f root line column,
     JSMap.get f (fileIndex st) = Some root →
     outsideRange root line column = true →
     getNodeAtPosition st f line column = None) ∧
  (∀ st f root line column,
     JSMap.get f (fileIndex st) = Some root →
     outsideRange root line column = false →
     ∃ r, getNodeAtPosition st f line column = Some r ∧
          r ∈ subnodes root ∧
          outsideRange r line column = false ∧
          Forall (λ c, outsideRange c line column = true) (children r)) ∧
  (∀ n pre c post line column,
     outsideRange n line column = false →
     children n = pre ++ c :: post →
     Forall (λ c, outsideRange c line column = true) pre →
     outsideRange c line column = false →
     findNodeAtPosition n line column = findNodeAtPosition c line column) ∧
  (∀ n line column,
     outsideRange n line column = false →
     Forall (λ c, outsideRange c line column = true) (children n) →
     findNodeAtPosition n line column = Some n) ∧
  (∀ st f root child column,
     JSMap.get f (fileIndex st) = Some root →
     startLine root = 0 → endLine root = 10 →
     child ∈ children root →
     startLine child = 2 → endLine child = 4 →
     ∃ c r, c ∈ children root ∧ r ∈ subnodes c ∧
            getNodeAtPosition st f 3 column = Some r) ∧
  (∀ st f root child column,
     JSMap.get f (fileIndex st) = Some root →
     startLine root = 0 → endLine root = 10 →
     children root = [child] →
     startLine child = 2 → endLine child = 4 → children child = [] →
     getNodeAtPosition st f 3 column = Some child).
Proof.
  split; [|split; [|split; [|split; [|split; [|split; [|split]]]]]].
  - intros n line column. unfold outsideRange.
    rewrite !orb_true_iff, !andb_true_iff.
    rewrite !Z.ltb_lt, !Z.gtb_gt, !Z.eqb_eq. tauto.
  - intros st f line column H. unfold getNodeAtPosition. by rewrite H.
  - intros st f root line column H Hout. unfold getNodeAtPosition.
    rewrite H. by apply findNodeAtPosition_None.
  - intros st f root line column H Hin. unfold getNodeAtPosition. rewrite H.
    destruct (findNodeAtPosition root line column) as [r|] eqn:E.
    + exists r. split; [done|]. by apply findNodeAtPosition_deepest.
    + apply findNodeAtPosition_None in E. congruence.
  - intros n pre c post line column Hin Hcs Hpre Hc.
    rewrite (findNodeAtPosition_unfold n), Hin, Hcs.
    rewrite firstChildAt_first by done.
    destruct (findNodeAtPosition c line column) eqn:E; [done|].
    apply findNodeAtPosition_None in E. congruence.
  - intros n line column Hin Hcs.
    rewrite findNodeAtPosition_unfold, Hin.
    apply firstChildAt_None in Hcs. by rewrite Hcs.
  - intros st f root child column H Hs He Hchild Hcs' Hce.
    unfold getNodeAtPosition. rewrite H.
    assert (Hroot : outsideRange root 3 column = false).
    { unfold outsideRange. rewrite Hs, He. reflexivity. }
    assert (Hin : outsideRange child 3 column = false).
    { unfold outsideRange. rewrite Hcs', Hce. reflexivity. }
    rewrite findNodeAtPosition_unfold, Hroot.
    destruct (firstChildAt (children root) 3 column) as [r|] eqn:Hfirst.
    + destruct (firstChildAt_Some _ _ _ _ Hfirst) as (c & Hc & Hfind).
      exists c, r. split; [done|]. split; [|done].
      by apply (findNodeAtPosition_deepest c 3 column).
    + apply firstChildAt_None in Hfirst. rewrite Forall_forall in Hfirst.
      rewrite (Hfirst child Hchild) in Hin. discriminate.
  - intros st f root child column H Hs He Hcs Hcs' Hce Hcc.
    unfold getNodeAtPosition. rewrite H.
    assert (Hroot : outsideRange root 3 column = false).
    { unfold outsideRange. rewrite Hs, He. reflexivity. }
    assert (Hchild : outsideRange child 3 column = false).
    { unfold outsideRange. rewrite Hcs', Hce. reflexivity. }
    rewrite findNodeAtPosition_unfold, Hroot, Hcs. simpl.
    rewrite (findNodeAtPosition_unfold child), Hchild, Hcc. reflexivity.
Qed.

Lemma getNodeAtPosition_deepest_witness :
  getNodeAtPosition Examples.nestedIndexed "nested.ts" 3 7
    = Some Examples.nestedChild ∧
  getNodeAtPosition Examples.nestedIndexed "nested.ts" 11 0 = None ∧
  getNodeAtPosition Examples.nestedIndexed "other.ts" 3 7 = None ∧
  (∃ r, getNodeAtPosition Examples.nestedIndexed "nested.ts" 6 0 = Some r ∧
        r ∈ subnodes Examples.nestedRoot ∧
        outsideRange r 6 0 = false ∧
        Forall (λ c, outsideRange c 6 0 = true) (children r)) ∧
  findNodeAtPosition Examples.nestedRoot 3 7
    = findNodeAtPosition Examples.nestedChild 3 7 ∧
  findNodeAtPosition Examples.nestedRoot 6 0 = Some Examples.nestedRoot ∧
  (∃ c r, c ∈ children Examples.nestedRoot ∧ r ∈ subnodes c ∧
          getNodeAtPosition Examples.nestedIndexed "nested.ts" 3 7 = Some r).
Proof.
  destruct getNodeAtPosition_deepest
    as (_ & Hnone & Hout & Hin & Hfirst & Hself & Hunder & Hdeep).
  split; [|split; [|split; [|split; [|split; [|split]]]]].
  - apply (Hdeep Examples.nestedIndexed "nested.ts" Examples.nestedRoot
                 Examples.nestedChild 7); reflexivity.
  - apply (Hout Examples.nestedIndexed "nested.ts" Examples.nestedRoot 11 0);
      reflexivity.
  - apply (Hnone Examples.nestedIndexed "other.ts" 3 7); reflexivity.
  - apply (Hin Examples.nestedIndexed "nested.ts" Examples.nestedRoot 6 0);
      reflexivity.
  - apply (Hfirst Examples.nestedRoot [] Examples.nestedChild [] 3 7);
      try reflexivity. constructor.
  - apply (Hself Examples.nestedRoot 6 0); [reflexivity|].
    repeat constructor.
  - apply (Hunder Examples.nestedIndexed "nested.ts" Examples.nestedRoot
                  Examples.nestedChild 7); try reflexivity.
    apply list_elem_of_here.
Defined.

End PositionResolver.

(** ** Relevance score *)

Section Score.

Lemma includes_str_true l s : includes_str l s = true ↔ s ∈ l.
Proof. unfold includes_str. apply bool_decide_eq_true. Qed.

Lemma kindBoost_spec n :
  (type n ∈ definitionTypes → kindBoost n = 2%Q) ∧
  (type n ∉ definitionTypes → kindBoost n = 1%Q).
Proof.
  unfold kindBoost, includes_str. split; intros H.
  - by rewrite bool_decide_eq_true_2.
  - by rewrite bool_decide_eq_false_2.
Qed.

Lemma sizeBoost_spec n :
  (3 ≤ lineCount n ≤ 30 → sizeBoost n = (3 # 2)%Q) ∧
  (¬ 3 ≤ lineCount n ≤ 30 → sizeBoost n = 1%Q).
Proof.
  unfold sizeBoost.
  destruct (Z.leb_spec (lineCount n) 30), (Z.geb_spec (lineCount n) 3);
    simpl; split; intros; try done; lia.
Qed.

Lemma matchesName_true n terms :
  matchesName n terms = true ↔
  ∃ nm term, name n = Some nm ∧ nm ≠ "" ∧ term ∈ terms ∧
             JS.includes (JS.toLowerCase nm) term = true.
Proof.
  unfold matchesName. destruct (name n) as [nm|].
  - rewrite andb_true_iff, existsb_exists. split.
    + intros (Ht & term & Hin & Hinc). exists nm, term.
      split; [done|]. split; [by destruct nm|].
      split; [by apply list_elem_of_In|done].
    + intros (nm' & term & [= <-] & Hne & Hin & Hinc).
      split; [by destruct nm|]. exists term.
      split; [by apply list_elem_of_In|done].
  - split; [done|]. by intros (? & ? & ? & _).
Qed.

Lemma calculateScore_product n terms :
  (calculateScore n terms ==
   inject_Z (Z.of_nat (length terms)) * kindBoost n * sizeBoost n
     * nameBoost n terms)%Q.
Proof.
  unfold calculateScore, kindBoost, sizeBoost, nameBoost.
  destruct (includes_str _ _), ((lineCount n <=? 30) && (lineCount n >=? 3)),
    (matchesName n terms); ring.
Qed.

(** C2.  The score of a node for a list of matched terms is the number of
    terms times 2 when the type of the node is a function declaration, a
    method definition or a class declaration, times 1.5 when the node
    spans 3 to 30 lines, times 3 when the node has a name of which some
    matched term is a substring once lower-cased; each factor is 1
    otherwise and the three multiply.  Hence of two nodes of the same type
    and line count scored for the same terms, the one whose name matches
    scores 3 times the one whose name does not. *)
Theorem calculateScore_boosts :
  (∀ n terms,
     (calculateScore n terms ==
      inject_Z (Z.of_nat (length terms)) * kindBoost n * sizeBoost n
        * nameBoost n terms)%Q) ∧
  (∀ n,
     (type n ∈ definitionTypes → kindBoost n = 2%Q) ∧
     (type n ∉ definitionTypes → kindBoost n = 1%Q) ∧
     (3 ≤ lineCount n ≤ 30 → sizeBoost n = (3 # 2)%Q) ∧
     (¬ 3 ≤ lineCount n ≤ 30 → sizeBoost n = 1%Q)) ∧
  (∀ n terms,
     ((∃ nm term, name n = Some nm ∧ nm ≠ "" ∧ term ∈ terms ∧
                  JS.includes (JS.toLowerCase nm) term = true) →
      nameBoost n terms = 3%Q) ∧
     ((¬ ∃ nm term, name n = Some nm ∧ nm ≠ "" ∧ term ∈ terms ∧
                    JS.includes (JS.toLowerCase nm) term = true) →
      nameBoost n terms = 1%Q)) ∧
  (∀ n1 n2 terms,
     type n1 = type n2 → lineCount n1 = lineCount n2 →
     matchesName n1 terms = true → matchesName n2 terms = false →
     (calculateScore n1 terms == 3 * calculateScore n2 terms)%Q ∧
     (3 * calculateScore n2 terms <= calculateScore n1 terms)%Q).
Proof.
  split; [exact calculateScore_product|]. split; [|split].
  - intros n. destruct (kindBoost_spec n), (sizeBoost_spec n). tauto.
  - intros n terms. unfold nameBoost. rewrite <- matchesName_true.
    destruct (matchesName n terms); (split; [intros H|intros H]); try done.
    all: exfalso; tauto.
  - intros n1 n2 terms Hty Hlines H1 H2.
    assert (Heq : (calculateScore n1 terms == 3 * calculateScore n2 terms)%Q).
    { rewrite !calculateScore_product.
      unfold kindBoost, sizeBoost, nameBoost. rewrite Hty, Hlines, H1, H2.
      ring. }
    split; [done|]. rewrite Heq. apply Qle_refl.
Qed.

Lemma calculateScore_boosts_witness :
  (kindBoost Examples.addFunction = 2%Q ∧
   sizeBoost Examples.nestedChild = (3 # 2)%Q ∧
   sizeBoost Examples.addFunction = 1%Q ∧
   kindBoost Examples.nestedRoot = 1%Q) ∧
  (nameBoost Examples.addFunction ["add"] = 3%Q ∧
   nameBoost Examples.sumFunction ["add"] = 1%Q) ∧
  (calculateScore Examples.addFunction ["add"] ==
   3 * calculateScore Examples.sumFunction ["add"])%Q ∧
  (3 * calculateScore Examples.sumFunction ["add"] <=
   calculateScore Examples.addFunction ["add"])%Q.
Proof.
  destruct calculateScore_boosts as (_ & Hfactors & Hnames & Hname).
  split; [|split].
  - destruct (Hfactors Examples.addFunction) as (Hkind & _ & _ & Hone).
    destruct (Hfactors Examples.nestedChild) as (_ & _ & Hsize & _).
    destruct (Hfactors Examples.nestedRoot) as (_ & Hother & _ & _).
    split; [|split; [|split]].
    + apply Hkind. apply list_elem_of_here.
    + apply Hsize. vm_compute. split; discriminate.
    + apply Hone. vm_compute. intros [H _]. by apply H.
    + apply Hother. vm_compute.
      intros H. repeat (apply elem_of_cons in H as [H|H]; [discriminate|]).
      by apply elem_of_nil in H.
  - destruct (Hnames Examples.addFunction ["add"]) as [Hyes _].
    destruct (Hnames Examples.sumFunction ["add"]) as [_ Hno].
    split.
    + apply Hyes. exists "add", "add".
      split; [reflexivity|]. split; [discriminate|].
      split; [apply list_elem_of_here|reflexivity].
    + apply Hno. intros (nm & term & Hnm & _ & Hterm & Hinc).
      injection Hnm as <-. apply list_elem_of_singleton in Hterm as ->.
      vm_compute in Hinc. discriminate.
  - apply (Hname Examples.addFunction Examples.sumFunction ["add"]);
      reflexivity.
Defined.

End Score.

(** ** The stable sort *)

Section SortFacts.
Context {A : Type} (after : A → A → bool).

Lemma insert_by_perm x l : JS.insert_by after x l ≡ₚ x :: l.
Proof.
  induction l as [|y l IH]; simpl; [done|].
  destruct (after x y); [|done].
  rewrite IH. apply Permutation_swap.
Qed.

Lemma sort_by_perm l : JS.sort_by after l ≡ₚ l.
Proof.
  induction l as [|x l IH]; simpl; [done|].
  unfold JS.sort_by in *. simpl. by rewrite insert_by_perm, IH.
Qed.

(** Elements on which the comparison never says "behind" keep their
    order: this is stability. *)
Lemma insert_by_filter (P : A → Prop) `{∀ x, Decision (P x)} x l :
  (∀ y, P x → P y → after x y = false) →
  filter P (JS.insert_by after x l) = filter P (x :: l).
Proof.
  intros Htie. induction l as [|y l IH]; simpl; [done|].
  destruct (after x y) eqn:E; [|done].
  rewrite (filter_cons _ y), IH, !(filter_cons _ x), (filter_cons _ y).
  destruct (decide (P x)) as [Hx|Hx]; [|done].
  destruct (decide (P y)) as [Hy|Hy]; [|done].
  rewrite (Htie y Hx Hy) in E. discriminate.
Qed.

Lemma sort_by_filter (P : A → Prop) `{∀ x, Decision (P x)} l :
  (∀ x y, P x → P y → after x y = false) →
  filter P (JS.sort_by after l) = filter P l.
Proof.
  intros Htie. induction l as [|x l IH]; [done|].
  unfold JS.sort_by in *. simpl.
  rewrite insert_by_filter by eauto.
  by rewrite !filter_cons, IH.
Qed.

Section Ordered.
Hypothesis after_asym : ∀ x y, after x y = true → after y x = false.
Hypothesis precede_trans : ∀ x y z,
  mayPrecede after x y → mayPrecede after y z → mayPrecede after x z.

Lemma insert_by_sorted x l :
  StronglySorted (mayPrecede after) l →
  StronglySorted (mayPrecede after) (JS.insert_by after x l).
Proof.
  induction 1 as [|y l Hl IH Hy]; simpl.
  - repeat constructor.
  - destruct (after x y) eqn:E.
    + constructor; [done|].
      rewrite insert_by_perm. constructor; [|done].
      by apply after_asym.
    + constructor; [by constructor|].
      constructor; [done|].
      eapply Forall_impl; [exact Hy|].
      intros z Hz. by apply (precede_trans x y z).
Qed.

Lemma sort_by_sorted l : StronglySorted (mayPrecede after) (JS.sort_by after l).
Proof.
  induction l as [|x l IH]; [constructor|].
  unfold JS.sort_by in *. simpl. by apply insert_by_sorted.
Qed.
End Ordered.

End SortFacts.

(** Splitting a list at an element that survives a filter. *)
Lemma filter_eq_app_cons {A} (P : A → Prop) `{∀ x, Decision (P x)}
    (l : list A) : ∀ a x b,
  filter P l = a ++ x :: b →
  ∃ l1 l2, l = l1 ++ x :: l2 ∧ filter P l1 = a ∧ filter P l2 = b.
Proof.
  induction l as [|y l IH]; intros a x b Heq.
  - by destruct a.
  - rewrite filter_cons in Heq. destruct (decide (P y)) as [Hy|Hy].
    + destruct a as [|a0 a]; simpl in Heq.
      * injection Heq as -> Hb. exists [], l. by rewrite filter_nil.
      * injection Heq as -> Ha. destruct (IH _ _ _ Ha) as (l1 & l2 & -> & H1 & H2).
        exists (a0 :: l1), l2. split; [done|]. split; [|done].
        by rewrite filter_cons_True, H1.
    + destruct (IH _ _ _ Heq) as (l1 & l2 & -> & H1 & H2).
      exists (y :: l1), l2. split; [done|]. split; [|done].
      by rewrite filter_cons_False.
Qed.

(** ** Ranking of the results *)

Section Ranking.

Lemma Qpositive_true q : Qpositive q = true ↔ (0 < q)%Q.
Proof.
  unfold Qpositive. rewrite negb_true_iff.
  destruct (Qle_bool q 0) eqn:E.
  - apply Qle_bool_iff in E. split; [done|]. intros Hlt.
    exfalso. by apply (Qlt_not_le _ _ Hlt).
  - split; [|done]. intros _. apply Qnot_le_lt. intros Hle.
    apply Qle_bool_iff in Hle. congruence.
Qed.

Lemma byScoreDescending_false a b :
  byScoreDescending a b = false ↔ (score b <= score a)%Q.
Proof.
  unfold byScoreDescending.
  destruct (Qpositive (score b - score a)) eqn:E.
  - apply Qpositive_true in E. split; [done|]. intros Hle. exfalso.
    apply (Qlt_minus_iff (score a) (score b)) in E.
    by apply (Qlt_not_le _ _ E).
  - apply not_true_iff_false in E. rewrite Qpositive_true in E.
    split; [|done]. intros _. apply Qnot_lt_le. intros Hlt.
    apply E. by apply (Qlt_minus_iff (score a) (score b)).
Qed.

Lemma byScoreDescending_asym a b :
  byScoreDescending a b = true → byScoreDescending b a = false.
Proof.
  intros H. apply byScoreDescending_false.
  destruct (byScoreDescending b a) eqn:E; [|by apply byScoreDescending_false].
  apply not_false_iff_true in H. rewrite byScoreDescending_false in H.
  apply Qnot_le_lt, Qlt_le_weak in H. done.
Qed.

Lemma byScoreDescending_trans a b c :
  mayPrecede byScoreDescending a b → mayPrecede byScoreDescending b c →
  mayPrecede byScoreDescending a c.
Proof.
  unfold mayPrecede. rewrite !byScoreDescending_false.
  intros H1 H2. by apply (Qle_trans _ (score b)).
Qed.

(** What sorting with [byScoreDescending] gives: adjacent results descend
    in score, and adjacent results of equal score stood in this order
    before the sort. *)
Lemma sort_by_score_ranked (candidates : list QueryResult) :
  JS.sort_by byScoreDescending candidates ≡ₚ candidates ∧
  ∀ o1 x y o2,
    JS.sort_by byScoreDescending candidates = o1 ++ x :: y :: o2 →
    (score y <= score x)%Q ∧
    ((score x == score y)%Q →
     ∃ l1 l2 l3, candidates = l1 ++ x :: l2 ++ y :: l3).
Proof.
  split; [apply sort_by_perm|].
  intros o1 x y o2 Hout. split.
  - pose proof (sort_by_sorted byScoreDescending byScoreDescending_asym
                  byScoreDescending_trans candidates) as Hsorted.
    rewrite Hout in Hsorted.
    apply StronglySorted_app_1_r, StronglySorted_cons in Hsorted as [Hx _].
    apply Forall_cons in Hx as [Hxy _]. by apply byScoreDescending_false.
  - intros Htie.
    pose proof (sort_by_filter byScoreDescending
                  (λ r, (score r == score x)%Q) candidates) as Hstable.
    rewrite Hout, filter_app, !filter_cons in Hstable.
    destruct (decide (score x == score x)%Q) as [_|Hn];
      [|by destruct Hn].
    destruct (decide (score y == score x)%Q) as [_|Hn];
      [|by destruct Hn].
    symmetry in Hstable.
    apply filter_eq_app_cons in Hstable
      as (l1 & l2 & -> & _ & H2).
    + apply (filter_eq_app_cons _ _ []) in H2 as (l2a & l2b & -> & _ & _).
      by exists l1, l2a, l2b.
    + intros a b Ha Hb. apply byScoreDescending_false.
      rewrite Ha, Hb. apply Qle_refl.
Qed.

(** C9.  The results of [search] are the candidates of the three passes,
    rearranged so that the score never increases from one result to the
    next; two adjacent results of equal score were pushed in that order
    during the scan of the candidates. *)
Theorem search_sorted_descending_stable (query : string) (st : CodeIndexer) :
  search query st ≡ₚ searchCandidates query st ∧
  ∀ o1 x y o2,
    search query st = o1 ++ x :: y :: o2 →
    (score y <= score x)%Q ∧
    ((score x == score y)%Q →
     ∃ l1 l2 l3, searchCandidates query st = l1 ++ x :: l2 ++ y :: l3).
Proof. apply sort_by_score_ranked. Qed.

Lemma search_sorted_descending_stable_witness :
  let out := search "const" Examples.pairIndexed in
  ∃ x y,
    out = [] ++ x :: y :: [] ∧
    (score y <= score x)%Q ∧ (score x == score y)%Q ∧
    ∃ l1 l2 l3,
      searchCandidates "const" Examples.pairIndexed = l1 ++ x :: l2 ++ y :: l3.
Proof.
  intros out.
  assert (Hout : ∃ x y, out = [] ++ x :: y :: [] ∧ (score x == score y)%Q).
  { eexists _, _. split; [vm_compute; reflexivity|reflexivity]. }
  destruct Hout as (x & y & Hout & Htie). exists x, y.
  destruct (proj2 (search_sorted_descending_stable "const" Examples.pairIndexed)
              [] x y [] Hout) as [Hle Hstable].
  split; [exact Hout|]. split; [exact Hle|]. split; [exact Htie|].
  exact (Hstable Htie).
Defined.

End Ranking.

(** ** Minimum length of a search result *)

Section MinimumLength.

Lemma SinglePass_searchStep_long queryTerms results n :
  Forall (λ r, (10 ≤ String.length (text (node r)))%nat) results →
  Forall (λ r, (10 ≤ String.length (text (node r)))%nat)
         (SinglePass.searchStep queryTerms results n).
Proof.
  intros Hres. unfold SinglePass.searchStep.
  destruct (Nat.ltb_spec (String.length (text n)) 10) as [Hshort|Hlong]; [done|].
  destruct (0 <? length _)%nat; [|done].
  destruct (Qpositive _); [|done].
  apply Forall_app. split; [done|]. by repeat constructor.
Qed.

Lemma SinglePass_candidates_long query st :
  Forall (λ r, (10 ≤ String.length (text (node r)))%nat)
         (SinglePass.searchCandidates query st).
Proof.
  unfold SinglePass.searchCandidates.
  generalize (JS.split_ws (JS.toLowerCase query)) as terms.
  intros terms.
  assert (H : ∀ nodes results,
    Forall (λ r, (10 ≤ String.length (text (node r)))%nat) results →
    Forall (λ r, (10 ≤ String.length (text (node r)))%nat)
           (fold_left (SinglePass.searchStep terms) nodes results)).
  { induction nodes as [|n nodes IH]; intros results Hres; simpl; [done|].
    apply IH. by apply SinglePass_searchStep_long. }
  apply H. constructor.
Qed.

(** C5, as the code has it.  The single-pass [search] of the earlier
    variants of the indexer returns no node whose text has fewer than ten
    characters, whatever the query.  The three-pass [search] of
    [codeIndexer.ts] has no such threshold: for the query [add] it returns
    the identifier [add] itself. *)
Theorem single_pass_search_rejects_short_nodes :
  (∀ query st r,
     r ∈ SinglePass.search query st →
     (10 ≤ String.length (text (node r)))%nat) ∧
  (∃ r, r ∈ search "add" Examples.addIndexed ∧ text (node r) = "add").
Proof.
  split.
  - intros query st r. unfold SinglePass.search. rewrite sort_by_perm.
    intros Hr. pose proof (SinglePass_candidates_long query st) as Hall.
    rewrite Forall_forall in Hall. by apply Hall.
  - exists (mkQueryResult
              (convertToCodeNode (Examples.leaf "identifier" "add" 0 9 12) "add.ts")
              2 ["add"]).
    split; [|reflexivity].
    vm_compute. apply list_elem_of_further, list_elem_of_here.
Qed.

Lemma single_pass_search_rejects_short_nodes_witness :
  (10 ≤ String.length
          (text (node (mkQueryResult
                         (convertToCodeNode Examples.addDeclaration "add.ts")
                         6 ["add"]))))%nat.
Proof.
  apply (proj1 single_pass_search_rejects_short_nodes
           "add" Examples.addIndexed).
  vm_compute. apply list_elem_of_here.
Defined.

(** The three-pass [search] returns the identifier [add], of three
    characters, for the query [add]. *)
Lemma three_pass_search_returns_short_node :
  ¬ rejects_short_nodes search.
Proof.
  intros Hclaim.
  assert (Hin : mkQueryResult
                  (convertToCodeNode (Examples.leaf "identifier" "add" 0 9 12) "add.ts")
                  2 ["add"]
                ∈ search "add" Examples.addIndexed).
  { vm_compute. apply list_elem_of_further, list_elem_of_here. }
  apply Hclaim in Hin. vm_compute in Hin. lia.
Qed.

End MinimumLength.

(** ** Terms of an empty query *)

Section EmptyQuery.

(** The empty term occurs in every string. *)
Lemma includes_empty s : JS.includes s "" = true.
Proof. by destruct s. Qed.

(** The trimmed query is empty or has no white space at either end. *)
Lemma trimStart_clean s :
  JS.trimStart s = "" ∨ startsClean (JS.trimStart s) = true.
Proof.
  induction s as [|c s IH]; simpl; [by left|].
  destruct (JS.is_ws c) eqn:E; [done|]. right. simpl. by rewrite E.
Qed.

Lemma trimEnd_endsClean s : endsClean (JS.trimEnd s) = true.
Proof.
  induction s as [|c s IH]; simpl; [done|].
  destruct (JS.trimEnd s) as [|c' r] eqn:E.
  - destruct (JS.is_ws c) eqn:Ec; simpl; [done|by rewrite Ec].
  - exact IH.
Qed.

Lemma trimEnd_startsClean s :
  startsClean s = true → startsClean (JS.trimEnd s) = true.
Proof.
  destruct s as [|c s]; simpl; [done|]. intros Hc.
  destruct (JS.trimEnd s); [|done].
  destruct (JS.is_ws c) eqn:E; [done|]. simpl. by rewrite E.
Qed.

Lemma trim_clean s :
  JS.trim s = "" ∨
  (startsClean (JS.trim s) = true ∧ endsClean (JS.trim s) = true).
Proof.
  unfold JS.trim. destruct (trimStart_clean s) as [->|Hs]; [by left|].
  right. split; [by apply trimEnd_startsClean|apply trimEnd_endsClean].
Qed.

(** The pieces of a split are non-empty when the piece being read is
    non-empty or a separator or a character of a piece comes next, and the
    string does not end in white space. *)
Lemma split_ws_go_nonempty s : ∀ cur insep,
  endsClean s = true →
  match s with
  | EmptyString => cur ≠ ""
  | String c _ => cur ≠ "" ∨ insep = true ∨ JS.is_ws c = false
  end →
  Forall (λ term, term ≠ "") (JS.split_ws_go cur insep s).
Proof.
  induction s as [|c s IH]; intros cur insep Hend Hstart; simpl.
  - by repeat constructor.
  - assert (Hrest : JS.is_ws c = true →
                    endsClean s = true ∧
                    ∀ cur', match s with
                            | EmptyString => cur' ≠ ""
                            | String c' _ =>
                                cur' ≠ "" ∨ true = true ∨ JS.is_ws c' = false
                            end).
    { intros Hc. destruct s as [|c' s']; simpl in Hend.
      - rewrite Hc in Hend. discriminate.
      - split; [done|]. intros ?. right. by left. }
    destruct (JS.is_ws c) eqn:Hc.
    + destruct (Hrest eq_refl) as [Hend' Hstart'].
      destruct insep.
      * apply IH; [done|apply Hstart'].
      * constructor; [|apply IH; [done|apply Hstart']].
        destruct Hstart as [?|[?|?]]; done.
    + apply IH.
      * destruct s; [done|exact Hend].
      * assert (cur +:+ String c "" ≠ "") by (by destruct cur).
        destruct s; [done|by left].
Qed.

(** A query with a character that is no white space has no empty term; a
    blank query has the empty term as its only term. *)
Lemma queryTermsOf_nonblank query :
  JS.trim (JS.toLowerCase query) ≠ "" →
  Forall (λ term, term ≠ "") (queryTermsOf query).
Proof.
  intros Hne. unfold queryTermsOf, JS.split_ws.
  destruct (trim_clean (JS.toLowerCase query)) as [?|[Hs He]]; [done|].
  apply split_ws_go_nonempty; [done|].
  destruct (JS.trim (JS.toLowerCase query)) as [|c r]; [done|].
  right. right. simpl in Hs. by apply negb_true_iff in Hs.
Qed.

Lemma queryTermsOf_blank query :
  JS.trim (JS.toLowerCase query) = "" → queryTermsOf query = [""].
Proof. unfold queryTermsOf. by intros ->. Qed.

(** C6, at the failing input.  The empty query and a query of white space
    give the one-element term list that holds the empty string, not the
    empty list; the empty term occurs in the text of every node, and
    [search] returns every node of the index. *)
Theorem search_empty_query_matches_every_node :
  queryTermsOf "" = [""] ∧
  queryTermsOf "   " = [""] ∧
  (∀ n, JS.includes (JS.toLowerCase (text n)) "" = true) ∧
  resultIds (search "" Examples.addIndexed)
    = JSMap.keys (nodeIndex Examples.addIndexed) ∧
  resultIds (search "   " Examples.addIndexed)
    = ["add.ts:0:0"; "add.ts:0:9"; "add.ts:0:12"; "add.ts:0:19"].
Proof.
  split; [by vm_compute|]. split; [by vm_compute|].
  split; [intros n; apply includes_empty|].
  split; by vm_compute.
Qed.

End EmptyQuery.

(** ** Failures during indexing *)

Section IndexingFailures.
Import JSMap JSMapFacts.

(** A call of [indexFile] that throws has not touched the indexer. *)
Lemma indexFile_thrown env f st e st' :
  indexFile env f st = (Thrown e, st') → st' = st.
Proof.
  unfold indexFile, bind, getState, putState, throw, ret. simpl.
  destruct (parsers st) as [table|]; [|by intros [= _ <-]].
  destruct (table _) as [parser|]; [|done].
  destruct (readFileSync env f) as [fileContent|]; [|by intros [= _ <-]].
  destruct (parser fileContent); [done|by intros [= _ <-]].
Qed.

Lemma indexFile_parse_failure env f st table parser fileContent :
  parsers st = Some table →
  table (fileExtension env f) = Some parser →
  readFileSync env f = Some fileContent →
  parser fileContent = None →
  indexFile env f st = (Thrown "parse failed", st).
Proof.
  intros Hp Ht Hr Hparse.
  unfold indexFile, bind, getState, throw. simpl.
  by rewrite Hp, Ht, Hr, Hparse.
Qed.

(** A file without a parser is skipped: the call returns and changes
    nothing. *)
Lemma indexFile_no_parser env f st table :
  parsers st = Some table →
  table (fileExtension env f) = None →
  indexFile env f st = (Returned tt, st).
Proof.
  intros Hp Ht. unfold indexFile, bind, getState, ret. simpl.
  by rewrite Hp, Ht.
Qed.

Lemma indexFile_success env f st table parser fileContent tree :
  parsers st = Some table →
  table (fileExtension env f) = Some parser →
  readFileSync env f = Some fileContent →
  parser fileContent = Some tree →
  indexFile env f st =
  (Returned tt,
   {| parsers := parsers st;
      fileIndex := set f (convertToCodeNode tree f) (fileIndex st);
      nodeIndex := indexNode (convertToCodeNode tree f) (nodeIndex st) |}).
Proof.
  intros Hp Ht Hr Hparse.
  unfold indexFile, bind, getState, putState. simpl.
  by rewrite Hp, Ht, Hr, Hparse.
Qed.

(** [indexFile] leaves the parsers and the roots of the other files as they
    are. *)
Lemma indexFile_frame env f st :
  parsers (indexFile env f st).2 = parsers st ∧
  ∀ g, g ≠ f →
    get g (fileIndex (indexFile env f st).2) = get g (fileIndex st).
Proof.
  unfold indexFile, bind, getState, putState, throw, ret. simpl.
  destruct (parsers st) as [table|] eqn:Hp; [|done].
  destruct (table _) as [parser|]; [|done].
  destruct (readFileSync env f) as [fileContent|]; [|done].
  destruct (parser fileContent); [|done].
  simpl. split; [done|]. intros g Hg. by apply get_set_ne.
Qed.

Lemma indexAll_cons env f rest st :
  indexAll env (f :: rest) st =
  match indexFile env f st with
  | (Returned _, st') => indexAll env rest st'
  | (Thrown e, st') => (Thrown e, st')
  end.
Proof. reflexivity. Qed.

Lemma indexAll_app env pre post st :
  indexAll env (pre ++ post) st =
  match indexAll env pre st with
  | (Returned _, st') => indexAll env post st'
  | (Thrown e, st') => (Thrown e, st')
  end.
Proof.
  revert st. induction pre as [|f pre IH]; intros st; [done|].
  rewrite <- app_comm_cons, !indexAll_cons.
  destruct (indexFile env f st) as [[[]|e] st']; [apply IH|done].
Qed.

Lemma indexAll_frame env files : ∀ st,
  parsers (indexAll env files st).2 = parsers st ∧
  ∀ g, g ∉ files →
    get g (fileIndex (indexAll env files st).2) = get g (fileIndex st).
Proof.
  induction files as [|f files IH]; intros st; [done|].
  rewrite indexAll_cons.
  destruct (indexFile_frame env f st) as [Hp Hother].
  destruct (indexFile env f st) as [[[]|e] st'] eqn:E; simpl in *.
  - destruct (IH st') as [Hp' Hother']. split; [congruence|].
    intros g Hg. apply not_elem_of_cons in Hg as [Hne Hg].
    rewrite Hother' by done. by apply Hother.
  - split; [done|]. intros g Hg. apply not_elem_of_cons in Hg as [Hne Hg].
    by apply Hother.
Qed.

(** C4, as the code has it.  When the parser throws on a file of a bulk
    run, [initialize] throws the error again and the run ends there: the
    indexer is left as it was after the files in front of the failing one,
    so the failing file has left no partial entry, and the files behind it
    are not indexed either; the roots of all files that are not in front
    of the failing one are as they were before the run.  A file without a
    parser for its extension, by contrast, is passed over and the run goes
    on with the next file. *)
Theorem initialize_stops_at_parse_failure
    env folders table pre f post parser fileContent st st1 :
  getAllFiles env folders = pre ++ f :: post →
  loadRequiredLanguageParsers env (pre ++ f :: post) = Some table →
  indexAll env pre (withParsers table st) = (Returned tt, st1) →
  table (fileExtension env f) = Some parser →
  readFileSync env f = Some fileContent →
  parser fileContent = None →
  initialize env folders st = (Thrown "parse failed", st1) ∧
  (∀ g, g ∉ pre → get g (fileIndex st1) = get g (fileIndex st)) ∧
  (∀ g rest st',
     parsers st' = Some table → table (fileExtension env g) = None →
     indexAll env (g :: rest) st' = indexAll env rest st').
Proof.
  intros Hfiles Hload Hpre Htable Hread Hparse.
  pose proof (indexAll_frame env pre (withParsers table st)) as [Hp Hother].
  rewrite Hpre in Hp, Hother. simpl in Hp, Hother.
  split; [|split; [exact Hother|]]; cycle 1.
  { intros g rest st' Hp' Hnone.
    by rewrite indexAll_cons, (indexFile_no_parser env g st' table). }
  unfold initialize. rewrite Hfiles, Hload.
  unfold bind, getState, putState. simpl.
  rewrite indexAll_app, Hpre, indexAll_cons.
  by rewrite (indexFile_parse_failure env f st1 table parser fileContent).
Qed.

Lemma initialize_stops_at_parse_failure_witness :
  let env := Examples.envWith [("add.ts", Examples.addSource);
                               ("broken.ts", "function add(");
                               ("bar.ts", Examples.barSource)] in
  initialize env [] newCodeIndexer = (Thrown "parse failed", Examples.addIndexed) ∧
  (∀ g, g ∉ ["add.ts"] →
        get g (fileIndex Examples.addIndexed) = get g (fileIndex newCodeIndexer)) ∧
  indexAll env ["notes.md"; "bar.ts"] Examples.ready
    = indexAll env ["bar.ts"] Examples.ready.
Proof.
  intros env.
  destruct (initialize_stops_at_parse_failure env [] Examples.tsOnly
              ["add.ts"] "broken.ts" ["bar.ts"] Examples.tsParser
              "function add(" newCodeIndexer Examples.addIndexed)
    as (Hthrown & Hrest & Hskip); try reflexivity.
  split; [exact Hthrown|]. split; [exact Hrest|].
  apply Hskip; reflexivity.
Defined.

(** The run over a rejected file and an accepted one ends with an error and
    with the accepted file not indexed. *)
Lemma initialize_aborts_on_parse_failure :
  ¬ parse_failure_is_local.
Proof.
  intros Hclaim.
  destruct (Hclaim Examples.brokenThenAdd [] Examples.tsOnly newCodeIndexer "add.ts")
    as [root Hroot].
  - reflexivity.
  - apply list_elem_of_further, list_elem_of_here.
  - exists Examples.tsParser, Examples.addSource, Examples.addTree.
    by repeat split.
  - vm_compute in Hroot. discriminate.
Qed.

End IndexingFailures.

(** ** Definition digest *)

Section DigestFacts.
Import Digest.




(** The loop appends [chunksFrom] to what it has. *)
Lemma fold_digestStep lines cs : ∀ out lastLine,
  (fold_left (digestStep lines) cs (out, lastLine)).1
  = out ++ chunksFrom lines lastLine cs.
Proof.
  induction cs as [|c cs IH]; intros out lastLine; simpl.
  - by rewrite app_nil_r.
  - change (negb (lastLine =? -1) && (Z.of_N (cap_startRow c) >? lastLine + 1))
      with (gapBefore lastLine c).
    destruct (isNameCapture c); simpl; [|apply IH].
    destruct (gapBefore lastLine c), (lineShown lines c);
      rewrite IH; simpl; by rewrite <- ?app_assoc.
Qed.

Lemma digestChunks_chunksFrom captures lines :
  digestChunks captures lines
  = chunksFrom lines (-1) (JS.sort_by byStartRow captures).
Proof. unfold digestChunks. by rewrite fold_digestStep. Qed.








End DigestFacts.

(** ** Consistency of the two indexes *)

Section Consistency.
Import JSMap JSMapFacts.

(** After [add.ts] was indexed the keys of NodeIndex are the ids reachable
    from FileIndex. *)
Lemma addIndexed_consistent : index_consistent Examples.addIndexed.
Proof.
  unfold index_consistent.
  assert (Hk : keys (nodeIndex Examples.addIndexed)
               = ["add.ts:0:0"; "add.ts:0:9"; "add.ts:0:12"; "add.ts:0:19"])
    by (by vm_compute).
  assert (Hr : reachableIds Examples.addIndexed
               = ["add.ts:0:0"; "add.ts:0:0"; "add.ts:0:9"; "add.ts:0:12";
                  "add.ts:0:19"])
    by (by vm_compute).
  intros i. rewrite Hk, Hr, !elem_of_cons. tauto.
Qed.

(** C1, at the failing input.  [add.ts] is indexed and then updated while
    its content is rejected by the parser, or while the file cannot be
    read, or after the parsers were loaded again without one for its
    extension.  In each case [updateFile] has removed the ids of the old
    tree from NodeIndex before [indexFile] gives up, and FileIndex still
    holds the old root: the ids reachable from FileIndex are no keys of
    NodeIndex. *)
Theorem updateFile_failure_breaks_consistency :
  index_consistent Examples.addIndexed ∧
  (let r := updateFile Examples.addBroken "add.ts" Examples.addIndexed in
   r.1 = Thrown "parse failed" ∧
   keys (nodeIndex r.2) = [] ∧
   get "add.ts" (fileIndex r.2) = get "add.ts" (fileIndex Examples.addIndexed) ∧
   "add.ts:0:0" ∈ reachableIds r.2 ∧
   ¬ index_consistent r.2) ∧
  (let r := updateFile Examples.addDeleted "add.ts" Examples.addIndexed in
   r.1 = Thrown "read failed" ∧
   keys (nodeIndex r.2) = [] ∧
   "add.ts:0:0" ∈ reachableIds r.2 ∧
   ¬ index_consistent r.2) ∧
  (let reloaded := (initialize Examples.noParsers [] Examples.addIndexed).2 in
   let r := updateFile Examples.noParsers "add.ts" reloaded in
   index_consistent reloaded ∧
   r.1 = Returned tt ∧
   keys (nodeIndex r.2) = [] ∧
   "add.ts:0:0" ∈ reachableIds r.2 ∧
   ¬ index_consistent r.2).
Proof.
  assert (Hbreak : ∀ st,
    keys (nodeIndex st) = [] → "add.ts:0:0" ∈ reachableIds st →
    ¬ index_consistent st).
  { intros st Hk Hr Hc. apply Hc in Hr. rewrite Hk in Hr.
    by apply elem_of_nil in Hr. }
  split; [exact addIndexed_consistent|]. split; [|split].
  - simpl.
    assert (Hk : keys (nodeIndex
              (updateFile Examples.addBroken "add.ts" Examples.addIndexed).2) = [])
      by (by vm_compute).
    assert (Hr : "add.ts:0:0" ∈ reachableIds
              (updateFile Examples.addBroken "add.ts" Examples.addIndexed).2)
      by (vm_compute; apply list_elem_of_here).
    split; [by vm_compute|]. split; [done|]. split; [by vm_compute|].
    split; [done|]. by apply Hbreak.
  - simpl.
    assert (Hk : keys (nodeIndex
              (updateFile Examples.addDeleted "add.ts" Examples.addIndexed).2) = [])
      by (by vm_compute).
    assert (Hr : "add.ts:0:0" ∈ reachableIds
              (updateFile Examples.addDeleted "add.ts" Examples.addIndexed).2)
      by (vm_compute; apply list_elem_of_here).
    split; [by vm_compute|]. split; [done|]. split; [done|]. by apply Hbreak.
  - simpl.
    set (reloaded := (initialize Examples.noParsers [] Examples.addIndexed).2).
    assert (Hk : keys (nodeIndex
              (updateFile Examples.noParsers "add.ts" reloaded).2) = [])
      by (by vm_compute).
    assert (Hr : "add.ts:0:0" ∈ reachableIds
              (updateFile Examples.noParsers "add.ts" reloaded).2)
      by (vm_compute; apply list_elem_of_here).
    split.
    { intros i. change (nodeIndex reloaded) with (nodeIndex Examples.addIndexed).
      change (reachableIds reloaded) with (reachableIds Examples.addIndexed).
      apply addIndexed_consistent. }
    split; [by vm_compute|]. split; [done|]. split; [done|]. by apply Hbreak.
Qed.

(** *** Ids tell their file *)

Lemma colons_app s1 s2 : colons (s1 +:+ s2) = (colons s1 + colons s2)%nat.
Proof. induction s1 as [|c s1 IH]; simpl; [done|]. rewrite IH. lia. Qed.

Lemma colons_string_of_uint u : colons (NilEmpty.string_of_uint u) = 0%nat.
Proof. induction u; simpl; done. Qed.

Lemma colons_num_to_string n : colons (JS.num_to_string n) = 0%nat.
Proof.
  unfold JS.num_to_string, NilZero.string_of_uint.
  destruct (N.to_uint n); try apply colons_string_of_uint. done.
Qed.

Lemma makeId_tail f row col : makeId f row col = f +:+ idTail row col.
Proof. reflexivity. Qed.

Lemma colons_idTail row col : colons (idTail row col) = 2%nat.
Proof.
  unfold idTail. rewrite !colons_app, !colons_num_to_string. reflexivity.
Qed.

Lemma idTail_head row col : ∃ t, idTail row col = String ":"%char t.
Proof. unfold idTail. simpl. eauto. Qed.

Lemma path_of_id f : ∀ g t1 t2,
  colons t1 = 2%nat → colons t2 = 2%nat →
  (∃ t, t1 = String ":"%char t) → (∃ t, t2 = String ":"%char t) →
  f +:+ t1 = g +:+ t2 → f = g.
Proof.
  induction f as [|c f IH]; intros g t1 t2 H1 H2 [t1' Ht1] [t2' Ht2] Heq.
  - destruct g as [|c g]; [done|]. exfalso.
    change (t1 = String c (g +:+ t2)) in Heq. rewrite Heq in H1, Ht1.
    injection Ht1 as -> _.
    simpl in H1. rewrite colons_app in H1. lia.
  - destruct g as [|c' g].
    + exfalso. change (String c (f +:+ t1) = t2) in Heq.
      rewrite <- Heq in H2, Ht2. injection Ht2 as -> _.
      simpl in H2. rewrite colons_app in H2. lia.
    + change (String c (f +:+ t1) = String c' (g +:+ t2)) in Heq.
      injection Heq as -> Heq. f_equal.
      apply (IH g t1 t2); eauto.
Qed.

Lemma makeId_file_inj f g row col row' col' :
  makeId f row col = makeId g row' col' → f = g.
Proof.
  rewrite !makeId_tail.
  apply path_of_id; auto using colons_idTail, idTail_head.
Qed.

Lemma convertToCodeNode_unfold t f :
  convertToCodeNode t f =
  {| id := makeId f (ts_startRow t) (ts_startCol t);
     type := ts_type t;
     name := extractName t;
     text := ts_text t;
     startLine := Z.of_N (ts_startRow t);
     endLine := Z.of_N (ts_endRow t);
     startCol := Z.of_N (ts_startCol t);
     endCol := Z.of_N (ts_endCol t);
     filePath := f;
     children :=
       (λ c, convertToCodeNode c f) <$>
       filter (λ c, ts_type c ≠ "comment") (ts_children t) |}.
Proof.
  destruct t as [ty tx sr sc er ec nf cs]; simpl. f_equal.
  induction cs as [|c cs IH]; [done|].
  rewrite filter_cons. destruct (decide (ts_type c ≠ "comment")) as [Hne|Heq].
  - rewrite bool_decide_eq_false_2 by done. simpl. by rewrite IH.
  - rewrite bool_decide_eq_true_2 by (by destruct (decide (ts_type c = "comment"))).
    exact IH.
Qed.

(** Every id of a materialized tree is an id of its file. *)
Lemma node_ids_convertToCodeNode t f : ∀ i,
  i ∈ node_ids (convertToCodeNode t f) → ∃ row col, i = makeId f row col.
Proof.
  induction t as [ty tx sr sc er ec nf cs IH] using TSNode_ind.
  intros i. rewrite convertToCodeNode_unfold, elem_of_node_ids. simpl.
  intros [->|(c & Hc & Hi)]; [eauto|].
  apply list_elem_of_fmap in Hc as (t & -> & Ht).
  apply list_elem_of_filter in Ht as [_ Ht].
  rewrite Forall_forall in IH. by apply (IH t).
Qed.

(** *** Roots by key *)

Lemma keys_set_NoDup {V} k (v : V) m : NoDup (keys m) → NoDup (keys (set k v m)).
Proof.
  unfold keys. induction m as [|[k' v'] m IH]; simpl; intros Hnd.
  - constructor; [by intros ?%elem_of_nil|constructor].
  - apply NoDup_cons in Hnd as [Hk' Hnd].
    destruct (decide (k = k')) as [->|Hne]; simpl.
    + by constructor.
    + constructor; [|by apply IH].
      change (k' ∉ keys (set k v m)). rewrite elem_of_keys_set.
      intros [->|?]; done.
Qed.

Lemma elem_of_values {V} (m : t V) v :
  NoDup (keys m) → v ∈ values m ↔ ∃ k, get k m = Some v.
Proof.
  unfold keys, values. induction m as [|[k' v'] m IH]; simpl; intros Hnd.
  - split; [by intros ?%elem_of_nil|by intros [? ?]].
  - apply NoDup_cons in Hnd as [Hk' Hnd]. rewrite elem_of_cons, IH by done.
    split.
    + intros [->|[k Hk]].
      * exists k'. by rewrite decide_True.
      * exists k. rewrite decide_False; [done|]. intros ->.
        apply Hk'. change (k' ∈ keys m). apply elem_of_keys. eauto.
    + intros [k Hk]. destruct (decide (k = k')); [left; congruence|eauto].
Qed.

Lemma elem_of_reachableIds st i :
  NoDup (keys (fileIndex st)) →
  i ∈ reachableIds st ↔
  ∃ f root, get f (fileIndex st) = Some root ∧ i ∈ node_ids root.
Proof.
  intros Hnd. unfold reachableIds. rewrite elem_of_flat_map. split.
  - intros (root & Hroot & Hi). apply elem_of_values in Hroot as [f Hf]; eauto.
  - intros (f & root & Hf & Hi). exists root. split; [|done].
    apply elem_of_values; eauto.
Qed.

(** *** The two steps of a re-index *)

Lemma consistent_except_fresh f st :
  indexes_wf st → get f (fileIndex st) = None → consistent_except f st.
Proof.
  intros (Hnd & _ & Hcons) Hfresh i.
  rewrite (Hcons i), elem_of_reachableIds by done. split.
  - intros (g & root & Hg & Hi). exists g, root. split; [|done]. congruence.
  - intros (g & root & _ & Hg & Hi). eauto.
Qed.

Lemma consistent_except_evicted f st oldRootNode :
  indexes_wf st → get f (fileIndex st) = Some oldRootNode →
  consistent_except f
    {| parsers := parsers st;
       fileIndex := fileIndex st;
       nodeIndex := removeNodeFromIndex oldRootNode (nodeIndex st) |}.
Proof.
  intros (Hnd & Hown & Hcons) Hold i. simpl.
  rewrite elem_of_keys_removeNodeFromIndex, (Hcons i), elem_of_reachableIds
    by done.
  split.
  - intros (Hnot & g & root & Hg & Hi). exists g, root.
    split; [|done]. intros ->. congruence.
  - intros (g & root & Hne & Hg & Hi). split; [|eauto].
    intros Hin.
    destruct (Hown _ _ _ Hg Hi) as (r1 & c1 & ->).
    destruct (Hown _ _ _ Hold Hin) as (r2 & c2 & Heq).
    by apply makeId_file_inj in Heq.
Qed.

Lemma indexes_wf_indexed f st tree :
  NoDup (keys (fileIndex st)) → rootsOwnIds st → consistent_except f st →
  indexes_wf
    {| parsers := parsers st;
       fileIndex := set f (convertToCodeNode tree f) (fileIndex st);
       nodeIndex := indexNode (convertToCodeNode tree f) (nodeIndex st) |}.
Proof.
  intros Hnd Hown Hexc.
  assert (Hnd' : NoDup (keys (set f (convertToCodeNode tree f) (fileIndex st))))
    by (by apply keys_set_NoDup).
  split; [done|]. split.
  - intros g root i. simpl. destruct (decide (f = g)) as [<-|Hne].
    + rewrite get_set_eq. intros [= <-]. apply node_ids_convertToCodeNode.
    + rewrite get_set_ne by done. apply Hown.
  - intros i. rewrite elem_of_reachableIds by done. simpl.
    rewrite elem_of_keys_indexNode, (Hexc i). split.
    + intros [Hi|(g & root & Hne & Hg & Hi)].
      * exists f, (convertToCodeNode tree f). by rewrite get_set_eq.
      * exists g, root. by rewrite get_set_ne.
    + intros (g & root & Hg & Hi). destruct (decide (f = g)) as [<-|Hne].
      * rewrite get_set_eq in Hg. injection Hg as <-. by left.
      * rewrite get_set_ne in Hg by done. right. eauto.
Qed.

(** Whatever way [indexFile] ends, when the keys of NodeIndex are the ids
    of the other files before the call, the indexes are consistent after
    it — provided that the file has no root when the call stores none. *)
Lemma indexFile_keeps env f st :
  NoDup (keys (fileIndex st)) → rootsOwnIds st → consistent_except f st →
  (get f (fileIndex st) = None ∨
   ∃ table, parsers st = Some table ∧ parses env table f) →
  indexes_wf (indexFile env f st).2.
Proof.
  intros Hnd Hown Hexc Hsafe.
  assert (Hsame : get f (fileIndex st) = None → indexes_wf st).
  { intros Hfresh. split; [done|]. split; [done|].
    intros i. rewrite (Hexc i), elem_of_reachableIds by done. split.
    - intros (g & root & _ & Hg & Hi). eauto.
    - intros (g & root & Hg & Hi). exists g, root. split; [|done]. congruence. }
  destruct (parsers st) as [table|] eqn:Hp.
  - destruct (table (fileExtension env f)) as [parser|] eqn:Ht.
    + destruct (readFileSync env f) as [fileContent|] eqn:Hr.
      * destruct (parser fileContent) as [tree|] eqn:Hparse.
        -- rewrite (indexFile_success env f st table parser fileContent tree)
             by done.
           by apply indexes_wf_indexed.
        -- rewrite (indexFile_parse_failure env f st table parser fileContent)
             by done.
           apply Hsame. destruct Hsafe as [?|(table' & Hp' & p & c & t & H1 & H2 & H3)];
             [done|]. congruence.
      * assert (indexFile env f st = (Thrown "read failed", st)) as ->.
        { unfold indexFile, bind, getState, throw. simpl. by rewrite Hp, Ht, Hr. }
        apply Hsame. destruct Hsafe as [?|(table' & Hp' & p & c & t & H1 & H2 & H3)];
          [done|]. congruence.
    + rewrite (indexFile_no_parser env f st table) by done.
      apply Hsame. destruct Hsafe as [?|(table' & Hp' & p & c & t & H1 & H2 & H3)];
        [done|]. congruence.
  - assert (indexFile env f st = (Thrown "Indexer not initialized", st)) as ->.
    { unfold indexFile, bind, getState, throw. simpl. by rewrite Hp. }
    apply Hsame. destruct Hsafe as [?|(table' & Hp' & _)]; [done|congruence].
Qed.

Lemma updateFile_unfold env f st :
  updateFile env f st =
  indexFile env f
    match get f (fileIndex st) with
    | Some oldRootNode =>
        {| parsers := parsers st;
           fileIndex := fileIndex st;
           nodeIndex := removeNodeFromIndex oldRootNode (nodeIndex st) |}
    | None => st
    end.
Proof.
  unfold updateFile, bind, getState, putState, ret.
  by destruct (get f (fileIndex st)).
Qed.

Lemma runCall_keeps c st :
  indexes_wf st → keepsIndexes c st → indexes_wf (runCall c st).
Proof.
  intros Hwf Hsafe. destruct c as [env f|env f]; simpl in *.
  - destruct Hwf as (Hnd & Hown & Hcons).
    apply indexFile_keeps; [done|done| |by left].
    by apply consistent_except_fresh.
  - unfold updateFile, bind, getState, putState, ret. simpl.
    destruct (get f (fileIndex st)) as [oldRootNode|] eqn:Hold; simpl.
    + pose proof (consistent_except_evicted f st oldRootNode Hwf Hold) as Hexc.
      destruct Hwf as (Hnd & Hown & Hcons).
      apply indexFile_keeps; [done|done|done|].
      right. destruct Hsafe as [?|?]; [done|done].
    + pose proof (consistent_except_fresh f st Hwf Hold) as Hexc.
      destruct Hwf as (Hnd & Hown & Hcons).
      apply indexFile_keeps; [done|done|done|by left].
Qed.

Lemma newCodeIndexer_wf : indexes_wf newCodeIndexer.
Proof.
  split; [constructor|]. split; [by intros f root i ?|].
  intros i. unfold reachableIds. simpl.
  split; by intros ?%elem_of_nil.
Qed.

(** The invariant of the Structure Index on the calls that keep it: after
    any sequence of [indexFile] calls on files without a root and of
    [updateFile] calls that re-index with success (or meet a file without a
    root), the keys of NodeIndex are exactly the ids reachable from the
    roots of FileIndex. *)
Lemma index_consistent_after_calls cs : ∀ st,
  indexes_wf st → allKeepIndexes cs st →
  indexes_wf (runCalls cs st) ∧ index_consistent (runCalls cs st).
Proof.
  induction cs as [|c cs IH]; intros st Hwf Hsafe; simpl in *.
  - split; [done|]. by destruct Hwf as (_ & _ & ?).
  - destruct Hsafe as [Hc Hrest]. apply IH; [|done]. by apply runCall_keeps.
Qed.

(** After [indexFile(F)] and a successful [updateFile(F)] on a fresh
    indexer NodeIndex holds the ids of the second materialization of [F]
    and no other id. *)
Lemma reindex_holds_second_tree env1 env2 f table tree2 parser fileContent :
  table (fileExtension env2 f) = Some parser →
  readFileSync env2 f = Some fileContent →
  parser fileContent = Some tree2 →
  ∀ i, i ∈ keys (nodeIndex (runCalls [IndexFile env1 f; UpdateFile env2 f]
                              (withParsers table newCodeIndexer)))
       ↔ i ∈ node_ids (convertToCodeNode tree2 f).
Proof.
  intros Ht Hr Hparse i.
  unfold runCalls. simpl.
  pose proof (indexFile_frame env1 f (withParsers table newCodeIndexer))
    as [Hp1 Hothers].
  assert (Hwf1 : indexes_wf (indexFile env1 f (withParsers table newCodeIndexer)).2).
  { apply (runCall_keeps (IndexFile env1 f)); [exact newCodeIndexer_wf|done]. }
  remember (indexFile env1 f (withParsers table newCodeIndexer)).2 as st1.
  simpl in Hp1, Hothers.
  assert (Hexc : consistent_except f
            match get f (fileIndex st1) with
            | Some oldRootNode =>
                {| parsers := parsers st1;
                   fileIndex := fileIndex st1;
                   nodeIndex := removeNodeFromIndex oldRootNode (nodeIndex st1) |}
            | None => st1
            end).
  { destruct (get f (fileIndex st1)) eqn:Hold.
    - by apply consistent_except_evicted.
    - by apply consistent_except_fresh. }
  rewrite updateFile_unfold.
  erewrite (indexFile_success env2 f _ table parser fileContent tree2);
    [|by destruct (get f (fileIndex st1))|exact Ht|exact Hr|exact Hparse].
  simpl. rewrite elem_of_keys_indexNode, (Hexc i). split; [|by left].
  intros [?|(g & root & Hne & Hg & _)]; [done|].
  assert (get g (fileIndex st1) = None) as Hnone by (by apply Hothers).
  destruct (get f (fileIndex st1)); simpl in Hg; congruence.
Qed.

(** [indexFile] on a file that has a root does not evict the old tree: the
    ids of the old tree that the new tree does not have stay in NodeIndex
    as orphans.  Re-indexing is the task of [updateFile], which keeps the
    invariant on the same input. *)
Lemma indexFile_twice_leaves_orphans :
  (let st := (indexFile Examples.addReplaced "add.ts" Examples.addIndexed).2 in
   "add.ts:0:9" ∈ keys (nodeIndex st) ∧ "add.ts:0:9" ∉ reachableIds st) ∧
  (let st := (updateFile Examples.addReplaced "add.ts" Examples.addIndexed).2 in
   keys (nodeIndex st)
     = ["add.ts:0:0"; "add.ts:0:10"; "add.ts:0:14"; "add.ts:0:16";
        "add.ts:0:17"; "add.ts:0:19"; "add.ts:0:26"] ∧
   index_consistent st).
Proof.
  split.
  - cbv zeta. split.
    + vm_compute. apply list_elem_of_further, list_elem_of_here.
    + apply (bool_decide_unpack _). by vm_compute.
  - cbv zeta. split; [by vm_compute|].
    apply (index_consistent_after_calls
             [UpdateFile Examples.addReplaced "add.ts"] Examples.addIndexed).
    + apply (index_consistent_after_calls
               [IndexFile (Examples.envWith [("add.ts", Examples.addSource)]) "add.ts"]
               Examples.ready).
      * split; [constructor|]. split; [by intros f root i ?|].
        intros i. split; by intros ?%elem_of_nil.
      * by split.
    + split; [|done]. right. exists Examples.tsOnly. split; [done|].
      exists Examples.tsParser, Examples.barSource, Examples.barTree.
      by repeat split.
Qed.

End Consistency.

(** * Further properties of the code *)

(** ** Ids and positions *)

Section IdsAndPositions.
Import JSMap JSMapFacts.

Lemma num_to_string_inj n m :
  JS.num_to_string n = JS.num_to_string m → n = m.
Proof.
  unfold JS.num_to_string. intros Heq.
  assert (Hnil : ∀ k, N.to_uint k ≠ Decimal.Nil).
  { intros [|p]; [discriminate|]. apply DecimalPos.Unsigned.to_uint_nonnil. }
  pose proof (NilZero.usu (N.to_uint n) (Hnil n)) as Hn.
  pose proof (NilZero.usu (N.to_uint m) (Hnil m)) as Hm.
  rewrite Heq, Hm in Hn. injection Hn as Hn.
  rewrite <- (DecimalN.Unsigned.of_to n), <- (DecimalN.Unsigned.of_to m).
  by rewrite Hn.
Qed.

(** Two strings that continue with a colon and hold the same number of
    colons behind equal prefixes: the prefixes are equal. *)
Lemma prefix_before_colons k f : ∀ g t1 t2,
  colons t1 = k → colons t2 = k →
  (∃ t, t1 = String ":"%char t) → (∃ t, t2 = String ":"%char t) →
  f +:+ t1 = g +:+ t2 → f = g.
Proof.
  induction f as [|c f IH]; intros g t1 t2 H1 H2 [t1' Ht1] [t2' Ht2] Heq.
  - destruct g as [|c g]; [done|]. exfalso.
    change (t1 = String c (g +:+ t2)) in Heq. rewrite Heq in H1, Ht1.
    injection Ht1 as -> _.
    simpl in H1. rewrite colons_app in H1. lia.
  - destruct g as [|c' g].
    + exfalso. change (String c (f +:+ t1) = t2) in Heq.
      rewrite <- Heq in H2, Ht2. injection Ht2 as -> _.
      simpl in H2. rewrite colons_app in H2. lia.
    + change (String c (f +:+ t1) = String c' (g +:+ t2)) in Heq.
      injection Heq as -> Heq. f_equal.
      apply (IH g t1 t2); eauto.
Qed.

Lemma string_app_inv_head (s t1 t2 : string) : s +:+ t1 = s +:+ t2 → t1 = t2.
Proof. induction s as [|c s IH]; simpl; [done|]. intros [= H]. by apply IH. Qed.

Lemma makeId_injective f g row col row' col' :
  makeId f row col = makeId g row' col' → f = g ∧ row = row' ∧ col = col'.
Proof.
  intros Heq. pose proof (makeId_file_inj _ _ _ _ _ _ Heq) as <-.
  split; [done|].
  unfold makeId in Heq. apply (string_app_inv_head f) in Heq.
  apply (string_app_inv_head ":") in Heq.
  assert (Hrow : JS.num_to_string row = JS.num_to_string row').
  { apply (prefix_before_colons 1 _ _
             (":" +:+ JS.num_to_string col) (":" +:+ JS.num_to_string col'));
      [| |by eexists|by eexists|done].
    - by rewrite colons_app, colons_num_to_string.
    - by rewrite colons_app, colons_num_to_string. }
  rewrite Hrow in Heq.
  apply (string_app_inv_head (JS.num_to_string row')) in Heq.
  apply (string_app_inv_head ":") in Heq.
  split; by apply num_to_string_inj.
Qed.

(** X1.  An id names one file and one start position: two ids are equal
    only when the file path, the row and the column are equal, whatever
    colons and digits the file path holds itself. *)
Theorem node_id_names_one_position f g row col row' col' :
  makeId f row col = makeId g row' col' ↔ f = g ∧ row = row' ∧ col = col'.
Proof.
  split; [apply makeId_injective|]. by intros (-> & -> & ->).
Qed.

Lemma node_id_names_one_position_witness :
  "a:1" = "a:1" ∧ 2%N = 2%N ∧ 3%N = 3%N.
Proof.
  apply (node_id_names_one_position "a:1" "a:1" 2 3 2 3). reflexivity.
Defined.

(** *** What materialization produces *)

Lemma elem_of_subnodes (n m : CodeNode) :
  m ∈ subnodes n ↔ m = n ∨ ∃ c, c ∈ children n ∧ m ∈ subnodes c.
Proof.
  destruct n as [i ty nm tx sl el sc ec fp cs]; simpl.
  rewrite elem_of_cons, elem_of_flat_map. done.
Qed.

Lemma extractName_bearing t nm :
  extractName t = Some nm → ts_type t ∈ nameBearingTypes.
Proof.
  unfold extractName.
  destruct (includes_str nameBearingTypes (ts_type t)) eqn:E; [|done].
  intros _. by apply includes_str_true.
Qed.

Lemma convertToCodeNode_nodes t f : ∀ m,
  m ∈ subnodes (convertToCodeNode t f) →
  filePath m = f ∧ id m = positionId m ∧
  Forall (λ c, type c ≠ "comment") (children m) ∧
  (∀ nm, name m = Some nm → type m ∈ nameBearingTypes).
Proof.
  induction t as [ty tx sr sc er ec nf cs IH] using TSNode_ind.
  intros m. rewrite elem_of_subnodes, convertToCodeNode_unfold. simpl.
  intros [->|(c & Hc & Hm)].
  - simpl. split; [done|]. split.
    { unfold positionId. simpl. by rewrite !N2Z.id. }
    split.
    + apply Forall_fmap, Forall_forall. intros c Hc.
      apply list_elem_of_filter in Hc as [Hne _].
      unfold compose. by rewrite convertToCodeNode_unfold.
    + intros nm Hnm.
      by apply (extractName_bearing (mkTSNode ty tx sr sc er ec nf cs) nm).
  - apply list_elem_of_fmap in Hc as (c0 & -> & Hc0).
    apply list_elem_of_filter in Hc0 as [_ Hc0].
    rewrite Forall_forall in IH. by apply (IH c0).
Qed.

(** X2.  Every node of a materialized tree carries the path of its file
    and the id that its own start position spells out, no node has a
    comment among its children, and only a node of a name-bearing type has
    a name. *)
Theorem materialized_nodes_are_well_formed (t : TSNode) (f : string)
    (m : CodeNode) :
  m ∈ subnodes (convertToCodeNode t f) →
  filePath m = f ∧
  id m = makeId f (Z.to_N (startLine m)) (Z.to_N (startCol m)) ∧
  Forall (λ c, type c ≠ "comment") (children m) ∧
  (∀ nm, name m = Some nm → type m ∈ nameBearingTypes).
Proof.
  intros Hm.
  destruct (convertToCodeNode_nodes t f m Hm) as (Hf & Hid & Hc & Hn).
  split; [done|]. split; [|done].
  rewrite Hid. unfold positionId. by rewrite Hf.
Qed.

Lemma materialized_nodes_are_well_formed_witness :
  let m := convertToCodeNode Examples.addDeclaration "add.ts" in
  filePath m = "add.ts" ∧
  id m = makeId "add.ts" (Z.to_N (startLine m)) (Z.to_N (startCol m)) ∧
  Forall (λ c, type c ≠ "comment") (children m) ∧
  (∀ nm, name m = Some nm → type m ∈ nameBearingTypes).
Proof.
  intros m.
  apply (materialized_nodes_are_well_formed Examples.addTree "add.ts" m).
  vm_compute. apply list_elem_of_further, list_elem_of_here.
Defined.

End IdsAndPositions.

(** ** Lookups after indexing and removal *)

Section IndexLookups.
Import JSMap JSMapFacts.

Lemma lastWithId_app k l1 l2 :
  lastWithId k (l1 ++ l2) =
  match lastWithId k l2 with
  | Some m => Some m
  | None => lastWithId k l1
  end.
Proof. unfold lastWithId. by rewrite filter_app, last_app. Qed.

Lemma lastWithId_Some k l m : lastWithId k l = Some m → m ∈ l ∧ id m = k.
Proof.
  unfold lastWithId. intros H. apply last_Some_elem_of in H.
  apply list_elem_of_filter in H. tauto.
Qed.

Lemma lastWithId_None k l : lastWithId k l = None ↔ k ∉ id <$> l.
Proof.
  unfold lastWithId. rewrite last_None. split.
  - intros Hnil (m & -> & Hm)%list_elem_of_fmap.
    assert (m ∈ filter (λ m0, id m0 = id m) l) as Hin
      by (by apply list_elem_of_filter).
    rewrite Hnil in Hin. by apply elem_of_nil in Hin.
  - intros Hnot. destruct (filter _ l) as [|m l'] eqn:E; [done|]. exfalso.
    assert (m ∈ filter (λ m0, id m0 = k) l) as Hin
      by (rewrite E; apply list_elem_of_here).
    apply list_elem_of_filter in Hin as [<- Hin].
    apply Hnot, list_elem_of_fmap. eauto.
Qed.

(** What a lookup finds after [indexNode]: the last node of the tree with
    this id, and the old entry when the tree has no such node. *)
Lemma get_indexNode n : ∀ idx k,
  get k (indexNode n idx) =
  match lastWithId k (subnodes n) with
  | Some m => Some m
  | None => get k idx
  end.
Proof.
  induction n as [i0 ty nm tx sl el sc ec fp cs IH] using CodeNode_ind.
  intros idx k. rewrite indexNode_unfold. simpl.
  set (n := mkCodeNode i0 ty nm tx sl el sc ec fp cs).
  assert (Hfold : ∀ acc,
    get k (fold_left (λ acc child, indexNode child acc) cs acc) =
    match lastWithId k (flat_map subnodes cs) with
    | Some m => Some m
    | None => get k acc
    end).
  { induction IH as [|c cs' Hc _ IHcs]; intros acc; simpl; [done|].
    rewrite IHcs, Hc, lastWithId_app.
    by destruct (lastWithId k (flat_map subnodes cs')). }
  rewrite Hfold.
  change (n :: flat_map subnodes cs) with ([n] ++ flat_map subnodes cs).
  rewrite lastWithId_app.
  destruct (lastWithId k (flat_map subnodes cs)); [done|].
  unfold lastWithId. rewrite filter_cons, filter_nil. simpl.
  destruct (decide (i0 = k)) as [->|Hne]; simpl.
  - by rewrite get_set_eq.
  - by rewrite get_set_ne.
Qed.

(** What a lookup finds after [removeNodeFromIndex]: nothing under an id of
    the tree, and the old entry under any other id. *)
Lemma get_removeNodeFromIndex_other n : ∀ idx k,
  k ∉ node_ids n → get k (removeNodeFromIndex n idx) = get k idx.
Proof.
  induction n as [i0 ty nm tx sl el sc ec fp cs IH] using CodeNode_ind.
  intros idx k. rewrite removeNodeFromIndex_unfold, elem_of_node_ids. simpl.
  intros Hnot.
  assert (Hfold : ∀ acc,
    get k (fold_left (λ acc child, removeNodeFromIndex child acc) cs acc)
    = get k acc).
  { assert (Hcs : ∀ c, c ∈ cs → k ∉ node_ids c) by (intros c Hc Hk; eauto).
    clear Hnot. induction IH as [|c cs' Hc _ IHcs]; intros acc; simpl; [done|].
    rewrite IHcs.
    - apply Hc, Hcs, list_elem_of_here.
    - intros c' Hc'. by apply Hcs, list_elem_of_further. }
  rewrite Hfold. apply get_delete_ne. intros ->. apply Hnot. by left.
Qed.

(** X3.  Indexing a tree and removing it again leaves no entry under any
    id of the tree, also none that was stored under such an id before, and
    leaves every other entry as it was. *)
Theorem index_then_remove_lookup (n : CodeNode) (idx : JSMap.t CodeNode)
    (k : string) :
  get k (removeNodeFromIndex n (indexNode n idx)) =
  if decide (k ∈ node_ids n) then None else get k idx.
Proof.
  destruct (decide (k ∈ node_ids n)) as [Hin|Hnot].
  - by apply get_removeNodeFromIndex.
  - rewrite get_removeNodeFromIndex_other by done.
    rewrite get_indexNode.
    apply lastWithId_None in Hnot. by rewrite Hnot.
Qed.

(** X4.  After a tree is indexed, a lookup by id finds the last node of the
    tree with this id in document order.  So when a node starts where its
    parent starts, the shared id leads to the inner node and the parent
    can no more be looked up; an id the tree does not have leads to the
    entry that was there before. *)
Theorem index_lookup_finds_last_node (n : CodeNode) (idx : JSMap.t CodeNode)
    (k : string) :
  (∀ m, lastWithId k (subnodes n) = Some m →
        get k (indexNode n idx) = Some m ∧ m ∈ subnodes n ∧ id m = k) ∧
  (k ∉ node_ids n → get k (indexNode n idx) = get k idx) ∧
  (∀ c, children n = [c] → id c = id n → children c = [] →
        get (id n) (indexNode n idx) = Some c).
Proof.
  split; [|split].
  - intros m Hm. rewrite get_indexNode, Hm. split; [done|].
    by apply lastWithId_Some.
  - intros Hnot. rewrite get_indexNode.
    apply lastWithId_None in Hnot. by rewrite Hnot.
  - intros c Hcs Hid Hleaf. rewrite get_indexNode.
    destruct n as [i0 ty nm tx sl el sc ec fp cs]. simpl in *. subst cs.
    destruct c as [i1 ty1 nm1 tx1 sl1 el1 sc1 ec1 fp1 cs1]. simpl in *.
    subst. unfold lastWithId. simpl.
    rewrite !filter_cons, filter_nil. simpl.
    by rewrite !decide_True.
Qed.

Lemma index_lookup_finds_last_node_witness :
  getNodeText Examples.addIndexed "add.ts:0:0" = Some Examples.addSource ∧
  type <$> get "add.ts:0:0" (nodeIndex Examples.addIndexed)
    = Some "function_declaration" ∧
  get "add.ts:9:9" (nodeIndex Examples.addIndexed) = None.
Proof.
  destruct (index_lookup_finds_last_node
              (convertToCodeNode Examples.addTree "add.ts") empty "add.ts:0:0")
    as (Hlast & _ & _).
  destruct (Hlast (convertToCodeNode Examples.addDeclaration "add.ts") eq_refl)
    as (Hget & _ & _).
  destruct (index_lookup_finds_last_node
              (convertToCodeNode Examples.addTree "add.ts") empty "add.ts:9:9")
    as (_ & Hother & _).
  split; [|split].
  - unfold getNodeText. change (nodeIndex Examples.addIndexed)
      with (indexNode (convertToCodeNode Examples.addTree "add.ts") empty).
    by rewrite Hget.
  - change (nodeIndex Examples.addIndexed)
      with (indexNode (convertToCodeNode Examples.addTree "add.ts") empty).
    by rewrite Hget.
  - change (nodeIndex Examples.addIndexed)
      with (indexNode (convertToCodeNode Examples.addTree "add.ts") empty).
    rewrite Hother; [done|].
    vm_compute. intros H.
    repeat (apply elem_of_cons in H as [H|H]; [discriminate|]).
    by apply elem_of_nil in H.
Defined.

End IndexLookups.

(** ** Entries are stored under the id of their node *)

Section KeyedById.
Import JSMap JSMapFacts.

Lemma keys_delete_NoDup {V} k (m : t V) : NoDup (keys m) → NoDup (keys (delete k m)).
Proof.
  unfold keys. induction m as [|[k' v'] m IH]; simpl; intros Hnd; [done|].
  apply NoDup_cons in Hnd as [Hk' Hnd].
  destruct (decide (k = k')); simpl; [by apply IH|].
  constructor; [|by apply IH].
  change (k' ∉ keys (delete k m)). rewrite elem_of_keys_delete. tauto.
Qed.

Lemma keys_indexNode_NoDup n : ∀ idx,
  NoDup (keys idx) → NoDup (keys (indexNode n idx)).
Proof.
  induction n as [i0 ty nm tx sl el sc ec fp cs IH] using CodeNode_ind.
  intros idx Hnd. rewrite indexNode_unfold. simpl.
  assert (Hfold : ∀ acc, NoDup (keys acc) →
    NoDup (keys (fold_left (λ acc child, indexNode child acc) cs acc))).
  { induction IH as [|c cs' Hc _ IHcs]; intros acc Hacc; simpl; [done|].
    by apply IHcs, Hc. }
  by apply Hfold, keys_set_NoDup.
Qed.

Lemma keys_removeNodeFromIndex_NoDup n : ∀ idx,
  NoDup (keys idx) → NoDup (keys (removeNodeFromIndex n idx)).
Proof.
  induction n as [i0 ty nm tx sl el sc ec fp cs IH] using CodeNode_ind.
  intros idx Hnd. rewrite removeNodeFromIndex_unfold. simpl.
  assert (Hfold : ∀ acc, NoDup (keys acc) →
    NoDup (keys (fold_left (λ acc child, removeNodeFromIndex child acc) cs acc))).
  { induction IH as [|c cs' Hc _ IHcs]; intros acc Hacc; simpl; [done|].
    by apply IHcs, Hc. }
  by apply Hfold, keys_delete_NoDup.
Qed.

Lemma keyedById_indexNode tree f idx :
  keyedById idx → keyedById (indexNode (convertToCodeNode tree f) idx).
Proof.
  intros [Hnd Hkey]. split; [by apply keys_indexNode_NoDup|].
  intros k n. rewrite get_indexNode.
  destruct (lastWithId k (subnodes (convertToCodeNode tree f))) as [m|] eqn:E.
  - intros [= <-]. apply lastWithId_Some in E as [Hm <-].
    split; [done|]. by apply (convertToCodeNode_nodes tree f m).
  - apply Hkey.
Qed.

Lemma keyedById_removeNodeFromIndex root idx :
  keyedById idx → keyedById (removeNodeFromIndex root idx).
Proof.
  intros [Hnd Hkey]. split; [by apply keys_removeNodeFromIndex_NoDup|].
  intros k n Hget. destruct (decide (k ∈ node_ids root)) as [Hin|Hnot].
  - rewrite get_removeNodeFromIndex in Hget by done. discriminate.
  - rewrite get_removeNodeFromIndex_other in Hget by done. by apply Hkey.
Qed.

Lemma keyedById_indexFile env f st :
  keyedById (nodeIndex st) → keyedById (nodeIndex (indexFile env f st).2).
Proof.
  intros Hk. unfold indexFile, bind, getState, putState, throw, ret. simpl.
  destruct (parsers st) as [table|]; [|done].
  destruct (table _) as [parser|]; [|done].
  destruct (readFileSync env f) as [fileContent|]; [|done].
  destruct (parser fileContent); [|done].
  simpl. by apply keyedById_indexNode.
Qed.

Lemma keyedById_runCall c st :
  keyedById (nodeIndex st) → keyedById (nodeIndex (runCall c st)).
Proof.
  intros Hk. destruct c as [env f|env f]; simpl.
  - by apply keyedById_indexFile.
  - rewrite updateFile_unfold. apply keyedById_indexFile.
    destruct (get f (fileIndex st)); [|done].
    simpl. by apply keyedById_removeNodeFromIndex.
Qed.

Lemma keyedById_runCalls cs : ∀ st,
  keyedById (nodeIndex st) → keyedById (nodeIndex (runCalls cs st)).
Proof.
  induction cs as [|c cs IH]; intros st Hk; [done|].
  apply IH. by apply keyedById_runCall.
Qed.

Lemma keyedById_new : keyedById (nodeIndex newCodeIndexer).
Proof. split; [constructor|]. by intros k n ?. Qed.

(** X5.  Whatever calls of [indexFile] and [updateFile] were made on an
    indexer since its parsers were loaded, with whatever outcome, the
    position returned for an id is the position the id spells out: the id
    is the file path, the start line and the start column of the answer,
    and the text returned for it is the text of a node at that position. *)
Theorem position_lookup_agrees_with_id (table : string → option Parser)
    (cs : list Call) (nodeId : string) (p : NodePosition) :
  let st := runCalls cs (withParsers table newCodeIndexer) in
  getNodePosition st nodeId = Some p →
  nodeId = makeId (pos_filePath p) (Z.to_N (pos_startLine p))
                  (Z.to_N (pos_startCol p)) ∧
  ∃ n, get nodeId (nodeIndex st) = Some n ∧
       positionOf n = p ∧
       getNodeText st nodeId = Some (text n).
Proof.
  intros st.
  pose proof (keyedById_runCalls cs (withParsers table newCodeIndexer)
                keyedById_new) as [_ Hkey].
  fold st in Hkey. unfold getNodePosition, getNodeText.
  destruct (get nodeId (nodeIndex st)) as [n|] eqn:E; [|done].
  intros [= <-]. destruct (Hkey _ _ E) as [-> Hid].
  split; [exact Hid|]. by exists n.
Qed.

Lemma position_lookup_agrees_with_id_witness :
  let st := runCalls
              [IndexFile (Examples.envWith [("add.ts", Examples.addSource)]) "add.ts";
               UpdateFile Examples.addBroken "add.ts";
               UpdateFile (Examples.envWith [("add.ts", Examples.addSource)]) "add.ts"]
              (withParsers Examples.tsOnly newCodeIndexer) in
  "add.ts:0:9" = makeId "add.ts" (Z.to_N 0) (Z.to_N 9) ∧
  ∃ n, get "add.ts:0:9" (nodeIndex st) = Some n ∧
       positionOf n = mkNodePosition "add.ts" 0 9 0 12 ∧
       getNodeText st "add.ts:0:9" = Some (text n).
Proof.
  apply (position_lookup_agrees_with_id Examples.tsOnly
           [IndexFile (Examples.envWith [("add.ts", Examples.addSource)]) "add.ts";
            UpdateFile Examples.addBroken "add.ts";
            UpdateFile (Examples.envWith [("add.ts", Examples.addSource)]) "add.ts"]
           "add.ts:0:9" (mkNodePosition "add.ts" 0 9 0 12)).
  reflexivity.
Defined.

End KeyedById.

(** ** Bounds of the scores *)

Section ScoreBounds.

Lemma inject_nat_nonneg (k : nat) : (0 <= inject_Z (Z.of_nat k))%Q.
Proof.
  change 0%Q with (inject_Z 0). rewrite <- Zle_Qle. lia.
Qed.

Lemma inject_nat_ge_one (k : nat) : (0 < k)%nat → (1 <= inject_Z (Z.of_nat k))%Q.
Proof.
  intros Hk. change 1%Q with (inject_Z 1). rewrite <- Zle_Qle. lia.
Qed.

Lemma calculateScore_between n terms :
  (inject_Z (Z.of_nat (length terms)) <= calculateScore n terms)%Q ∧
  (calculateScore n terms <= 9 * inject_Z (Z.of_nat (length terms)))%Q.
Proof.
  pose proof (inject_nat_nonneg (length terms)) as Hlen.
  pose proof (calculateScore_product n terms) as Hp.
  unfold kindBoost, sizeBoost, nameBoost in Hp.
  set (L := inject_Z (Z.of_nat (length terms))) in *.
  set (s := calculateScore n terms) in *.
  clearbody L s.
  destruct (includes_str _ _), ((lineCount n <=? 30) && (lineCount n >=? 3)),
    (matchesName n terms); split; lra.
Qed.

Lemma calculateScore_positive n terms :
  Qpositive (calculateScore n terms) = true ↔ terms ≠ [].
Proof.
  rewrite Qpositive_true.
  destruct (calculateScore_between n terms) as [Hlo Hhi]. split.
  - intros Hpos ->.
    change (inject_Z (Z.of_nat (length (@nil string)))) with 0%Q in Hhi.
    set (s := calculateScore n []) in *. clearbody s. lra.
  - intros Hne.
    assert (1 <= inject_Z (Z.of_nat (length terms)))%Q as Hone.
    { apply inject_nat_ge_one. destruct terms; [done|simpl; lia]. }
    set (L := inject_Z (Z.of_nat (length terms))) in *.
    set (s := calculateScore n terms) in *. clearbody L s. lra.
Qed.

Lemma calculateSpecialTypeScore_ge_one n terms :
  (1 <= calculateSpecialTypeScore n terms)%Q.
Proof.
  unfold calculateSpecialTypeScore. cbv zeta.
  set (k := length (filter _ terms)).
  set (p := length (filter _ (children n))).
  pose proof (inject_nat_nonneg k) as Hk.
  pose proof (inject_nat_nonneg p) as Hp.
  set (a := inject_Z (Z.of_nat k)) in *.
  set (b := inject_Z (Z.of_nat p)) in *.
  clearbody a b.
  destruct (matchesName n terms); lra.
Qed.

(** X6.  The score of a node for a list of matched terms lies between the
    number of terms and nine times that number, so it is positive exactly
    when there is a matched term; the score of the pass for interfaces and
    type aliases is at least 1 whatever the terms.  Hence the tests
    [score > 0] of the three passes of [search] reject a candidate only
    for an empty list of terms, which no pass hands over. *)
Theorem score_bounds (n : CodeNode) (terms : list string) :
  (inject_Z (Z.of_nat (length terms)) <= calculateScore n terms)%Q ∧
  (calculateScore n terms <= 9 * inject_Z (Z.of_nat (length terms)))%Q ∧
  (Qpositive (calculateScore n terms) = true ↔ terms ≠ []) ∧
  (1 <= calculateSpecialTypeScore n terms)%Q ∧
  Qpositive (calculateSpecialTypeScore n terms) = true.
Proof.
  destruct (calculateScore_between n terms) as [Hlo Hhi].
  split; [done|]. split; [done|]. split; [apply calculateScore_positive|].
  pose proof (calculateSpecialTypeScore_ge_one n terms) as Hone.
  split; [done|]. apply Qpositive_true.
  set (s := calculateSpecialTypeScore n terms) in *. clearbody s. lra.
Qed.

Lemma score_bounds_witness :
  Qpositive (calculateScore Examples.addFunction ["add"]) = true ∧
  Qpositive (calculateScore Examples.addFunction []) ≠ true.
Proof.
  destruct (score_bounds Examples.addFunction ["add"]) as (_ & _ & Hpos & _).
  destruct (score_bounds Examples.addFunction []) as (_ & _ & Hnone & _).
  split.
  - apply Hpos. discriminate.
  - intros H. by apply Hnone in H.
Defined.

End ScoreBounds.

(** ** The three loops of [search] *)

Section SearchPasses.
Import JSMap JSMapFacts.

(** A loop keeps what holds at its start and is kept by every step; the
    invariant may speak of the elements met so far. *)
Lemma fold_left_prefix {A B} (I : list B → A → Prop) (f : A → B → A)
    (l : list B) : ∀ pre a,
  I pre a →
  (∀ pre x a, I pre a → I (pre ++ [x]) (f a x)) →
  I (pre ++ l) (fold_left f l a).
Proof.
  induction l as [|x l IH]; intros pre a Ha Hstep; simpl.
  - by rewrite app_nil_r.
  - rewrite (cons_middle x pre l), app_assoc. apply IH; [|done].
    by apply Hstep.
Qed.

Lemma fold_left_keeps {A B} (I : A → Prop) (Q : B → Prop) (f : A → B → A)
    (l : list B) (a : A) :
  Forall Q l → I a → (∀ a x, Q x → I a → I (f a x)) → I (fold_left f l a).
Proof.
  intros Hl Ha Hstep. revert a Ha.
  induction Hl as [|x l Hx _ IH]; intros a Ha; simpl; [done|].
  by apply IH, Hstep.
Qed.

Lemma searchCandidates_passes query st :
  searchCandidates query st =
  results (if asksForTypes query
           then fold_left (typePassStep (queryTermsOf query))
                          (values (nodeIndex st)) (afterTermPass query st)
           else afterTermPass query st).
Proof. reflexivity. Qed.

(** What a step of each loop does: nothing, or one push. *)
Lemma exactPassStep_cases q terms acc n :
  exactPassStep q terms acc n = acc ∨
  (exactPassStep q terms acc n =
     {| results := results acc
                   ++ [mkQueryResult n (calculateScore n terms * 2)%Q [q]];
        addedNodes := set (id n) true (addedNodes acc) |} ∧
   has (id n) (addedNodes acc) = false ∧
   Qpositive (calculateScore n terms) = true).
Proof.
  unfold exactPassStep.
  destruct (_ || _ || _); [|by left].
  destruct (Qpositive _) eqn:Hpos; [|by left].
  destruct (has (id n) (addedNodes acc)) eqn:Hhas; [by left|].
  right. by simpl.
Qed.

Lemma termPassStep_cases terms acc n :
  termPassStep terms acc n = acc ∨
  ∃ matchingTerms,
    termPassStep terms acc n =
      {| results := results acc
                    ++ [mkQueryResult n (calculateScore n matchingTerms)
                                      matchingTerms];
         addedNodes := addedNodes acc |} ∧
    has (id n) (addedNodes acc) = false ∧
    matchingTerms ≠ [] ∧
    Qpositive (calculateScore n matchingTerms) = true.
Proof.
  unfold termPassStep.
  destruct (has (id n) (addedNodes acc)) eqn:Hhas; [by left|].
  match goal with
  | |- context [length ?l] => set (matchingTerms := l)
  end.
  destruct (Nat.ltb_spec 0 (length matchingTerms)) as [Hlen|]; [|by left].
  destruct (Qpositive _) eqn:Hpos; [|by left].
  right. exists matchingTerms. repeat split; try done.
  intros E. rewrite E in Hlen. simpl in Hlen. lia.
Qed.

Lemma typePassStep_cases terms acc n :
  typePassStep terms acc n =
    (if has (id n) (addedNodes acc) then acc
     else if isTypeDeclaration n
     then {| results := results acc
                        ++ [mkQueryResult n
                              (calculateSpecialTypeScore n terms * (3 # 2))%Q
                              ["interface"]];
             addedNodes := addedNodes acc |}
     else acc).
Proof.
  unfold typePassStep, isTypeDeclaration.
  destruct (has _ _); [done|].
  destruct (_ || _); [|done].
  assert (Qpositive (calculateSpecialTypeScore n terms) = true) as ->; [|done].
  apply Qpositive_true.
  pose proof (calculateSpecialTypeScore_ge_one n terms) as H.
  set (s := calculateSpecialTypeScore n terms) in *. clearbody s. lra.
Qed.

(** A property of single results that every push of the three loops
    establishes holds of every candidate. *)
Lemma searchCandidates_Forall (P : QueryResult → Prop) query st :
  (∀ n terms, n ∈ values (nodeIndex st) →
     Qpositive (calculateScore n terms) = true →
     P (mkQueryResult n (calculateScore n terms * 2)%Q
                      [JS.trim (JS.toLowerCase query)])) →
  (∀ n terms, n ∈ values (nodeIndex st) → terms ≠ [] →
     P (mkQueryResult n (calculateScore n terms) terms)) →
  (∀ n terms, n ∈ values (nodeIndex st) → isTypeDeclaration n = true →
     P (mkQueryResult n (calculateSpecialTypeScore n terms * (3 # 2))%Q
                      ["interface"])) →
  Forall P (searchCandidates query st).
Proof.
  intros H1 H2 H3. rewrite searchCandidates_passes.
  assert (Hnodes : Forall (λ n, n ∈ values (nodeIndex st)) (values (nodeIndex st)))
    by (by apply Forall_forall).
  assert (Hexact : Forall P (results (afterExactPass query st))).
  { unfold afterExactPass.
    apply (fold_left_keeps (λ acc, Forall P (results acc)) _ _ _ _ Hnodes);
      [constructor|].
    intros acc n Hn Hacc.
    destruct (exactPassStep_cases (JS.trim (JS.toLowerCase query))
                (JS.split_ws (JS.trim (JS.toLowerCase query))) acc n)
      as [->|(-> & _ & Hpos)]; [done|].
    simpl. apply Forall_app. split; [done|]. repeat constructor. by apply H1. }
  assert (Hterm : Forall P (results (afterTermPass query st))).
  { unfold afterTermPass.
    apply (fold_left_keeps (λ acc, Forall P (results acc)) _ _ _ _ Hnodes);
      [done|].
    intros acc n Hn Hacc.
    destruct (termPassStep_cases
                (JS.split_ws (JS.trim (JS.toLowerCase query))) acc n)
      as [->|(mt & -> & _ & Hne & _)]; [done|].
    simpl. apply Forall_app. split; [done|]. repeat constructor. by apply H2. }
  destruct (asksForTypes query); [|done].
  apply (fold_left_keeps (λ acc, Forall P (results acc)) _ _ _ _ Hnodes);
    [done|].
  intros acc n Hn Hacc. rewrite typePassStep_cases.
  destruct (has _ _); [done|].
  destruct (isTypeDeclaration n) eqn:Hty; [|done].
  simpl. apply Forall_app. split; [done|]. repeat constructor. by apply H3.
Qed.

(** X7.  Every result of [search] holds a node of NodeIndex, has a score
    of at least 1 and names at least one match. *)
Theorem search_results_are_indexed_and_scored (query : string)
    (st : CodeIndexer) (r : QueryResult) :
  r ∈ search query st →
  node r ∈ values (nodeIndex st) ∧ (1 <= score r)%Q ∧ matches r ≠ [].
Proof.
  unfold search. rewrite sort_by_perm. revert r. apply Forall_forall.
  apply searchCandidates_Forall.
  - intros n terms Hn Hpos. simpl. split; [done|]. split; [|done].
    pose proof (calculateScore_between n terms) as [Hlo _].
    assert (terms ≠ []) as Hne
      by (by apply (calculateScore_positive n terms)).
    assert (1 <= inject_Z (Z.of_nat (length terms)))%Q as Hone.
    { apply inject_nat_ge_one. destruct terms; [done|simpl; lia]. }
    set (L := inject_Z (Z.of_nat (length terms))) in *.
    set (s := calculateScore n terms) in *. clearbody L s. lra.
  - intros n terms Hn Hne. simpl. split; [done|]. split; [|done].
    pose proof (calculateScore_between n terms) as [Hlo _].
    assert (1 <= inject_Z (Z.of_nat (length terms)))%Q as Hone.
    { apply inject_nat_ge_one. destruct terms; [done|simpl; lia]. }
    set (L := inject_Z (Z.of_nat (length terms))) in *.
    set (s := calculateScore n terms) in *. clearbody L s. lra.
  - intros n terms Hn _. simpl. split; [done|]. split; [|done].
    pose proof (calculateSpecialTypeScore_ge_one n terms) as H.
    set (s := calculateSpecialTypeScore n terms) in *. clearbody s. lra.
Qed.

Lemma search_results_are_indexed_and_scored_witness :
  let r := mkQueryResult
             (convertToCodeNode Examples.addDeclaration "add.ts") 12 ["add"] in
  node r ∈ values (nodeIndex Examples.addIndexed) ∧
  (1 <= score r)%Q ∧ matches r ≠ [].
Proof.
  intros r.
  apply (search_results_are_indexed_and_scored "add" Examples.addIndexed r).
  vm_compute. apply list_elem_of_here.
Defined.

(** *** What the first loop has added *)

Lemma keys_set_fresh {V} k (v : V) (m : t V) :
  k ∉ keys m → keys (set k v m) = keys m ++ [k].
Proof.
  induction m as [|[k' v'] m IH]; [done|]. intros Hnot.
  change (keys ((k', v') :: m)) with (k' :: keys m) in *.
  apply not_elem_of_cons in Hnot as [Hne Hnot].
  simpl. rewrite decide_False by done.
  change (keys ((k', v') :: set k v m)) with (k' :: keys (set k v m)).
  by rewrite IH.
Qed.

Lemma resultIds_app rs1 rs2 : resultIds (rs1 ++ rs2) = resultIds rs1 ++ resultIds rs2.
Proof. unfold resultIds. apply fmap_app. Qed.

(** After the first loop [addedNodes] holds the ids of the results, in the
    order of the results and without repetition. *)
Lemma afterExactPass_added query st :
  resultIds (results (afterExactPass query st))
    = keys (addedNodes (afterExactPass query st)) ∧
  NoDup (keys (addedNodes (afterExactPass query st))).
Proof.
  unfold afterExactPass.
  apply (fold_left_keeps
           (λ acc, resultIds (results acc) = keys (addedNodes acc) ∧
                   NoDup (keys (addedNodes acc)))
           (λ _, True)).
  - by apply Forall_forall.
  - split; [done|constructor].
  - intros acc n _ [Hids Hnd].
    destruct (exactPassStep_cases (JS.trim (JS.toLowerCase query))
                (JS.split_ws (JS.trim (JS.toLowerCase query))) acc n)
      as [->|(-> & Hhas & _)]; [done|].
    cbn [results addedNodes].
    assert (id n ∉ keys (addedNodes acc)) as Hfresh.
    { intros Hin. apply has_true in Hin. congruence. }
    rewrite resultIds_app, keys_set_fresh, Hids by done.
    split; [done|]. apply NoDup_app. split; [done|]. split.
    + intros k Hk ->%list_elem_of_singleton. done.
    + apply NoDup_singleton.
Qed.

(** The second loop leaves [addedNodes] as it is and pushes, in the order
    of the index, nodes whose id the first loop has not added. *)
Lemma afterTermPass_pushed query st :
  addedNodes (afterTermPass query st) = addedNodes (afterExactPass query st) ∧
  ∃ rs ids,
    results (afterTermPass query st) = results (afterExactPass query st) ++ rs ∧
    resultIds rs = ids ∧
    ids `sublist_of` (id <$> values (nodeIndex st)) ∧
    ∀ i, i ∈ ids → i ∉ keys (addedNodes (afterExactPass query st)).
Proof.
  unfold afterTermPass.
  set (acc0 := afterExactPass query st).
  set (terms := JS.split_ws (JS.trim (JS.toLowerCase query))).
  pose proof (fold_left_prefix
    (λ pre acc,
       addedNodes acc = addedNodes acc0 ∧
       ∃ rs, results acc = results acc0 ++ rs ∧
             resultIds rs `sublist_of` (id <$> pre) ∧
             ∀ i, i ∈ resultIds rs → i ∉ keys (addedNodes acc0))
    (termPassStep terms) (values (nodeIndex st)) [] acc0) as Hfold.
  simpl in Hfold. destruct Hfold as [Hadded (rs & Hrs & Hsub & Hfresh)].
  - split; [done|]. exists []. rewrite app_nil_r. split; [done|].
    split; [constructor|]. by intros i ?%elem_of_nil.
  - intros pre x acc [Hadded (rs & Hrs & Hsub & Hfresh)].
    destruct (termPassStep_cases terms acc x)
      as [->|(mt & -> & Hhas & _)].
    + split; [done|]. exists rs. split; [done|]. split; [|done].
      rewrite fmap_app. by apply sublist_inserts_r.
    + cbn [results addedNodes]. split; [done|].
      exists (rs ++ [mkQueryResult x (calculateScore x mt) mt]).
      rewrite Hrs, app_assoc. split; [done|].
      rewrite resultIds_app, fmap_app. split.
      * by apply sublist_app.
      * intros i [Hi|Hi]%elem_of_app; [by apply Hfresh|].
        apply list_elem_of_singleton in Hi as ->. simpl.
        intros Hin. rewrite <- Hadded in Hin. apply has_true in Hin. congruence.
  - split; [done|]. by exists rs, (resultIds rs).
Qed.

Lemma resultIds_sorted query st :
  resultIds (search query st) ≡ₚ resultIds (searchCandidates query st).
Proof. unfold search, resultIds. by rewrite sort_by_perm. Qed.

(** X8.  When the nodes of NodeIndex have different ids and the query asks
    neither for interfaces nor for types, so that the third loop does not
    run, no node is returned twice. *)
Theorem search_without_type_pass_has_no_duplicates (query : string)
    (st : CodeIndexer) :
  NoDup (id <$> values (nodeIndex st)) →
  asksForTypes query = false →
  NoDup (resultIds (search query st)).
Proof.
  intros Hnd Hno. rewrite resultIds_sorted, searchCandidates_passes, Hno.
  destruct (afterExactPass_added query st) as [Hids Hkeys].
  destruct (afterTermPass_pushed query st)
    as (_ & rs & ids & -> & <- & Hsub & Hfresh).
  rewrite resultIds_app, Hids. apply NoDup_app. split; [done|]. split.
  - intros i Hi Hin. by apply (Hfresh i).
  - by apply (sublist_NoDup _ _ Hnd).
Qed.

Lemma search_without_type_pass_has_no_duplicates_witness :
  NoDup (resultIds (search "add" Examples.addIndexed)).
Proof.
  apply search_without_type_pass_has_no_duplicates; [|reflexivity].
  vm_compute. repeat (apply NoDup_cons; split;
    [intros H; repeat (apply elem_of_cons in H as [H|H]; [discriminate|]);
     by apply elem_of_nil in H|]).
  constructor.
Defined.

End SearchPasses.

(** ** From a search result back to the index *)

Section ResultLookup.
Import JSMap JSMapFacts.

Lemma get_head {V} k (v : V) m : get k ((k, v) :: m) = Some v.
Proof. simpl. by rewrite decide_True. Qed.

Lemma get_tail {V} k k' (v : V) m : k' ≠ k → get k' ((k, v) :: m) = get k' m.
Proof. intros Hne. simpl. by rewrite decide_False. Qed.

(** The ids of the nodes of an index whose entries are stored under the id
    of their node are its keys. *)
Lemma keyedById_ids idx : keyedById idx → id <$> values idx = keys idx.
Proof.
  induction idx as [|[k n] idx IH]; intros [Hnd Hkey]; [done|].
  change (keys ((k, n) :: idx)) with (k :: keys idx) in *.
  change (values ((k, n) :: idx)) with (n :: values idx).
  apply NoDup_cons in Hnd as [Hk Hnd].
  rewrite fmap_cons. f_equal.
  - symmetry. apply (Hkey k n), get_head.
  - apply IH. split; [done|]. intros k' n' Hget. apply Hkey.
    rewrite get_tail; [done|]. intros ->.
    apply Hk, elem_of_keys. eauto.
Qed.

Lemma searchCandidates_indexed query st :
  Forall (λ r, node r ∈ values (nodeIndex st)) (searchCandidates query st).
Proof. by apply searchCandidates_Forall. Qed.

(** X10.  On an indexer reached by calls of [indexFile] and [updateFile]
    since its parsers were loaded, the id of every search result leads
    back to the result: [getNodeText] returns the text of its node and
    [getNodePosition] the position of its node. *)
Theorem search_results_can_be_looked_up (table : string → option Parser)
    (cs : list Call) (query : string) (r : QueryResult) :
  let st := runCalls cs (withParsers table newCodeIndexer) in
  r ∈ search query st →
  getNodeText st (id (node r)) = Some (text (node r)) ∧
  getNodePosition st (id (node r)) = Some (positionOf (node r)).
Proof.
  intros st. unfold search. rewrite sort_by_perm. intros Hr.
  pose proof (searchCandidates_indexed query st) as Hall.
  rewrite Forall_forall in Hall. specialize (Hall r Hr).
  pose proof (keyedById_runCalls cs (withParsers table newCodeIndexer)
                keyedById_new) as [Hnd Hkey].
  fold st in Hnd, Hkey.
  apply elem_of_values in Hall as [k Hk]; [|done].
  destruct (Hkey _ _ Hk) as [-> _].
  unfold getNodeText, getNodePosition. by rewrite Hk.
Qed.

Lemma search_results_can_be_looked_up_witness :
  let st := runCalls
              [IndexFile (Examples.envWith [("add.ts", Examples.addSource)]) "add.ts"]
              (withParsers Examples.tsOnly newCodeIndexer) in
  let r := mkQueryResult
             (convertToCodeNode Examples.addDeclaration "add.ts") 12 ["add"] in
  getNodeText st (id (node r)) = Some (text (node r)) ∧
  getNodePosition st (id (node r)) = Some (positionOf (node r)).
Proof.
  intros st r.
  apply (search_results_can_be_looked_up Examples.tsOnly
           [IndexFile (Examples.envWith [("add.ts", Examples.addSource)]) "add.ts"]
           "add" r).
  vm_compute. apply list_elem_of_here.
Defined.

End ResultLookup.

(** ** The bulk run of [initialize] *)

Section BulkRun.
Import JSMap JSMapFacts.

(** Indexing a file again in the same surroundings stores the same tree
    and changes no key. *)
Lemma indexFile_stored env f st :
  indexes_wf st → storedFrom env st →
  indexes_wf (indexFile env f st).2 ∧ storedFrom env (indexFile env f st).2.
Proof.
  intros Hwf Hstored.
  destruct (get f (fileIndex st)) as [root|] eqn:Hroot.
  - destruct (Hstored f root Hroot)
      as (table & parser & fileContent & tree & Hp & Ht & Hr & Hparse & ->).
    rewrite (indexFile_success env f st table parser fileContent tree) by done.
    simpl. destruct Hwf as (Hnd & Hown & Hcons).
    assert (Hkeep : ∀ g, get g (set f (convertToCodeNode tree f) (fileIndex st))
                         = get g (fileIndex st)).
    { intros g. destruct (decide (f = g)) as [<-|Hne].
      - by rewrite get_set_eq.
      - by rewrite get_set_ne. }
    split.
    + split; [by apply keys_set_NoDup|]. split.
      * intros g root' i. simpl. rewrite Hkeep. apply Hown.
      * intros i. rewrite elem_of_reachableIds by (by apply keys_set_NoDup).
        simpl. rewrite elem_of_keys_indexNode, (Hcons i),
          elem_of_reachableIds by done.
        split.
        -- intros [Hi|(g & root' & Hg & Hi)].
           ++ exists f, (convertToCodeNode tree f). by rewrite get_set_eq.
           ++ exists g, root'. by rewrite Hkeep.
        -- intros (g & root' & Hg & Hi). rewrite Hkeep in Hg. eauto.
    + intros g root'. simpl. rewrite Hkeep. intros Hg.
      destruct (Hstored g root' Hg) as (t' & p' & c' & tr' & ? & ? & ? & ? & ?).
      exists t', p', c', tr'. done.
  - split.
    + destruct Hwf as (Hnd & Hown & Hcons).
      apply indexFile_keeps; [done|done| |by left].
      by apply consistent_except_fresh.
    + intros g root'.
      destruct (indexFile_frame env f st) as [Hp Hother].
      destruct (decide (g = f)) as [->|Hne].
      * unfold indexFile, bind, getState, putState, throw, ret in *. simpl in *.
        destruct (parsers st) as [table|] eqn:Hpar;
          [|simpl; rewrite Hroot; discriminate].
        destruct (table (fileExtension env f)) as [parser|] eqn:Ht;
          [|simpl; rewrite Hroot; discriminate].
        destruct (readFileSync env f) as [fileContent|] eqn:Hr;
          [|simpl; rewrite Hroot; discriminate].
        destruct (parser fileContent) as [tree|] eqn:Hparse;
          [|simpl; rewrite Hroot; discriminate].
        simpl. rewrite get_set_eq. intros [= <-].
        exists table, parser, fileContent, tree. done.
      * rewrite Hother by done. intros Hg.
        destruct (Hstored g root' Hg) as (t' & p' & c' & tr' & ? & ? & ? & ? & ?).
        exists t', p', c', tr'. rewrite Hp. done.
Qed.

Lemma indexAll_stored env files : ∀ st,
  indexes_wf st → storedFrom env st →
  indexes_wf (indexAll env files st).2 ∧ storedFrom env (indexAll env files st).2.
Proof.
  induction files as [|f files IH]; intros st Hwf Hstored; [done|].
  rewrite indexAll_cons.
  destruct (indexFile_stored env f st Hwf Hstored) as [Hwf' Hstored'].
  destruct (indexFile env f st) as [[[]|e] st']; simpl in *; [|done].
  by apply IH.
Qed.

Lemma initialize_unfold env folders st :
  initialize env folders st =
  match loadRequiredLanguageParsers env (getAllFiles env folders) with
  | None => (Thrown "Failed to load language parsers", st)
  | Some table => indexAll env (getAllFiles env folders) (withParsers table st)
  end.
Proof.
  unfold initialize.
  by destruct (loadRequiredLanguageParsers env (getAllFiles env folders)).
Qed.

(** X11.  However [initialize] ends on a new indexer — it returns, a file
    cannot be read or parsed and the run is aborted, the parsers cannot be
    loaded — and however often the scan lists a file, the keys of
    NodeIndex afterwards are exactly the ids reachable from the roots of
    FileIndex, and every root is the tree of its file. *)
Theorem initialize_leaves_indexes_consistent (env : Env)
    (folders : list string) :
  let st := (initialize env folders newCodeIndexer).2 in
  index_consistent st ∧ NoDup (keys (fileIndex st)) ∧ storedFrom env st.
Proof.
  intros st. subst st. rewrite initialize_unfold.
  destruct (loadRequiredLanguageParsers env (getAllFiles env folders))
    as [table|].
  - destruct (indexAll_stored env (getAllFiles env folders)
                (withParsers table newCodeIndexer))
      as [(Hnd & _ & Hcons) Hstored].
    + exact newCodeIndexer_wf.
    + by intros f root ?.
    + done.
  - simpl. destruct newCodeIndexer_wf as (Hnd & _ & Hcons).
    split; [done|]. split; [done|]. by intros f root ?.
Qed.

(** A root that is the tree of its file stays through the rest of the
    run. *)
Lemma indexAll_keeps_root env files f tree parser fileContent table : ∀ st st',
  indexAll env files st = (Returned tt, st') →
  parsers st = Some table →
  table (fileExtension env f) = Some parser →
  readFileSync env f = Some fileContent →
  parser fileContent = Some tree →
  get f (fileIndex st) = Some (convertToCodeNode tree f) →
  get f (fileIndex st') = Some (convertToCodeNode tree f).
Proof.
  induction files as [|g files IH]; intros st st' Hrun Hp Ht Hr Hparse Hroot.
  - by injection Hrun as <-.
  - rewrite indexAll_cons in Hrun.
    destruct (indexFile_frame env g st) as [Hp' Hother].
    destruct (indexFile env g st) as [[[]|e] st1] eqn:E; [|done].
    simpl in *. apply (IH st1 st' Hrun); try done; [congruence|].
    destruct (decide (f = g)) as [<-|Hne].
    + rewrite (indexFile_success env f st table parser fileContent tree) in E
        by done.
      injection E as <-. simpl. by rewrite get_set_eq.
    + by rewrite Hother.
Qed.

Lemma indexAll_returned env files table : ∀ st st',
  indexAll env files st = (Returned tt, st') →
  parsers st = Some table →
  ∀ f parser, f ∈ files → table (fileExtension env f) = Some parser →
    ∃ fileContent tree,
      readFileSync env f = Some fileContent ∧
      parser fileContent = Some tree ∧
      get f (fileIndex st') = Some (convertToCodeNode tree f).
Proof.
  induction files as [|g files IH]; intros st st' Hrun Hp f parser Hf Ht.
  - by apply elem_of_nil in Hf.
  - rewrite indexAll_cons in Hrun.
    destruct (indexFile_frame env g st) as [Hp' _].
    destruct (indexFile env g st) as [[[]|e] st1] eqn:E; [|done].
    simpl in *.
    destruct (decide (f = g)) as [<-|Hne].
    + destruct (readFileSync env f) as [fileContent|] eqn:Hr; cycle 1.
      { unfold indexFile, bind, getState, throw in E. simpl in E.
        rewrite Hp, Ht, Hr in E. discriminate. }
      destruct (parser fileContent) as [tree|] eqn:Hparse; cycle 1.
      { rewrite (indexFile_parse_failure env f st table parser fileContent) in E
          by done. discriminate. }
      exists fileContent, tree. split; [done|]. split; [done|].
      apply (indexAll_keeps_root env files f tree parser fileContent table st1 st');
        try done; [congruence|].
      rewrite (indexFile_success env f st table parser fileContent tree) in E
        by done.
      injection E as <-. simpl. by rewrite get_set_eq.
    + apply elem_of_cons in Hf as [?|Hf]; [done|].
      apply (IH st1 st' Hrun); [congruence|done|done].
Qed.

(** X12.  When [initialize] returns, every file of the scan whose
    extension has a parser has a root in FileIndex, and this root is the
    tree of the content of the file; [getNodeAtPosition] then answers for
    every position inside the root. *)
Theorem initialize_returned_has_indexed_every_file (env : Env)
    (folders : list string) (table : string → option Parser)
    (st st' : CodeIndexer) (f : string) (parser : Parser) :
  initialize env folders st = (Returned tt, st') →
  loadRequiredLanguageParsers env (getAllFiles env folders) = Some table →
  f ∈ getAllFiles env folders →
  table (fileExtension env f) = Some parser →
  ∃ fileContent tree,
    readFileSync env f = Some fileContent ∧
    parser fileContent = Some tree ∧
    get f (fileIndex st') = Some (convertToCodeNode tree f) ∧
    ∀ line column,
      outsideRange (convertToCodeNode tree f) line column = false →
      is_Some (getNodeAtPosition st' f line column).
Proof.
  intros Hrun Hload Hf Ht. rewrite initialize_unfold, Hload in Hrun.
  destruct (indexAll_returned env (getAllFiles env folders) table
              (withParsers table st) st' Hrun eq_refl f parser Hf Ht)
    as (fileContent & tree & Hr & Hparse & Hroot).
  exists fileContent, tree. repeat split; try done.
  intros line column Hin. unfold getNodeAtPosition. rewrite Hroot.
  destruct (findNodeAtPosition _ line column) eqn:E; [by eexists|].
  apply findNodeAtPosition_None in E. congruence.
Qed.

Lemma initialize_returned_has_indexed_every_file_witness :
  let env := Examples.envWith [("add.ts", Examples.addSource);
                               ("notes.md", "remember");
                               ("bar.ts", Examples.barSource)] in
  ∃ fileContent tree,
    readFileSync env "bar.ts" = Some fileContent ∧
    Examples.tsParser fileContent = Some tree ∧
    get "bar.ts" (fileIndex (initialize env [] newCodeIndexer).2)
      = Some (convertToCodeNode tree "bar.ts") ∧
    ∀ line column,
      outsideRange (convertToCodeNode tree "bar.ts") line column = false →
      is_Some (getNodeAtPosition (initialize env [] newCodeIndexer).2
                 "bar.ts" line column).
Proof.
  intros env.
  apply (initialize_returned_has_indexed_every_file env [] Examples.tsOnly
           newCodeIndexer (initialize env [] newCodeIndexer).2 "bar.ts"
           Examples.tsParser).
  - reflexivity.
  - reflexivity.
  - apply list_elem_of_further, list_elem_of_further, list_elem_of_here.
  - reflexivity.
Defined.

End BulkRun.

(** ** What the digest prints *)

Section DigestLines.
Import Digest.




Lemma printedCaptures_app out1 out2 :
  printedCaptures (out1 ++ out2) = printedCaptures out1 ++ printedCaptures out2.
Proof. unfold printedCaptures. by rewrite flat_map_app. Qed.

Lemma printedCaptures_gap (gap : bool) :
  printedCaptures (if gap then [Separator] else []) = [].
Proof. by destruct gap. Qed.

Lemma printed_chunksFrom lines cs : ∀ lastLine,
  printedCaptures (chunksFrom lines lastLine cs)
  = filter (λ c, Is_true (printable lines c)) cs.
Proof.
  induction cs as [|c cs IH]; intros lastLine; [done|].
  rewrite filter_cons. simpl. destruct (decide _) as [Hp|Hp].
  - apply Is_true_true, andb_true_iff in Hp as [-> ->]. simpl.
    rewrite printedCaptures_app, printedCaptures_gap. simpl.
    change (printedCaptures (DefinitionLine c :: ?l))
      with (c :: printedCaptures l). by rewrite IH.
  - apply Is_true_false, andb_false_iff in Hp as [->| ->]; simpl; [apply IH|].
    destruct (isNameCapture c); simpl; [|apply IH].
    rewrite printedCaptures_app, printedCaptures_gap. apply IH.
Qed.

(** Before the first printed line there is no separator. *)
Lemma chunksFrom_start lines cs :
  filter (λ c, Is_true (printable lines c)) cs = [] →
  chunksFrom lines (-1) cs = [].
Proof.
  induction cs as [|c cs IH]; [done|].
  rewrite filter_cons. simpl. destruct (decide _) as [Hp|Hp]; [done|].
  apply Is_true_false, andb_false_iff in Hp as [->| ->]; simpl; [done|].
  by destruct (isNameCapture c).
Qed.

Lemma chunksFrom_head lines cs :
  head (chunksFrom lines (-1) cs) ≠ Some Separator.
Proof.
  induction cs as [|c cs IH]; [done|]. simpl.
  destruct (isNameCapture c); simpl; [|done].
  by destruct (lineShown lines c).
Qed.

Lemma rendered_length render (out : list Chunk) :
  (∀ ch, (0 < String.length (render ch))%nat) →
  (0 <? String.length (foldr (λ ch s, render ch +:+ s) "" out))%nat = true
  ↔ out ≠ [].
Proof.
  intros Hpos. destruct out as [|ch out]; simpl; [done|].
  split; [done|]. intros _. apply Nat.ltb_lt.
  specialize (Hpos ch). destruct (render ch); simpl in *; lia.
Qed.

Lemma renderChunk_length lines ch : (0 < String.length (renderChunk lines ch))%nat.
Proof. destruct ch; simpl; lia. Qed.

(** X14.  [parseFile] has no digest for a file exactly when none of its
    captures has a label with [name] on a non-empty line; and a digest
    never has a separator in front of its first line. *)
Theorem digest_is_null_iff_nothing_printable (captures : list Capture)
    (lines : list string) :
  (formatDefinitions captures lines = None ↔
   ∀ c, c ∈ captures → printable lines c = false) ∧
  head (digestChunks captures lines) ≠ Some Separator.
Proof.
  split; [|rewrite digestChunks_chunksFrom; apply chunksFrom_head].
  assert (Hnone : filter (λ c, Is_true (printable lines c))
                    (JS.sort_by byStartRow captures) = [] ↔
                  ∀ c, c ∈ captures → printable lines c = false).
  { split.
    - intros Hnil c Hc. destruct (printable lines c) eqn:E; [|done].
      assert (Hin : c ∈ filter (λ c, Is_true (printable lines c))
                        (JS.sort_by byStartRow captures)).
      { apply list_elem_of_filter. split; [by rewrite E|].
        by rewrite sort_by_perm. }
      rewrite Hnil in Hin. by apply elem_of_nil in Hin.
    - intros Hall.
      destruct (filter _ (JS.sort_by byStartRow captures)) as [|c l] eqn:E;
        [done|].
      assert (Hin : c ∈ filter (λ c, Is_true (printable lines c))
                        (JS.sort_by byStartRow captures)).
      { rewrite E. apply list_elem_of_here. }
      apply list_elem_of_filter in Hin as [Hp Hin].
      rewrite sort_by_perm in Hin. by rewrite (Hall c Hin) in Hp. }
  unfold formatDefinitions. destruct captures as [|c0 captures].
  { split; [|done]. intros _ c Hc. by apply elem_of_nil in Hc. }
  cbv zeta.
  destruct (0 <? String.length _)%nat eqn:Hlen.
  - split; [done|]. intros Hall. apply Hnone in Hall.
    apply (rendered_length (renderChunk lines)) in Hlen;
      [|apply renderChunk_length].
    destruct Hlen. rewrite digestChunks_chunksFrom. by apply chunksFrom_start.
  - split; [|done]. intros _. apply Hnone.
    rewrite <- printed_chunksFrom with (lastLine := -1),
      <- digestChunks_chunksFrom.
    destruct (digestChunks (c0 :: captures) lines) as [|ch out] eqn:E; [done|].
    assert (Hne : ch :: out ≠ []) by done.
    apply (rendered_length (renderChunk lines)) in Hne;
      [|apply renderChunk_length].
    congruence.
Qed.

(** The earlier loop appends [LegacyDigest.chunksFrom] to what it has. *)
Lemma fold_legacy_digestStep lines cs : ∀ out lastLine,
  (fold_left (LegacyDigest.digestStep lines) cs (out, lastLine)).1
  = out ++ LegacyDigest.chunksFrom lines lastLine cs.
Proof.
  induction cs as [|c cs IH]; intros out lastLine; simpl.
  - by rewrite app_nil_r.
  - change (negb (lastLine =? -1) && (Z.of_N (cap_startRow c) >? lastLine + 1))
      with (gapBefore lastLine c).
    rewrite IH.
    destruct (gapBefore lastLine c), (isNameCapture c && lineShown lines c);
      simpl; by rewrite <- ?app_assoc.
Qed.

Lemma printed_legacy_chunksFrom lines cs : ∀ lastLine,
  printedCaptures (LegacyDigest.chunksFrom lines lastLine cs)
  = filter (λ c, Is_true (printable lines c)) cs.
Proof.
  induction cs as [|c cs IH]; intros lastLine; [done|].
  rewrite filter_cons. simpl.
  rewrite !printedCaptures_app, printedCaptures_gap, IH. simpl.
  fold (printable lines c). destruct (decide _) as [Hp|Hp].
  - apply Is_true_true in Hp. by rewrite Hp.
  - apply Is_true_false in Hp. by rewrite Hp.
Qed.

Lemma legacy_renderChunk_length lines ch :
  (0 < String.length (LegacyDigest.renderChunk lines ch))%nat.
Proof. destruct ch; simpl; lia. Qed.

End DigestLines.

(** ** The single-pass search *)

Section SinglePassFacts.

Lemma matching_terms_exist (f : string → bool) (terms : list string) :
  (0 <? length (filter (λ term, Is_true (f term)) terms))%nat = existsb f terms.
Proof.
  induction terms as [|t terms IH]; [done|].
  rewrite filter_cons. simpl. destruct (decide _) as [Ht|Ht].
  - apply Is_true_true in Ht. by rewrite Ht.
  - apply Is_true_false in Ht. by rewrite Ht.
Qed.

Lemma SinglePass_searchStep_node terms results n :
  node <$> SinglePass.searchStep terms results n
  = (node <$> results) ++ filter (λ n, Is_true (singlePassMatch terms n)) [n].
Proof.
  unfold SinglePass.searchStep. rewrite filter_cons, filter_nil.
  destruct (decide _) as [Hm|Hm].
  - apply Is_true_true, andb_true_iff in Hm as [Hlong Hsome].
    apply negb_true_iff in Hlong. rewrite Hlong. cbv zeta.
    rewrite matching_terms_exist, Hsome.
    assert (Hpos : Qpositive (calculateScore n
              (filter (λ term, Is_true (JS.includes (JS.toLowerCase (text n)) term))
                      terms)) = true).
    { apply calculateScore_positive. intros Hnil.
      rewrite <- matching_terms_exist, Hnil in Hsome. discriminate. }
    rewrite Hpos. by rewrite fmap_app.
  - rewrite app_nil_r.
    apply Is_true_false, andb_false_iff in Hm as [Hshort|Hnone].
    + apply negb_false_iff in Hshort. by rewrite Hshort.
    + destruct (String.length (text n) <? 10)%nat; [done|]. cbv zeta.
      by rewrite matching_terms_exist, Hnone.
Qed.

Lemma SinglePass_fold_node terms nodes : ∀ results,
  node <$> fold_left (SinglePass.searchStep terms) nodes results
  = (node <$> results) ++ filter (λ n, Is_true (singlePassMatch terms n)) nodes.
Proof.
  induction nodes as [|n nodes IH]; intros results; simpl.
  - by rewrite app_nil_r.
  - rewrite IH, SinglePass_searchStep_node, <- app_assoc. f_equal.
    rewrite (filter_cons _ n nodes), filter_cons, filter_nil.
    by destruct (decide _).
Qed.

(** X16.  The single-pass [search] of the earlier variants gives one
    result for every entry of NodeIndex whose text has ten characters or
    more and contains a term of the query, and no other result: no entry
    is returned twice. *)
Theorem single_pass_search_returns_each_match_once (query : string)
    (st : CodeIndexer) :
  node <$> SinglePass.search query st
  ≡ₚ filter (λ n, Is_true (singlePassMatch
                             (JS.split_ws (JS.toLowerCase query)) n))
            (JSMap.values (nodeIndex st)).
Proof.
  unfold SinglePass.search. rewrite sort_by_perm.
  unfold SinglePass.searchCandidates. by rewrite SinglePass_fold_node.
Qed.

End SinglePassFacts.

(** ** The folder scan *)

Section ScanFacts.
Import Scan.
Context (env : Env) (join : string → string → string).

Lemma forItems_keeps (P : list string → Prop)
    (step : Entry → list string → list string * bool) items :
  Forall (λ item, ∀ files, P files → P (step item files).1) items →
  ∀ files, P files → P (forItems step items files).
Proof.
  induction 1 as [|item items Hitem _ IH]; intros files Hfiles; simpl; [done|].
  specialize (Hitem files Hfiles).
  destruct (step item files) as [files' thrown]. simpl in Hitem.
  destruct thrown; [done|]. by apply IH.
Qed.

Lemma visit_supported item : ∀ folder files,
  Forall (λ f, isSupportedFileType env f = true) files →
  Forall (λ f, isSupportedFileType env f = true)
         (visit env join folder item files).1.
Proof.
  induction item as [name|name readable items IH|name|name] using Entry_ind;
    intros folder files Hfiles; simpl; try done.
  - destruct (isSupportedFileType env _) eqn:Hsup; simpl; [|done].
    apply Forall_app. split; [done|]. by constructor.
  - destruct (entered name); simpl; [|done].
    destruct readable; [|done].
    apply (forItems_keeps (Forall (λ f, isSupportedFileType env f = true)));
      [|done].
    eapply Forall_impl; [exact IH|]. intros item Hitem files'. apply Hitem.
Qed.

(** X17.  Every path that [getAllFiles] returns has passed
    [isSupportedFileType]: its extension in lower case is one of [js],
    [jsx], [ts], [tsx] and [go]. *)
Theorem scan_returns_supported_files_only
    (readdirSync : string → option (list Entry)) (folders : list string) :
  Forall (λ f, fileExtension env f ∈ supportedExtensions)
         (getAllFiles env join readdirSync folders).
Proof.
  apply (Forall_impl (λ f, isSupportedFileType env f = true));
    [|intros f Hf; by apply bool_decide_eq_true in Hf].
  unfold getAllFiles.
  assert (H : ∀ files,
    Forall (λ f, isSupportedFileType env f = true) files →
    Forall (λ f, isSupportedFileType env f = true)
      (fold_left (λ files folder, processFolder env join readdirSync folder files)
                 folders files)).
  { induction folders as [|folder folders IH]; intros files Hfiles; simpl;
      [done|].
    apply IH. unfold processFolder.
    destruct (readdirSync folder) as [items|]; [|done].
    apply (forItems_keeps (Forall (λ f, isSupportedFileType env f = true)));
      [|done].
    apply Forall_forall. intros item _ files'. apply visit_supported. }
  apply H. constructor.
Qed.

Lemma visit_thrown folder item files :
  (visit env join folder item files).2
  = match item with BrokenEntry _ => true | _ => false end.
Proof.
  destruct item as [name|name readable items|name|name]; simpl; try done.
  - by destruct (isSupportedFileType env _).
  - by destruct (entered name).
Qed.

Lemma forItems_broken folder pre name post : ∀ files,
  forItems (visit env join folder) (pre ++ BrokenEntry name :: post) files
  = forItems (visit env join folder) pre files.
Proof.
  induction pre as [|item pre IH]; intros files; [done|].
  simpl. pose proof (visit_thrown folder item files) as Hthrown.
  destruct (visit env join folder item files) as [files' thrown].
  destruct thrown; [done|]. apply IH.
Qed.

(** X18.  An item on which [statSync] throws ends the scan of its folder:
    the items listed after it are not looked at, while what the items
    before it gave stays.  The scan of the folder gives what it gives
    when the listing ends before that item. *)
Theorem broken_item_hides_the_rest_of_its_folder
    (readdirSync readdirSync' : string → option (list Entry))
    (folder name : string) (pre post : list Entry) (files : list string) :
  readdirSync folder = Some (pre ++ BrokenEntry name :: post) →
  readdirSync' folder = Some pre →
  processFolder env join readdirSync folder files
  = processFolder env join readdirSync' folder files.
Proof.
  intros Hall Hpre. unfold processFolder. rewrite Hall, Hpre.
  apply forItems_broken.
Qed.

End ScanFacts.

Lemma broken_item_hides_the_rest_of_its_folder_witness :
  Scan.processFolder (Examples.envWith []) Samples.joinPosix
    (Samples.readWorkspace Samples.workspace) "ws" []
  = [ "ws/add.ts"; "ws/lib/bar.ts" ].
Proof.
  rewrite (broken_item_hides_the_rest_of_its_folder (Examples.envWith [])
             Samples.joinPosix
             (Samples.readWorkspace Samples.workspace)
             (Samples.readWorkspace (take 2 Samples.workspace))
             "ws" "dangling" (take 2 Samples.workspace)
             [Scan.FileEntry "pair.ts"] []).
  - reflexivity.
  - reflexivity.
  - reflexivity.
Defined.

(** ** The parser loader *)

Section LoaderFacts.
Import Loader JSMap JSMapFacts.
Context (env : Env) (initializeParser : completion unit)
        (parserOf : string → QuerySource → completion Parser).

Lemma elem_of_setOf_fold (v : string) values : ∀ s,
  v ∈ fold_left (λ s (v : string), if bool_decide (v ∈ s) then s else s ++ [v])
                values s
  ↔ v ∈ s ∨ v ∈ values.
Proof.
  induction values as [|w values IH]; intros s; simpl.
  - split; [by left|]. intros [?|Hnil]; [done|]. by apply elem_of_nil in Hnil.
  - rewrite IH, elem_of_cons. destruct (bool_decide (w ∈ s)) eqn:Hw.
    + apply bool_decide_eq_true in Hw. split; [tauto|].
      intros [?|[->|?]]; tauto.
    + rewrite elem_of_app, list_elem_of_singleton. tauto.
Qed.

Lemma elem_of_setOf v values : v ∈ setOf values ↔ v ∈ values.
Proof.
  unfold setOf. rewrite elem_of_setOf_fold. split; [|by right].
  intros [Hnil|?]; [|done]. by apply elem_of_nil in Hnil.
Qed.

Lemma loadEach_unsupported exts : ∀ parsers ext,
  ext ∈ exts → grammarOf ext = None →
  ∃ e, loadEach parserOf exts parsers = Thrown e.
Proof.
  induction exts as [|ext0 exts IH]; intros parsers ext Hin Hnone.
  - by apply elem_of_nil in Hin.
  - simpl. destruct (grammarOf ext0) as [[langName query]|] eqn:Hg; [|eauto].
    destruct (parserOf langName query) as [parser|e]; [|eauto].
    apply elem_of_cons in Hin as [->|Hin]; [congruence|].
    by apply (IH _ ext).
Qed.

(** X19.  A Go source passes the filter of the scan, and the loader
    with the switch over [js], [jsx], [ts] and [tsx] throws as soon as
    the files hold one: no parser table is returned, whatever the other
    files are. *)
Theorem loader_throws_on_go_file (filesToParse : list string) (f : string) :
  f ∈ filesToParse →
  fileExtension env f = "go" →
  Scan.isSupportedFileType env f = true ∧
  ∃ e, loadRequiredLanguageParsers env initializeParser parserOf filesToParse
       = Thrown e.
Proof.
  intros Hf Hext. split.
  - unfold Scan.isSupportedFileType. rewrite Hext. by vm_compute.
  - unfold loadRequiredLanguageParsers.
    destruct initializeParser as [[]|e]; [|eauto].
    apply (loadEach_unsupported _ _ "go"); [|done].
    apply elem_of_setOf, list_elem_of_fmap. eauto.
Qed.

Lemma loadEach_returned exts : ∀ parsers table,
  loadEach parserOf exts parsers = Returned table →
  (∀ ext, ext ∈ exts →
     ∃ langName query parser,
       grammarOf ext = Some (langName, query) ∧
       parserOf langName query = Returned parser ∧
       get ext table = Some parser) ∧
  (∀ ext, ext ∉ exts → get ext table = get ext parsers).
Proof.
  induction exts as [|ext0 exts IH]; intros parsers table Hrun; simpl in Hrun.
  - injection Hrun as <-. split; [|done].
    intros ext Hin. by apply elem_of_nil in Hin.
  - destruct (grammarOf ext0) as [[langName query]|] eqn:Hg; [|done].
    destruct (parserOf langName query) as [parser|e] eqn:Hp; [|done].
    destruct (IH _ _ Hrun) as [Hin Hout]. split.
    + intros ext [->|Hext]%elem_of_cons; [|by apply Hin].
      destruct (decide (ext0 ∈ exts)) as [Hmore|Hlast]; [by apply Hin|].
      exists langName, query, parser. split; [done|]. split; [done|].
      by rewrite (Hout _ Hlast), get_set_eq.
    + intros ext [Hne Hext]%not_elem_of_cons.
      by rewrite (Hout _ Hext), get_set_ne.
Qed.

(** X20.  When that loader returns, its table has a parser under
    the extension of every file it was given, the one made for the
    grammar of the extension, and it has no entry under any other key. *)
Theorem loader_table_covers_the_files (filesToParse : list string)
    (table : JSMap.t Parser) :
  loadRequiredLanguageParsers env initializeParser parserOf filesToParse
  = Returned table →
  (∀ f, f ∈ filesToParse →
     ∃ langName query parser,
       grammarOf (fileExtension env f) = Some (langName, query) ∧
       parserOf langName query = Returned parser ∧
       get (fileExtension env f) table = Some parser) ∧
  (∀ ext, is_Some (get ext table) → ext ∈ fileExtension env <$> filesToParse).
Proof.
  unfold loadRequiredLanguageParsers.
  destruct initializeParser as [[]|e]; [|done]. intros Hrun.
  destruct (loadEach_returned _ _ _ Hrun) as [Hin Hout]. split.
  - intros f Hf. apply Hin, elem_of_setOf, list_elem_of_fmap. eauto.
  - intros ext Hsome.
    destruct (decide (ext ∈ setOf (fileExtension env <$> filesToParse)))
      as [Hext|Hext]; [by apply (proj1 (elem_of_setOf _ _)) in Hext|].
    rewrite (Hout _ Hext) in Hsome. destruct Hsome as [parser Hparser].
    discriminate Hparser.
Qed.

End LoaderFacts.

Lemma loader_throws_on_go_file_witness :
  Scan.isSupportedFileType Samples.goEnv "ws/main.go" = true ∧
  ∃ e, Loader.loadRequiredLanguageParsers Samples.goEnv (Returned tt)
         Samples.loadsAll [ "ws/add.ts"; "ws/main.go" ] = Thrown e.
Proof.
  apply (loader_throws_on_go_file Samples.goEnv (Returned tt) Samples.loadsAll
           [ "ws/add.ts"; "ws/main.go" ] "ws/main.go").
  - apply list_elem_of_further, list_elem_of_here.
  - reflexivity.
Defined.

Lemma loader_table_covers_the_files_witness :
  JSMap.get "ts"
    (JSMap.set "ts" Examples.tsParser (JSMap.empty : JSMap.t Parser))
  = Some Examples.tsParser.
Proof.
  destruct (loader_table_covers_the_files (Examples.envWith [])
              (Returned tt) Samples.loadsAll [ "add.ts"; "bar.ts" ]
              (JSMap.set "ts" Examples.tsParser JSMap.empty) eq_refl)
    as [Hfiles _].
  destruct (Hfiles "add.ts" (list_elem_of_here _ _))
    as (langName & query & parser & Hg & Hp & Hget).
  injection Hp as <-. exact Hget.
Defined.

(** ** The listing of one directory *)

Section ListFilesFacts.
Import ListFiles.
Context (join : string → string → string).

Lemma forEntries_closed dir limit entries : ∀ results,
  forEntries join dir limit entries results
  = if bool_decide (limit ≤ Z.of_nat (length results))
    then (results, bool_decide (limit ≤ Z.of_nat (length results)))
    else (results ++
            (listed join dir <$>
               take (Z.to_nat (limit - Z.of_nat (length results))) entries),
          bool_decide (limit ≤ Z.of_nat (length results + length entries))).
Proof.
  induction entries as [|entry entries IH]; intros results; simpl.
  - destruct (bool_decide (limit ≤ Z.of_nat (length results))) eqn:Hfull;
      [done|].
    rewrite take_nil, fmap_nil, app_nil_r, Nat.add_0_r. by rewrite Hfull.
  - destruct (bool_decide (limit ≤ Z.of_nat (length results))) eqn:Hfull.
    { done. }
    apply bool_decide_eq_false in Hfull.
    rewrite IH, length_app. simpl.
    replace (Z.to_nat (limit - Z.of_nat (length results)))
      with (S (Z.to_nat (limit - Z.of_nat (length results + 1)))) by lia.
    simpl. rewrite <- app_assoc. simpl.
    destruct (bool_decide (limit ≤ Z.of_nat (length results + 1))) eqn:Hnow.
    + apply bool_decide_eq_true in Hnow.
      replace (Z.to_nat (limit - Z.of_nat (length results + 1))) with 0%nat
        by lia.
      rewrite take_0. simpl. f_equal.
      symmetry. apply bool_decide_eq_true_2. lia.
    + f_equal. apply bool_decide_ext. lia.
Qed.

(** X21.  [listFilesNonRecursive] on a readable directory returns the
    first [limit] entries, a folder with a slash behind its path, and
    never more; it reports that the limit was reached as soon as the
    directory has [limit] entries, also when it has exactly that many
    and none was left out. *)
Theorem listing_stops_at_the_limit
    (readdir : string → option (list Dirent)) (dir : string) (limit : Z)
    (entries : list Dirent) :
  readdir dir = Some entries →
  listFilesNonRecursive join readdir dir limit
  = (listed join dir <$> take (Z.to_nat limit) entries,
     bool_decide (limit ≤ Z.of_nat (length entries))).
Proof.
  intros Hread. unfold listFilesNonRecursive. rewrite Hread, forEntries_closed.
  cbn [length app Nat.add]. change (Z.of_nat 0) with 0. rewrite Z.sub_0_r.
  destruct (bool_decide (limit ≤ 0)) eqn:Hlimit; [|done].
  apply bool_decide_eq_true in Hlimit.
  replace (Z.to_nat limit) with 0%nat by lia. rewrite take_0.
  f_equal. symmetry. apply bool_decide_eq_true_2. lia.
Qed.

End ListFilesFacts.

Lemma listing_stops_at_the_limit_witness :
  ListFiles.listFilesNonRecursive Samples.joinPosix
    (λ _, Some Samples.someEntries) "ws" 2
  = ([ "ws/src/"; "ws/package.json" ], true).
Proof.
  rewrite (listing_stops_at_the_limit Samples.joinPosix
             (λ _, Some Samples.someEntries) "ws" 2 Samples.someEntries
             eq_refl).
  reflexivity.
Defined.

(** ** Calls that keep the two indexes together *)

Section SafeCalls.
Import JSMap JSMapFacts.

Lemma withParsers_wf table : indexes_wf (withParsers table newCodeIndexer).
Proof.
  split; [constructor|]. split; [by intros f root i ?|].
  intros i. unfold reachableIds. simpl.
  split; by intros ?%elem_of_nil.
Qed.

(** X22.  After any run of calls since the parsers were loaded in which
    [indexFile] is used on files that have no root yet and [updateFile] on
    files that have no root yet or whose new content is read and parsed,
    the keys of NodeIndex are exactly the ids of the nodes under the roots
    of FileIndex. *)
Theorem safe_calls_keep_indexes_consistent (table : string → option Parser)
    (cs : list Call) :
  allKeepIndexes cs (withParsers table newCodeIndexer) →
  index_consistent (runCalls cs (withParsers table newCodeIndexer)).
Proof.
  intros Hsafe.
  by apply (index_consistent_after_calls cs (withParsers table newCodeIndexer)
              (withParsers_wf table)).
Qed.

Lemma safe_calls_keep_indexes_consistent_witness :
  index_consistent
    (runCalls [ IndexFile (Examples.envWith [("add.ts", Examples.addSource)])
                  "add.ts";
                UpdateFile Examples.addReplaced "add.ts" ]
       (withParsers Examples.tsOnly newCodeIndexer)).
Proof.
  apply (safe_calls_keep_indexes_consistent Examples.tsOnly
           [ IndexFile (Examples.envWith [("add.ts", Examples.addSource)])
               "add.ts";
             UpdateFile Examples.addReplaced "add.ts" ]).
  split; [reflexivity|]. split; [|exact I].
  right. exists Examples.tsOnly. split; [reflexivity|].
  exists Examples.tsParser, Examples.barSource, Examples.barTree.
  repeat split; reflexivity.
Defined.

(** X23.  An [updateFile] whose file is read and parsed returns, stores
    the new tree as the root of the file, leaves the two indexes
    consistent and leaves no id of the old tree in NodeIndex that the
    new tree does not have. *)
Theorem successful_update_replaces_the_tree (env : Env) (f : string)
    (st : CodeIndexer) (table : string → option Parser) (parser : Parser)
    (fileContent : string) (tree : TSNode) :
  indexes_wf st →
  parsers st = Some table →
  table (fileExtension env f) = Some parser →
  readFileSync env f = Some fileContent →
  parser fileContent = Some tree →
  let r := updateFile env f st in
  r.1 = Returned tt ∧
  get f (fileIndex r.2) = Some (convertToCodeNode tree f) ∧
  index_consistent r.2 ∧
  ∀ oldRootNode i,
    get f (fileIndex st) = Some oldRootNode →
    i ∈ node_ids oldRootNode →
    i ∉ node_ids (convertToCodeNode tree f) →
    i ∉ keys (nodeIndex r.2).
Proof.
  intros Hwf Hp Ht Hr Hparse r.
  assert (Hwf' : indexes_wf r.2).
  { apply (runCall_keeps (UpdateFile env f) st Hwf).
    right. exists table. split; [done|]. by exists parser, fileContent, tree. }
  subst r. rewrite updateFile_unfold in *.
  set (st' := match get f (fileIndex st) with
              | Some oldRootNode => _
              | None => st
              end) in *.
  assert (Hp' : parsers st' = Some table).
  { subst st'. by destruct (get f (fileIndex st)). }
  assert (Hfi : fileIndex st' = fileIndex st).
  { subst st'. by destruct (get f (fileIndex st)). }
  rewrite (indexFile_success env f st' table parser fileContent tree) in *
    by done.
  cbn [fst snd fileIndex nodeIndex] in *.
  split; [done|]. split; [by rewrite get_set_eq|].
  destruct Hwf' as (Hnd' & Hown' & Hcons'). split; [done|].
  intros oldRootNode i Hold Hi Hnew Hkey.
  apply Hcons', elem_of_reachableIds in Hkey as (g & root & Hg & Hin);
    [|done].
  cbn [fileIndex] in Hg. destruct (decide (f = g)) as [<-|Hne].
  - rewrite get_set_eq in Hg. by injection Hg as <-.
  - rewrite get_set_ne, Hfi in Hg by done.
    destruct Hwf as (_ & Hown & _).
    destruct (Hown _ _ _ Hg Hin) as (row & col & ->).
    destruct (Hown _ _ _ Hold Hi) as (row' & col' & Heq).
    apply makeId_file_inj in Heq. congruence.
Qed.

End SafeCalls.

(** ** Declarations behind their first token *)

Section Declarations.
Import JSMap JSMapFacts.

Lemma followed_app l1 l2 : followed l1 → followed l2 → followed (l1 ++ l2).
Proof.
  induction l1 as [|d l1 IH]; [done|]. simpl. intros [Hd Hl1] Hl2. split.
  - intros Hty. destruct (Hd Hty) as (c & Hc & Hid). exists c.
    split; [|done]. apply elem_of_app. by left.
  - by apply IH.
Qed.

Lemma followed_flat_map (cs : list CodeNode) :
  Forall (λ c, followed (subnodes c)) cs → followed (flat_map subnodes cs).
Proof. induction 1; simpl; [done|]. by apply followed_app. Qed.

Lemma tokenHeaded_unfold t :
  tokenHeaded t =
  (negb (bool_decide (ts_type t = "interface_declaration")
         || bool_decide (ts_type t = "type_alias"))
   || existsb (λ c, negb (bool_decide (ts_type c = "comment"))
                    && (ts_startRow c =? ts_startRow t)%N
                    && (ts_startCol c =? ts_startCol t)%N)
              (ts_children t))
  && forallb tokenHeaded (ts_children t).
Proof. by destruct t. Qed.

(** In the materialized tree of such a syntax tree every declaration is
    followed, in document order, by a node with its id. *)
Lemma tokenHeaded_followed t f :
  tokenHeaded t = true → followed (subnodes (convertToCodeNode t f)).
Proof.
  induction t as [ty tx sr sc er ec nf cs IH] using TSNode_ind.
  rewrite tokenHeaded_unfold, convertToCodeNode_unfold.
  cbn [ts_type ts_children ts_startRow ts_startCol].
  intros [Hhead Hkids]%andb_true_iff.
  cbn [subnodes children followed]. split.
  - intros Hty. unfold isTypeDeclaration in Hty. cbn [type] in Hty.
    rewrite Hty in Hhead. cbn [negb orb] in Hhead.
    apply existsb_exists in Hhead as (c & Hc & Hcond).
    apply andb_true_iff in Hcond as [Hcond Hcol].
    apply andb_true_iff in Hcond as [Hcomment Hrow].
    apply negb_true_iff, bool_decide_eq_false in Hcomment.
    apply N.eqb_eq in Hrow. apply N.eqb_eq in Hcol.
    exists (convertToCodeNode c f). split.
    + apply elem_of_flat_map. exists (convertToCodeNode c f).
      split; [|apply root_in_subnodes].
      apply list_elem_of_fmap. exists c. split; [done|].
      apply list_elem_of_filter. split; [done|]. by apply list_elem_of_In.
    + rewrite (convertToCodeNode_unfold c f). cbn [id]. by rewrite Hrow, Hcol.
  - apply followed_flat_map, Forall_fmap, Forall_forall.
    intros c [_ Hc]%list_elem_of_filter. unfold compose.
    rewrite Forall_forall in IH. apply (IH c Hc).
    rewrite forallb_forall in Hkids. by apply Hkids, list_elem_of_In.
Qed.

Lemma followed_last k l m :
  followed l → lastWithId k l = Some m → isTypeDeclaration m = false.
Proof.
  induction l as [|d l IH]; [done|]. intros [Hd Hl].
  change (d :: l) with ([d] ++ l). rewrite lastWithId_app.
  destruct (lastWithId k l) as [m'|] eqn:E.
  - intros [= <-]. by apply IH.
  - intros Hlast. apply lastWithId_Some in Hlast as [Hin Hid].
    apply list_elem_of_singleton in Hin as ->.
    destruct (isTypeDeclaration d) eqn:Hty; [|done].
    destruct (Hd eq_refl) as (c & Hc & Hcid).
    apply lastWithId_None in E. exfalso. apply E.
    apply list_elem_of_fmap. exists c. split; [congruence|done].
Qed.

Lemma holdsNoDeclaration_indexNode n idx :
  followed (subnodes n) → holdsNoDeclaration idx →
  holdsNoDeclaration (indexNode n idx).
Proof.
  intros Hf Hidx k m. rewrite get_indexNode.
  destruct (lastWithId k (subnodes n)) as [m'|] eqn:E.
  - intros [= <-]. by apply (followed_last k (subnodes n)).
  - apply Hidx.
Qed.

Lemma holdsNoDeclaration_removeNodeFromIndex n idx :
  holdsNoDeclaration idx → holdsNoDeclaration (removeNodeFromIndex n idx).
Proof.
  intros Hidx k m. destruct (decide (k ∈ node_ids n)) as [Hk|Hk].
  - by rewrite get_removeNodeFromIndex.
  - rewrite get_removeNodeFromIndex_other by done. apply Hidx.
Qed.

Lemma holdsNoDeclaration_indexFile env f st table :
  parsers st = Some table → tokenHeadedParsers table →
  holdsNoDeclaration (nodeIndex st) →
  holdsNoDeclaration (nodeIndex (indexFile env f st).2).
Proof.
  intros Hp Hshape Hidx.
  unfold indexFile, bind, getState, putState, throw, ret. simpl. rewrite Hp.
  destruct (table (fileExtension env f)) as [parser|] eqn:Ht; [|done].
  destruct (readFileSync env f) as [fileContent|]; [|done].
  destruct (parser fileContent) as [tree|] eqn:Hparse; [|done].
  simpl. apply holdsNoDeclaration_indexNode; [|done].
  apply tokenHeaded_followed. by apply (Hshape _ _ _ _ Ht Hparse).
Qed.

Lemma holdsNoDeclaration_runCall c st table :
  parsers st = Some table → tokenHeadedParsers table →
  holdsNoDeclaration (nodeIndex st) →
  parsers (runCall c st) = Some table ∧
  holdsNoDeclaration (nodeIndex (runCall c st)).
Proof.
  intros Hp Hshape Hidx. destruct c as [env f|env f]; simpl.
  - split.
    + destruct (indexFile_frame env f st) as [-> _]. done.
    + by apply (holdsNoDeclaration_indexFile env f st table).
  - rewrite updateFile_unfold.
    set (st' := match get f (fileIndex st) with
                | Some oldRootNode => _
                | None => st
                end).
    assert (Hp' : parsers st' = Some table).
    { subst st'. by destruct (get f (fileIndex st)). }
    assert (Hidx' : holdsNoDeclaration (nodeIndex st')).
    { subst st'. destruct (get f (fileIndex st)); [|done].
      simpl. by apply holdsNoDeclaration_removeNodeFromIndex. }
    split.
    + destruct (indexFile_frame env f st') as [-> _]. done.
    + by apply (holdsNoDeclaration_indexFile env f st' table).
Qed.

Lemma holdsNoDeclaration_runCalls cs table : ∀ st,
  parsers st = Some table → tokenHeadedParsers table →
  holdsNoDeclaration (nodeIndex st) →
  holdsNoDeclaration (nodeIndex (runCalls cs st)).
Proof.
  induction cs as [|c cs IH]; intros st Hp Hshape Hidx; [done|].
  destruct (holdsNoDeclaration_runCall c st table Hp Hshape Hidx) as [Hp' Hidx'].
  by apply IH.
Qed.

(** The values of an index reached by calls on such trees: their ids
    differ and none is a declaration. *)
Lemma reachable_values table cs :
  tokenHeadedParsers table →
  NoDup (id <$> values (nodeIndex (runCalls cs (withParsers table newCodeIndexer)))) ∧
  ∀ n, n ∈ values (nodeIndex (runCalls cs (withParsers table newCodeIndexer))) →
       isTypeDeclaration n = false.
Proof.
  intros Hshape.
  pose proof (keyedById_runCalls cs (withParsers table newCodeIndexer)
                keyedById_new) as Hkeyed.
  split.
  - rewrite keyedById_ids by done. by destruct Hkeyed.
  - intros n Hn. destruct Hkeyed as [Hnd _].
    apply elem_of_values in Hn as [k Hk]; [|done].
    revert Hk. apply holdsNoDeclaration_runCalls with (table := table);
      [done|done|]. by intros k' n' ?.
Qed.

Lemma typePass_idle terms nodes : ∀ acc,
  (∀ n, n ∈ nodes → isTypeDeclaration n = false) →
  fold_left (typePassStep terms) nodes acc = acc.
Proof.
  induction nodes as [|n nodes IH]; intros acc Hno; [done|]. simpl.
  rewrite typePassStep_cases, (Hno n (list_elem_of_here _ _)).
  assert ((if has (id n) (addedNodes acc) then acc else acc) = acc) as ->
    by (by destruct (has _ _)).
  apply IH. intros n' Hn'. by apply Hno, list_elem_of_further.
Qed.


Lemma tsOnly_tokenHeaded : tokenHeadedParsers Examples.tsOnly.
Proof.
  intros ext parser fileContent tree Ht Hp. unfold Examples.tsOnly in Ht.
  destruct (bool_decide (ext = "ts")); [|discriminate].
  injection Ht as <-. unfold Examples.tsParser in Hp.
  repeat (destruct (bool_decide _) in Hp; [by injection Hp as <-|]).
  discriminate.
Qed.



(** X9.  On an index built by [indexFile] and [updateFile] from syntax
    trees in which a declaration begins with its keyword token, no entry
    of NodeIndex is an interface declaration or a type alias: the token
    has the id of the declaration and is stored behind it.  So the third
    loop of [search] pushes nothing: a query with [interface] or [type] in
    it returns what the first two loops found, and no result is a
    declaration of a type. *)
Theorem type_declarations_never_reach_the_index
    (table : string → option Parser) (cs : list Call) :
  tokenHeadedParsers table →
  let st := runCalls cs (withParsers table newCodeIndexer) in
  (∀ n, n ∈ values (nodeIndex st) →
        type n ≠ "interface_declaration" ∧ type n ≠ "type_alias") ∧
  (∀ query,
     search query st
     = JS.sort_by byScoreDescending (results (afterTermPass query st))) ∧
  (∀ query r, r ∈ search query st →
        type (node r) ≠ "interface_declaration" ∧
        type (node r) ≠ "type_alias").
Proof.
  intros Hshape st. destruct (reachable_values table cs Hshape) as [_ Hno].
  fold st in Hno.
  assert (Htypes : ∀ n, n ∈ values (nodeIndex st) →
            type n ≠ "interface_declaration" ∧ type n ≠ "type_alias").
  { intros n Hn. specialize (Hno n Hn). unfold isTypeDeclaration in Hno.
    apply orb_false_iff in Hno as [H1 H2].
    by apply bool_decide_eq_false in H1, H2. }
  split; [done|]. split.
  - intros query. unfold search. rewrite searchCandidates_passes.
    destruct (asksForTypes query); [|done]. by rewrite typePass_idle.
  - intros query r Hr. apply Htypes.
    unfold search in Hr. rewrite sort_by_perm in Hr.
    pose proof (searchCandidates_indexed query st) as Hall.
    rewrite Forall_forall in Hall. by apply Hall.
Qed.

Lemma type_declarations_never_reach_the_index_witness :
  search "prototype chain" Examples.barIndexed = [] ∧
  getNodeText Examples.barIndexed "bar.ts:0:0" = Some "interface" ∧
  ∀ n, n ∈ values (nodeIndex Examples.barIndexed) →
       type n ≠ "interface_declaration" ∧ type n ≠ "type_alias".
Proof.
  split; [by vm_compute|]. split; [by vm_compute|].
  apply (type_declarations_never_reach_the_index Examples.tsOnly
           [IndexFile (Examples.envWith [("bar.ts", Examples.barSource)])
              "bar.ts"]).
  exact tsOnly_tokenHeaded.
Defined.

End Declarations.

(** ** Replacing the tree of an indexed file *)

Section Replacement.
Import JSMap JSMapFacts.

Lemma addIndexed_wf : indexes_wf Examples.addIndexed.
Proof.
  apply (runCall_keeps
           (IndexFile (Examples.envWith [("add.ts", Examples.addSource)])
              "add.ts")
           Examples.ready).
  - split; [constructor|]. split; [by intros f root i ?|].
    intros i. split; by intros ?%elem_of_nil.
  - reflexivity.
Qed.

Lemma successful_update_replaces_the_tree_witness :
  let r := updateFile Examples.addReplaced "add.ts" Examples.addIndexed in
  get "add.ts" (fileIndex Examples.addIndexed)
    = Some (convertToCodeNode Examples.addTree "add.ts") ∧
  "add.ts:0:9" ∈ keys (nodeIndex Examples.addIndexed) ∧
  r.1 = Returned tt ∧
  get "add.ts" (fileIndex r.2)
    = Some (convertToCodeNode Examples.barTree "add.ts") ∧
  index_consistent r.2 ∧
  ("add.ts:0:9" ∉ keys (nodeIndex r.2)) ∧
  ("add.ts:0:12" ∉ keys (nodeIndex r.2)) ∧
  "add.ts:0:10" ∈ keys (nodeIndex r.2).
Proof.
  intros r.
  destruct (successful_update_replaces_the_tree Examples.addReplaced "add.ts"
              Examples.addIndexed Examples.tsOnly Examples.tsParser
              Examples.barSource Examples.barTree addIndexed_wf
              eq_refl eq_refl eq_refl eq_refl)
    as (Hreturned & Hroot & Hcons & Hstale).
  split; [reflexivity|].
  split; [vm_compute; apply list_elem_of_further, list_elem_of_here|].
  split; [exact Hreturned|]. split; [exact Hroot|]. split; [exact Hcons|].
  split; [|split].
  - apply (Hstale (convertToCodeNode Examples.addTree "add.ts") "add.ts:0:9");
      [reflexivity| |].
    + vm_compute.
      apply list_elem_of_further, list_elem_of_further, list_elem_of_here.
    + apply (bool_decide_unpack _). by vm_compute.
  - apply (Hstale (convertToCodeNode Examples.addTree "add.ts") "add.ts:0:12");
      [reflexivity| |].
    + vm_compute.
      do 3 apply list_elem_of_further. apply list_elem_of_here.
    + apply (bool_decide_unpack _). by vm_compute.
  - vm_compute. apply list_elem_of_further, list_elem_of_here.
Defined.

End Replacement.

(** ** The digest as text *)

Section DigestText.
Import Digest.

Lemma string_app_cons x (a b : string) :
  String x a +:+ b = String x (a +:+ b).
Proof. reflexivity. Qed.

Lemma string_app_nil_l (a : string) : "" +:+ a = a.
Proof. reflexivity. Qed.

Lemma string_app_assoc (a b c : string) : (a +:+ b) +:+ c = a +:+ (b +:+ c).
Proof.
  induction a as [|x a IH]; [done|]. rewrite !string_app_cons. by rewrite IH.
Qed.

Lemma string_app_nil_r (a : string) : a +:+ "" = a.
Proof.
  induction a as [|x a IH]; [done|]. rewrite string_app_cons. by rewrite IH.
Qed.

Lemma oneLine_app a b : oneLine (a +:+ b) = oneLine a && oneLine b.
Proof.
  induction a as [|x a IH]; [done|]. rewrite string_app_cons. simpl.
  by rewrite IH, andb_assoc.
Qed.

(** A row and its line feed give one piece. *)
Lemma split_lines_go_row s : ∀ cur rest,
  oneLine s = true →
  JS.split_lines_go cur (s +:+ newline +:+ rest)
  = (cur +:+ s) :: JS.split_lines_go "" rest.
Proof.
  induction s as [|x s IH]; intros cur rest Hs.
  - rewrite string_app_nil_l, string_app_nil_r. reflexivity.
  - simpl in Hs. apply andb_true_iff in Hs as [Hx Hs].
    apply negb_true_iff in Hx.
    rewrite string_app_cons. simpl. rewrite Hx, IH by done. f_equal.
    by rewrite string_app_assoc.
Qed.

Lemma split_lines_go_oneLine s : ∀ cur,
  oneLine cur = true →
  Forall (λ l, oneLine l = true) (JS.split_lines_go cur s).
Proof.
  induction s as [|x s IH]; intros cur Hcur; simpl.
  - by repeat constructor.
  - destruct (Ascii.eqb x "010") eqn:Hx.
    + constructor; [done|]. by apply IH.
    + apply IH. rewrite oneLine_app, Hcur. simpl. by rewrite Hx.
Qed.

(** The lines of a file hold no line feed. *)
Lemma split_lines_oneLine s : Forall (λ l, oneLine l = true) (JS.split_lines s).
Proof. by apply split_lines_go_oneLine. Qed.

Lemma sourceLine_oneLine lines c :
  Forall (λ l, oneLine l = true) lines → oneLine (sourceLine lines c) = true.
Proof.
  intros Hlines. unfold sourceLine.
  destruct (lines !! N.to_nat (cap_startRow c)) as [l|] eqn:E; [|done].
  simpl. rewrite Forall_forall in Hlines.
  by apply Hlines, (list_elem_of_lookup_2 _ _ _ E).
Qed.

Lemma rowOf_oneLine prefix lines ch :
  oneLine prefix = true → Forall (λ l, oneLine l = true) lines →
  oneLine (rowOf prefix lines ch) = true.
Proof.
  intros Hp Hlines. destruct ch as [|c]; [done|]. simpl.
  by rewrite oneLine_app, Hp, sourceLine_oneLine.
Qed.

Section Rows.
Context (prefix : string) (render : Chunk → string) (lines : list string).
Hypothesis render_row : ∀ ch, render ch = rowOf prefix lines ch +:+ newline.
Hypothesis row_oneLine : ∀ ch, oneLine (rowOf prefix lines ch) = true.

Lemma rows_of_rendering out tail :
  JS.split_lines_go "" (renderAll render out +:+ tail)
  = (rowOf prefix lines <$> out) ++ JS.split_lines_go "" tail.
Proof.
  induction out as [|ch out IH]; [done|].
  cbn [renderAll foldr fmap list_fmap app].
  fold (renderAll render out).
  rewrite render_row, !string_app_assoc, split_lines_go_row by done.
  by rewrite string_app_nil_l, IH.
Qed.

(** The rows of a digest: the opening separator, a row for each chunk,
    the closing separator, and the empty piece behind the last line
    feed. *)
Lemma digest_rows out :
  JS.split_lines (separatorText +:+ renderAll render out +:+ separatorText)
  = "|----" :: (rowOf prefix lines <$> out) ++ ["|----"; ""].
Proof.
  unfold JS.split_lines.
  change separatorText with ("|----" +:+ newline) at 1.
  rewrite string_app_assoc, split_lines_go_row by done.
  rewrite rows_of_rendering, string_app_nil_l. reflexivity.
Qed.
End Rows.

Lemma prefix_app p s : String.prefix p (p +:+ s) = true.
Proof.
  induction p as [|x p IH]; [by destruct s|].
  rewrite string_app_cons. simpl. by destruct (ascii_dec x x).
Qed.

(** The rows behind the line prefix are those of the printed captures. *)
Lemma definitionRows_rendered prefix lines out :
  String.prefix prefix "|----" = false →
  String.prefix prefix "" = false →
  filter (λ row, Is_true (String.prefix prefix row))
         ("|----" :: (rowOf prefix lines <$> out) ++ ["|----"; ""])
  = (λ c, prefix +:+ sourceLine lines c) <$> printedCaptures out.
Proof.
  intros Hsep Hnil.
  rewrite filter_cons_False by (rewrite Hsep; intros []).
  rewrite filter_app, (filter_cons_False _ "|----")
    by (rewrite Hsep; intros []).
  rewrite filter_cons_False by (rewrite Hnil; intros []).
  rewrite filter_nil, app_nil_r.
  induction out as [|ch out IH]; [done|]. rewrite fmap_cons.
  destruct ch as [|c]; simpl.
  - by rewrite filter_cons_False by (rewrite Hsep; intros []).
  - rewrite filter_cons_True by (rewrite prefix_app; exact I).
    change (printedCaptures (DefinitionLine c :: out))
      with (c :: printedCaptures out).
    rewrite IH. reflexivity.
Qed.

Lemma renderChunk_row lines ch :
  renderChunk lines ch = rowOf linePrefix lines ch +:+ newline.
Proof.
  destruct ch as [|c]; [done|]. unfold renderChunk, rowOf, sourceLine, newline.
  by rewrite string_app_assoc.
Qed.

Lemma legacy_renderChunk_row lines ch :
  LegacyDigest.renderChunk lines ch
  = rowOf LegacyDigest.linePrefix lines ch +:+ newline.
Proof.
  destruct ch as [|c]; [done|].
  unfold LegacyDigest.renderChunk, rowOf, sourceLine, newline.
  by rewrite string_app_assoc.
Qed.

(** What [parseFile] returns is the text of the chunks between two
    separators, and nothing when there is no chunk. *)
Lemma formatDefinitions_text captures lines :
  formatDefinitions captures lines =
  match digestChunks captures lines with
  | [] => None
  | out =>
      Some (separatorText +:+ renderAll (renderChunk lines) out
            +:+ separatorText)
  end.
Proof.
  unfold formatDefinitions. destruct captures as [|c0 captures]; [done|].
  cbv zeta. fold (renderAll (renderChunk lines)
                    (digestChunks (c0 :: captures) lines)).
  destruct (digestChunks (c0 :: captures) lines) as [|ch out] eqn:E; [done|].
  assert (Hne : ch :: out ≠ []) by done.
  apply (rendered_length (renderChunk lines)) in Hne;
    [|apply renderChunk_length].
  unfold renderAll. by rewrite Hne.
Qed.

Lemma legacy_formatDefinitions_text captures lines :
  LegacyDigest.formatDefinitions captures lines =
  match LegacyDigest.digestChunks captures lines with
  | [] => None
  | out =>
      Some (separatorText +:+ renderAll (LegacyDigest.renderChunk lines) out
            +:+ separatorText)
  end.
Proof.
  unfold LegacyDigest.formatDefinitions. cbv zeta.
  fold (renderAll (LegacyDigest.renderChunk lines)
          (LegacyDigest.digestChunks captures lines)).
  destruct (LegacyDigest.digestChunks captures lines) as [|ch out] eqn:E;
    [done|].
  assert (Hne : ch :: out ≠ []) by done.
  apply (rendered_length (LegacyDigest.renderChunk lines)) in Hne;
    [|apply legacy_renderChunk_length].
  unfold renderAll. by rewrite Hne.
Qed.


(** The definition rows of the digest of a file. *)
Lemma definitionRows_digest captures fileContent :
  definitionRowsOf linePrefix
    (formatDefinitions captures (JS.split_lines fileContent))
  = (λ c, linePrefix +:+ sourceLine (JS.split_lines fileContent) c)
    <$> printedCaptures (digestChunks captures (JS.split_lines fileContent)).
Proof.
  rewrite formatDefinitions_text.
  destruct (digestChunks captures (JS.split_lines fileContent))
    as [|ch out]; [done|].
  unfold definitionRowsOf, definitionRows.
  rewrite (digest_rows linePrefix (renderChunk (JS.split_lines fileContent))
             (JS.split_lines fileContent)).
  - by apply definitionRows_rendered.
  - apply renderChunk_row.
  - intros ch'. apply rowOf_oneLine; [done|apply split_lines_oneLine].
Qed.

Lemma definitionRows_legacy_digest captures fileContent :
  definitionRowsOf LegacyDigest.linePrefix
    (LegacyDigest.formatDefinitions captures (JS.split_lines fileContent))
  = (λ c, LegacyDigest.linePrefix +:+ sourceLine (JS.split_lines fileContent) c)
    <$> printedCaptures
          (LegacyDigest.digestChunks captures (JS.split_lines fileContent)).
Proof.
  rewrite legacy_formatDefinitions_text.
  destruct (LegacyDigest.digestChunks captures (JS.split_lines fileContent))
    as [|ch out]; [done|].
  unfold definitionRowsOf, definitionRows.
  rewrite (digest_rows LegacyDigest.linePrefix
             (LegacyDigest.renderChunk (JS.split_lines fileContent))
             (JS.split_lines fileContent)).
  - by apply definitionRows_rendered.
  - apply legacy_renderChunk_row.
  - intros ch'. apply rowOf_oneLine; [done|apply split_lines_oneLine].
Qed.









(** X15.  The earlier [parseFile], which tries the separator for every
    capture and moves [lastLine] with every capture, prints the same
    source lines in the same order as the later one, each behind the line
    prefix of its own revision; and where the later one has a digest the
    earlier one has one as well.  What the two put between the lines may
    differ. *)
Theorem legacy_digest_prints_the_same_lines (captures : list Capture)
    (fileContent : string) :
  let lines := JS.split_lines fileContent in
  let shown :=
    sourceLine lines <$>
    filter (λ c, Is_true (printable lines c))
           (JS.sort_by byStartRow captures) in
  definitionRowsOf linePrefix (formatDefinitions captures lines)
    = (λ l, linePrefix +:+ l) <$> shown ∧
  definitionRowsOf LegacyDigest.linePrefix
      (LegacyDigest.formatDefinitions captures lines)
    = (λ l, LegacyDigest.linePrefix +:+ l) <$> shown ∧
  (is_Some (formatDefinitions captures lines) →
   is_Some (LegacyDigest.formatDefinitions captures lines)).
Proof.
  intros lines shown. subst shown lines. split; [|split].
  - rewrite definitionRows_digest, digestChunks_chunksFrom, printed_chunksFrom.
    by rewrite <- list_fmap_compose.
  - rewrite definitionRows_legacy_digest. unfold LegacyDigest.digestChunks.
    rewrite fold_legacy_digestStep. simpl.
    rewrite printed_legacy_chunksFrom. by rewrite <- list_fmap_compose.
  - rewrite formatDefinitions_text, legacy_formatDefinitions_text.
    destruct (digestChunks captures (JS.split_lines fileContent))
      as [|ch out] eqn:E; [by intros [? ?]|]. intros _.
    assert (Hprinted :
      printedCaptures
        (LegacyDigest.digestChunks captures (JS.split_lines fileContent))
      = printedCaptures (ch :: out)).
    { rewrite <- E. unfold LegacyDigest.digestChunks.
      rewrite fold_legacy_digestStep, digestChunks_chunksFrom. simpl.
      by rewrite printed_legacy_chunksFrom, printed_chunksFrom. }
    destruct (LegacyDigest.digestChunks captures (JS.split_lines fileContent))
      as [|ch' out']; [|by eexists].
    pose proof (chunksFrom_head (JS.split_lines fileContent)
                  (JS.sort_by byStartRow captures)) as Hhead.
    rewrite <- digestChunks_chunksFrom, E in Hhead.
    destruct ch; [done|]. discriminate.
Qed.

Lemma legacy_digest_prints_the_same_lines_witness :
  definitionRowsOf linePrefix
      (formatDefinitions Examples.spacedCaptures
         (JS.split_lines Samples.spacedSource))
    = [ linePrefix +:+ "function f() {}"; linePrefix +:+ "function g() {}";
        linePrefix +:+ "function h() {}" ] ∧
  definitionRowsOf LegacyDigest.linePrefix
      (LegacyDigest.formatDefinitions Examples.spacedCaptures
         (JS.split_lines Samples.spacedSource))
    = [ LegacyDigest.linePrefix +:+ "function f() {}";
        LegacyDigest.linePrefix +:+ "function g() {}";
        LegacyDigest.linePrefix +:+ "function h() {}" ] ∧
  is_Some (LegacyDigest.formatDefinitions Examples.spacedCaptures
             (JS.split_lines Samples.spacedSource)).
Proof.
  destruct (legacy_digest_prints_the_same_lines Examples.spacedCaptures
              Samples.spacedSource) as (Hlater & Hearlier & Hsome).
  split; [exact Hlater|]. split; [exact Hearlier|].
  apply Hsome. vm_compute. by eexists.
Defined.

End DigestText.
